(** * GtkTim2SortModel: a list model that sorts its items

    Shallow embedding of [gtk/gtktim2sortmodel.c] and verification of the
    properties its specification states about the item buffer, the
    mutation translator, the sort scheduler and the public list-model
    interface. *)

From Stdlib Require Import ZArith Lia List Sorting.Sorted Sorting.Permutation.
From stdpp Require Import base decidable option list sorting.

Local Open Scope Z_scope.

(** ** Machine integers

    [guint] is a 32-bit unsigned integer; arithmetic on it wraps. *)

Definition guint_modulus : Z := 2 ^ 32.

Definition guint (x : Z) : Z := x mod guint_modulus.

Definition is_guint (x : Z) : Prop := 0 <= x < guint_modulus.

(** ** Element handles and the collaborators of the model *)

(** A [GObject *] is either NULL or the handle of an element; elements are
    identified by an integer. *)
Definition GObject : Type := Z.
Definition gpointer : Type := option GObject.

Inductive GtkOrdering : Type :=
  | GTK_ORDERING_SMALLER
  | GTK_ORDERING_EQUAL
  | GTK_ORDERING_LARGER.

Inductive GtkSorterOrder : Type :=
  | GTK_SORTER_ORDER_PARTIAL
  | GTK_SORTER_ORDER_NONE
  | GTK_SORTER_ORDER_TOTAL.

#[global] Instance GtkOrdering_eq_dec : EqDecision GtkOrdering.
Proof. solve_decision. Defined.

#[global] Instance GtkSorterOrder_eq_dec : EqDecision GtkSorterOrder.
Proof. solve_decision. Defined.

(** The source list model ("the underlying mutable sequence": [length],
    [get (index)] and a change event): an object (identified by
    [model_id]) and its current contents.  The length of a list model is a
    [guint]. *)
Record GListModel : Type := {
  model_id : nat;
  model_items : list GObject
}.

Definition g_list_model_get_n_items (m : GListModel) : Z :=
  Z.of_nat (length (model_items m)).

(** Out of range, [g_list_model_get_item] returns NULL. *)
Definition g_list_model_get_item (m : GListModel) (position : Z) : gpointer :=
  if position <? 0 then None else model_items m !! Z.to_nat position.

(** Modelled from the spec: the sorter ([gtksorter.c]) is not among the
    sources; the model consumes it only through [compare (a, b)], giving an
    ordering, and its order state (NONE, PARTIAL or TOTAL). *)
Record GtkSorter : Type := {
  sorter_compare : gpointer -> gpointer -> GtkOrdering;
  sorter_order : GtkSorterOrder
}.

(** Modelled from the spec: the order state of the sorter. *)
Definition gtk_sorter_get_order (s : GtkSorter) : GtkSorterOrder := sorter_order s.

(** Modelled from the spec: [gtk_sorter_compare], with the sorter passed as
    the [data] pointer of the comparison callback.  The specification says
    nothing of a NULL sorter; the model lets it order nothing (the buffer is
    empty whenever a sort starts without a sorter). *)
Definition gtk_sorter_compare (data : option GtkSorter) (a b : gpointer) : GtkOrdering :=
  match data with
  | Some s => sorter_compare s a b
  | None => GTK_ORDERING_EQUAL
  end.

(** ** Items and the item array *)

Record SortItem : Type := {
  si_item : gpointer;
  si_position : Z
}.

(** [sort_item_clear]: [g_clear_object] drops the reference held on the
    element (if any) and leaves NULL in the slot.  The second component
    lists the handles that were unreferenced. *)
Definition sort_item_clear (si : SortItem) : SortItem * list GObject :=
  ({| si_item := None; si_position := si_position si |},
   match si_item si with Some o => [o] | None => [] end).

(** Modelled from the spec: [SortArray] instantiates [gdk/gdkarrayimpl.c],
    which is not among the sources, with elements stored by value and
    [sort_item_clear] as the free function.  The specification describes the
    buffer as an ordered, contiguous, resizable sequence of items: a list.
    Array sizes stay below [2 ^ 32], the bound on the length of the
    source. *)
Abbreviation SortArray := (list SortItem).

Definition sort_array_get_size (a : SortArray) : nat := length a.

Definition sort_array_is_empty (a : SortArray) : bool :=
  match a with [] => true | _ => false end.

Definition sort_array_append (a : SortArray) (si : SortItem) : SortArray := a ++ [si].

(** The handles unreferenced when the elements of [a] are freed. *)
Definition free_elements (a : SortArray) : list GObject :=
  flat_map (fun si => snd (sort_item_clear si)) a.

(** Shrinking frees the elements beyond the new size. *)
Definition sort_array_set_size (a : SortArray) (new_size : nat) : SortArray * list GObject :=
  (take new_size a, free_elements (drop new_size a)).

Definition sort_array_clear (a : SortArray) : SortArray * list GObject :=
  ([], free_elements a).

Definition zero_item : SortItem := {| si_item := None; si_position := 0 |}.

(** [memset (&a[from], 0, sizeof (SortItem) * n)], restricted to the slots
    the array has. *)
Fixpoint memset_items (a : SortArray) (from n : nat) : SortArray :=
  match n with
  | O => a
  | S n' => memset_items (<[from := zero_item]> a) (S from) n'
  end.

(** ** The mutation translator: [gtk_tim2_sort_model_update_items] *)

(** State of the compaction loop.  [ua_unrefs] collects the handles released
    by [sort_item_clear]; [ua_subs] is ghost state recording the operands
    [(a, b)] of every unsigned subtraction [a - b] the loop evaluates. *)
Record update_acc : Type := {
  ua_items : SortArray;
  ua_valid : nat;
  ua_start : Z;
  ua_end : Z;
  ua_unrefs : list GObject;
  ua_subs : list (Z * Z)
}.

(** Body of [for (i = 0; i < n_items; i++)]. *)
Definition update_items_iter (position removed added : Z) (n_items : nat)
    (acc : update_acc) (i : nat) : update_acc :=
  match ua_items acc !! i with
  | None => acc
  | Some si =>
      let valid := ua_valid acc in
      if guint (position + removed) <=? si_position si then
        let si' := {| si_item := si_item si;
                      si_position := guint (guint (si_position si - removed) + added) |} in
        let arr := <[i := si']> (ua_items acc) in
        {| ua_items := if (valid <? i)%nat then <[valid := si']> arr else arr;
           ua_valid := S valid;
           ua_start := ua_start acc;
           ua_end := ua_end acc;
           ua_unrefs := ua_unrefs acc;
           ua_subs := ua_subs acc ++ [(si_position si, removed)] |}
      else if position <=? si_position si then
        let '(cleared, freed) := sort_item_clear si in
        {| ua_items := <[i := cleared]> (ua_items acc);
           ua_valid := valid;
           ua_start := Z.min (ua_start acc) (Z.of_nat valid);
           ua_end := guint (guint (Z.of_nat n_items - Z.of_nat i) - 1);
           ua_unrefs := ua_unrefs acc ++ freed;
           ua_subs := ua_subs acc ++ [(Z.of_nat n_items, Z.of_nat i);
                                      (guint (Z.of_nat n_items - Z.of_nat i), 1)] |}
      else
        {| ua_items := if (valid <? i)%nat then <[valid := si]> (ua_items acc)
                       else ua_items acc;
           ua_valid := S valid;
           ua_start := ua_start acc;
           ua_end := ua_end acc;
           ua_unrefs := ua_unrefs acc;
           ua_subs := ua_subs acc |}
  end.

Definition update_items_loop (position removed added : Z) (n_items : nat)
    (items : SortArray) : update_acc :=
  fold_left (update_items_iter position removed added n_items) (seq 0 n_items)
    {| ua_items := items; ua_valid := 0;
       ua_start := Z.of_nat n_items; ua_end := Z.of_nat n_items;
       ua_unrefs := []; ua_subs := [] |}.

(** Result of the translator: the compacted array, the run lengths handed
    back to the caller, the unmodified prefix and suffix lengths, and the
    released handles. *)
Record update_result : Type := {
  ur_items : SortArray;
  ur_runs : list nat;
  ur_start : Z;
  ur_end : Z;
  ur_unrefs : list GObject;
  ur_subs : list (Z * Z)
}.

(** [None] stands for the failure of [g_assert (valid == n_items - removed)],
    which aborts the program. *)
Definition gtk_tim2_sort_model_update_items (items : SortArray) (runs : list nat)
    (position removed added : Z) : option update_result :=
  let n_items := Z.to_nat (guint (Z.of_nat (sort_array_get_size items))) in
  let acc := update_items_loop position removed added n_items items in
  let runs := <[0%nat := 0%nat]> runs in
  if decide (Z.of_nat (ua_valid acc) = guint (Z.of_nat n_items - removed)) then
    let arr := memset_items (ua_items acc) (ua_valid acc) (Z.to_nat removed) in
    let '(arr, freed) := sort_array_set_size arr (ua_valid acc) in
    Some {| ur_items := arr;
            ur_runs := runs;
            ur_start := ua_start acc;
            ur_end := ua_end acc;
            ur_unrefs := ua_unrefs acc ++ freed;
            ur_subs := ua_subs acc ++ [(Z.of_nat n_items, removed)] |}
  else None.

(** What one loop iteration decides for an item, in the machine arithmetic
    of the code: [Some] of the item to keep (possibly shifted), [None] when
    the item is dropped. *)
Definition update_item (position removed added : Z) (si : SortItem) : option SortItem :=
  if guint (position + removed) <=? si_position si then
    Some {| si_item := si_item si;
            si_position := guint (guint (si_position si - removed) + added) |}
  else if position <=? si_position si then None
  else Some si.

Definition update_drops (position removed : Z) (si : SortItem) : bool :=
  negb (guint (position + removed) <=? si_position si) && (position <=? si_position si).

(** The translation as the specification words it, over unbounded
    integers: items at or after the end of the removal window shift by
    [added - removed], items inside the window are dropped, the others are
    kept as they are, all in their original relative order. *)
Definition translate_item (position removed added : Z) (si : SortItem) : option SortItem :=
  if position + removed <=? si_position si then
    Some {| si_item := si_item si; si_position := si_position si - removed + added |}
  else if position <=? si_position si then None
  else Some si.

Definition translate_items (position removed added : Z) (items : SortArray) : SortArray :=
  omap (translate_item position removed added) items.

Definition in_window (position removed : Z) (si : SortItem) : bool :=
  (position <=? si_position si) && (si_position si <? position + removed).

Definition dropped_items (position removed : Z) (items : SortArray) : SortArray :=
  List.filter (in_window position removed) items.

(** Invariant of the compaction loop of the translator after [i]
    iterations over the original array [items0]: the first [ua_valid] slots
    hold the items kept so far, in order; the slots from [i] on are
    untouched; the handles released are those of the items dropped so far. *)
Record update_inv (position removed added : Z) (items0 : SortArray)
    (i : nat) (acc : update_acc) : Prop := {
  ui_length : length (ua_items acc) = length items0;
  ui_valid_le : (ua_valid acc <= i)%nat;
  ui_valid : ua_valid acc = length (omap (update_item position removed added) (take i items0));
  ui_prefix : take (ua_valid acc) (ua_items acc)
              = omap (update_item position removed added) (take i items0);
  ui_suffix : drop i (ua_items acc) = drop i items0;
  ui_unrefs : ua_unrefs acc
              = free_elements (List.filter (update_drops position removed) (take i items0))
}.

(** The bounds within which machine arithmetic agrees with unbounded
    arithmetic for an edit: the parameters are [guint] values, the end of the
    removal window does not wrap, the array size fits a [guint], and every
    position is a [guint] that still fits after shifting. *)
Definition edit_in_range (position removed added : Z) (items : SortArray) : Prop :=
  is_guint position /\ is_guint removed /\ is_guint added /\
  position + removed < guint_modulus /\
  Z.of_nat (length items) < guint_modulus /\
  Forall (fun si => is_guint (si_position si) /\
                    (position + removed <= si_position si ->
                     si_position si - removed + added < guint_modulus)) items.

(** The items of a source sequence, in source order: element [i] with
    original position [i]. *)
Definition source_items (src : list GObject) : SortArray :=
  map (fun i => {| si_item := src !! i; si_position := Z.of_nat i |}) (seq 0 (length src)).

(** Invariant I1: the buffer holds exactly one item per source element, with
    positions consistent with the source indices. *)
Definition I1 (items : SortArray) (src : list GObject) : Prop :=
  items ≡ₚ source_items src.

(** An unsigned subtraction [a - b] does not underflow. *)
Definition sub_ok (ab : Z * Z) : Prop := 0 <= snd ab <= fst ab.

(** ** The run-merge engine (GtkTimSort) *)

(** Modelled from the spec: the run-merge engine ([gtktimsortprivate.h],
    [gtktimsort.c]) is not among the sources.  The specification describes
    it as an adaptive stable merge sort over a mutable buffer that is
    stepped, keeps a stack of pending runs over a scanned prefix of the
    buffer, can have its run lengths read and preset, bounds the size of a
    single merge by [max_merge_size] (0 meaning unbounded), and reports for
    each step the range of the buffer the step rewrote.  The model keeps
    the pending runs as their lengths, the most recent (rightmost) run
    first; the runs tile the prefix [[0, sum of lengths)] of the buffer. *)
Record GtkTimSortRun : Type := {
  run_base : nat;
  run_len : nat
}.

(** Modelled from the spec: the state of the engine: the number of
    elements under sort, the comparison, the bound on a single merge and the
    lengths of the pending runs. *)
Record GtkTimSort : Type := {
  ts_size : nat;
  ts_compare : SortItem -> SortItem -> GtkOrdering;
  ts_max_merge_size : nat;
  ts_pending : list nat
}.

(** "Not greater" under a comparison function. *)
Definition compare_le (cmp : SortItem -> SortItem -> GtkOrdering) : relation SortItem :=
  fun a b => cmp a b <> GTK_ORDERING_LARGER.

#[global] Instance compare_le_dec cmp : RelDecision (compare_le cmp).
Proof. intros a b. unfold compare_le. apply _. Defined.

(** Modelled from the spec: an engine at rest (the zeroed structure). *)
Definition tim_sort_idle : GtkTimSort :=
  {| ts_size := 0; ts_compare := fun _ _ => GTK_ORDERING_EQUAL;
     ts_max_merge_size := 0; ts_pending := [] |}.

(** Modelled from the spec: [gtk_tim_sort_init] starts a run over [size]
    elements with no run detected yet and unbounded merges. *)
Definition gtk_tim_sort_init (size : nat)
    (compare_func : SortItem -> SortItem -> GtkOrdering) : GtkTimSort :=
  {| ts_size := size; ts_compare := compare_func;
     ts_max_merge_size := 0; ts_pending := [] |}.

(** Modelled from the spec: [gtk_tim_sort_get_runs] writes the lengths of
    the pending runs, oldest first, followed by a terminating 0. *)
Definition gtk_tim_sort_get_runs (ts : GtkTimSort) : list nat :=
  rev (ts_pending ts) ++ [0%nat].

(** Modelled from the spec: the entries of a 0-terminated array of run
    lengths. *)
Fixpoint runs_until_zero (runs : list nat) : list nat :=
  match runs with
  | [] => []
  | O :: _ => []
  | r :: runs' => r :: runs_until_zero runs'
  end.

(** Modelled from the spec: [gtk_tim_sort_set_runs] presets the pending runs
    from a 0-terminated array of lengths. *)
Definition gtk_tim_sort_set_runs (ts : GtkTimSort) (runs : list nat) : GtkTimSort :=
  {| ts_size := ts_size ts; ts_compare := ts_compare ts;
     ts_max_merge_size := ts_max_merge_size ts;
     ts_pending := rev (runs_until_zero runs) ++ ts_pending ts |}.

(** Modelled from the spec: [gtk_tim_sort_set_max_merge_size] sets the
    bound on the size of a single merge (0 for none). *)
Definition gtk_tim_sort_set_max_merge_size (ts : GtkTimSort) (max_merge_size : nat) : GtkTimSort :=
  {| ts_size := ts_size ts; ts_compare := ts_compare ts;
     ts_max_merge_size := max_merge_size;
     ts_pending := ts_pending ts |}.

(** Modelled from the spec: [gtk_tim_sort_finish] abandons the run. *)
Definition gtk_tim_sort_finish (ts : GtkTimSort) : GtkTimSort := tim_sort_idle.

(** Modelled from the spec: natural run detection, the length of the
    non-descending run that starts with [x]. *)
Fixpoint count_run (cmp : SortItem -> SortItem -> GtkOrdering) (x : SortItem)
    (l : SortArray) : nat :=
  match l with
  | [] => 1
  | y :: l' => if decide (compare_le cmp x y) then S (count_run cmp y l') else 1
  end.

(** Modelled from the spec: one step of the engine.  [None] is the answer
    FALSE (nothing left to do); otherwise the step returns the new engine
    state, the new buffer and the range it changed.  While part of the
    buffer is unscanned the step detects the next natural run and pushes it
    (moving nothing, so the change has length 0); afterwards it merges the
    two most recent runs stably, or, when the older of the two is longer
    than a non-zero [max_merge_size], only its last [max_merge_size]
    elements. *)
Definition gtk_tim_sort_step (ts : GtkTimSort) (buf : SortArray)
    : option (GtkTimSort * SortArray * GtkTimSortRun) :=
  let scanned := sum_list (ts_pending ts) in
  if decide (scanned < ts_size ts)%nat then
    let k := match drop scanned buf with
             | [] => 1%nat
             | x :: l => count_run (ts_compare ts) x l
             end in
    let k := Nat.min k (ts_size ts - scanned) in
    Some ({| ts_size := ts_size ts; ts_compare := ts_compare ts;
             ts_max_merge_size := ts_max_merge_size ts;
             ts_pending := k :: ts_pending ts |},
          buf,
          {| run_base := scanned; run_len := 0 |})
  else
    match ts_pending ts with
    | len2 :: len1 :: rest =>
        let max := ts_max_merge_size ts in
        let partial := (0 <? max)%nat && (max <? len1)%nat in
        let chunk := if partial then max else len1 in
        let lo := (sum_list rest + (len1 - chunk))%nat in
        let run1 := take chunk (drop lo buf) in
        let run2 := take len2 (drop (lo + chunk) buf) in
        let merged := list_merge (compare_le (ts_compare ts)) run1 run2 in
        Some ({| ts_size := ts_size ts; ts_compare := ts_compare ts;
                 ts_max_merge_size := ts_max_merge_size ts;
                 ts_pending := if partial then (len2 + chunk)%nat :: (len1 - chunk)%nat :: rest
                               else (len1 + len2)%nat :: rest |},
              take lo buf ++ merged ++ drop (lo + chunk + len2) buf,
              {| run_base := lo; run_len := chunk + len2 |})
    | _ => None
    end.

(** A bound on the number of steps the modelled engine can still take:
    every step that answers TRUE lowers it ([gtk_tim_sort_step_measure]). *)
Definition tim_sort_measure (ts : GtkTimSort) : nat :=
  let total := sum_list (ts_pending ts) in
  (length (ts_pending ts) + (2 * total - hd 0 (ts_pending ts))
   + (ts_size ts - total) * (ts_size ts + 2))%nat.

(** ** The model object and its environment *)

Record GtkTim2SortModel : Type := {
  model : option GListModel;
  sorter : option GtkSorter;
  incremental : bool;
  sort : GtkTimSort;          (* ongoing sort operation *)
  sort_cb : nat;              (* 0 or current ongoing sort callback *)
  items : SortArray           (* empty if known unsorted *)
}.

(** An emission of "items-changed": position, removed, added. *)
Record ItemsChanged : Type := {
  ic_position : Z;
  ic_removed : Z;
  ic_added : Z
}.

(** The model together with what it acts on: the "items-changed" signals it
    has emitted (oldest first), the element references it has released,
    the changes reported by the engine steps it has run (oldest first), the
    monotonic clock (the value of its [n]-th reading) and the idle sources
    handed out by the main loop. *)
Record World : Type := {
  self : GtkTim2SortModel;
  emitted : list ItemsChanged;
  unreffed : list GObject;
  merges : list GtkTimSortRun;
  monotonic_time : nat -> Z;
  time_reads : nat;
  idle_sources : nat
}.

Definition set_model_field (m : option GListModel) (s : GtkTim2SortModel) :=
  {| model := m; sorter := sorter s; incremental := incremental s;
     sort := sort s; sort_cb := sort_cb s; items := items s |}.
Definition set_sorter_field (x : option GtkSorter) (s : GtkTim2SortModel) :=
  {| model := model s; sorter := x; incremental := incremental s;
     sort := sort s; sort_cb := sort_cb s; items := items s |}.
Definition set_incremental_field (b : bool) (s : GtkTim2SortModel) :=
  {| model := model s; sorter := sorter s; incremental := b;
     sort := sort s; sort_cb := sort_cb s; items := items s |}.
Definition set_sort (ts : GtkTimSort) (s : GtkTim2SortModel) :=
  {| model := model s; sorter := sorter s; incremental := incremental s;
     sort := ts; sort_cb := sort_cb s; items := items s |}.
Definition set_sort_cb (id : nat) (s : GtkTim2SortModel) :=
  {| model := model s; sorter := sorter s; incremental := incremental s;
     sort := sort s; sort_cb := id; items := items s |}.
Definition set_items (a : SortArray) (s : GtkTim2SortModel) :=
  {| model := model s; sorter := sorter s; incremental := incremental s;
     sort := sort s; sort_cb := sort_cb s; items := a |}.

(** [gtk_tim2_sort_model_init] leaves the zero-initialised instance. *)
Definition gtk_tim2_sort_model_init : GtkTim2SortModel :=
  {| model := None; sorter := None; incremental := false;
     sort := tim_sort_idle; sort_cb := 0; items := [] |}.

Definition initial_world (clock : nat -> Z) : World :=
  {| self := gtk_tim2_sort_model_init; emitted := []; unreffed := []; merges := [];
     monotonic_time := clock; time_reads := 0; idle_sources := 0 |}.

Definition with_self (s : GtkTim2SortModel) (w : World) : World :=
  {| self := s; emitted := emitted w; unreffed := unreffed w; merges := merges w;
     monotonic_time := monotonic_time w; time_reads := time_reads w;
     idle_sources := idle_sources w |}.
Definition with_emitted (l : list ItemsChanged) (w : World) : World :=
  {| self := self w; emitted := l; unreffed := unreffed w; merges := merges w;
     monotonic_time := monotonic_time w; time_reads := time_reads w;
     idle_sources := idle_sources w |}.
Definition with_unreffed (l : list GObject) (w : World) : World :=
  {| self := self w; emitted := emitted w; unreffed := l; merges := merges w;
     monotonic_time := monotonic_time w; time_reads := time_reads w;
     idle_sources := idle_sources w |}.
Definition with_merges (l : list GtkTimSortRun) (w : World) : World :=
  {| self := self w; emitted := emitted w; unreffed := unreffed w; merges := l;
     monotonic_time := monotonic_time w; time_reads := time_reads w;
     idle_sources := idle_sources w |}.
Definition with_time_reads (n : nat) (w : World) : World :=
  {| self := self w; emitted := emitted w; unreffed := unreffed w; merges := merges w;
     monotonic_time := monotonic_time w; time_reads := n;
     idle_sources := idle_sources w |}.
Definition with_idle_sources (n : nat) (w : World) : World :=
  {| self := self w; emitted := emitted w; unreffed := unreffed w; merges := merges w;
     monotonic_time := monotonic_time w; time_reads := time_reads w;
     idle_sources := n |}.

(** ** A state monad with abort

    Code acting on the world either returns a value and a new world, or
    aborts the program through a failed [g_assert] ([None]). *)
Definition M (A : Type) : Type := World -> option (A * World).

Definition ret {A} (a : A) : M A := fun w => Some (a, w).

Definition bind {A B} (c : M A) (k : A -> M B) : M B :=
  fun w => match c w with
           | Some (a, w') => k a w'
           | None => None
           end.

Declare Scope m_scope.
Delimit Scope m_scope with M.
Notation "x <- c ;; k" := (bind c (fun x => k))
  (at level 100, c at next level, right associativity) : m_scope.
Notation "c ;;; k" := (bind c (fun _ => k))
  (at level 100, right associativity) : m_scope.
Local Open Scope m_scope.

Definition get_self : M GtkTim2SortModel := fun w => Some (self w, w).

Definition modify_self (f : GtkTim2SortModel -> GtkTim2SortModel) : M unit :=
  fun w => Some (tt, with_self (f (self w)) w).

Definition g_assert (b : bool) : M unit :=
  fun w => if b then Some (tt, w) else None.

(** [g_list_model_items_changed (G_LIST_MODEL (self), ...)]. *)
Definition g_list_model_items_changed (position removed added : Z) : M unit :=
  fun w => Some (tt, with_emitted (emitted w ++ [{| ic_position := position;
                                                    ic_removed := removed;
                                                    ic_added := added |}]) w).

Definition g_object_unref_all (l : list GObject) : M unit :=
  fun w => Some (tt, with_unreffed (unreffed w ++ l) w).

Definition g_get_monotonic_time : M Z :=
  fun w => Some (monotonic_time w (time_reads w), with_time_reads (S (time_reads w)) w).

(** [g_idle_add] returns a fresh, non-zero source id. *)
Definition g_idle_add : M nat :=
  fun w => Some (S (idle_sources w), with_idle_sources (S (idle_sources w)) w).

(** Run one engine step on the buffer of the model, recording the change
    it reports. *)
Definition tim_sort_step_self : M (option GtkTimSortRun) :=
  fun w =>
    match gtk_tim_sort_step (sort (self w)) (items (self w)) with
    | None => Some (None, w)
    | Some (ts, buf, change) =>
        Some (Some change,
              with_merges (merges w ++ [change])
                (with_self (set_items buf (set_sort ts (self w))) w))
    end.

(** ** The list-model interface of the sort model *)

Definition gtk_tim2_sort_model_get_n_items (s : GtkTim2SortModel) : Z :=
  match model s with
  | None => 0
  | Some m => g_list_model_get_n_items m
  end.

(** The reference taken by [g_object_ref] on the returned element is not
    tracked. *)
Definition gtk_tim2_sort_model_get_item (s : GtkTim2SortModel) (position : Z) : gpointer :=
  match model s with
  | None => None
  | Some m =>
      if sort_array_is_empty (items s) then g_list_model_get_item m position
      else if Z.of_nat (sort_array_get_size (items s)) <=? position then None
      else match items s !! Z.to_nat position with
           | Some si => si_item si
           | None => None
           end
  end.

(** ** Driving the engine *)

Definition gtk_tim2_sort_model_is_sorting (s : GtkTim2SortModel) : bool :=
  negb (sort_cb s =? 0)%nat.

(** Returns the contents written to the [runs] array (callers that pass
    NULL ignore them). *)
Definition gtk_tim2_sort_model_stop_sorting : M (list nat) :=
  s <- get_self ;;
  if (sort_cb s =? 0)%nat then
    ret [sort_array_get_size (items s); 0%nat]
  else
    let runs := gtk_tim_sort_get_runs (sort s) in
    modify_self (fun s => set_sort_cb 0 (set_sort (gtk_tim_sort_finish (sort s)) s)) ;;;
    ret runs.

(** [start_change = MIN (start_change, change.base)] and
    [end_change = MAX (end_change, change.base + change.len)], done only
    [if (change.len)]. *)
Definition widen_start (start_change : nat) (change : GtkTimSortRun) : nat :=
  if (run_len change =? 0)%nat then start_change
  else Nat.min start_change (run_base change).

Definition widen_end (end_change : nat) (change : GtkTimSortRun) : nat :=
  if (run_len change =? 0)%nat then end_change
  else Nat.max end_change (run_base change + run_len change).

(** The loop [while (gtk_tim_sort_step (&self->sort, &change))] of
    [gtk_tim2_sort_model_sort_step].  [start_change] and [end_change] are
    element offsets from the start of the array.  The recursion is bounded
    by [fuel]; the caller passes more fuel than the engine can take steps,
    so the bound is never what ends the loop (see [sort_step_loop_fuel]). *)
Fixpoint sort_step_loop (fuel : nat) (finish : bool) (end_time : Z)
    (start_change end_change : nat) (result : bool) : M (bool * nat * nat) :=
  match fuel with
  | O => ret (result, start_change, end_change)
  | S fuel' =>
      stepped <- tim_sort_step_self ;;
      match stepped with
      | None => ret (result, start_change, end_change)
      | Some change =>
          let start_change := widen_start start_change change in
          let end_change := widen_end end_change change in
          now <- g_get_monotonic_time ;;
          if (end_time <=? now) && negb finish then ret (true, start_change, end_change)
          else sort_step_loop fuel' finish end_time start_change end_change true
      end
  end.

(** Returns [(result, *out_position, *out_n_items)]. *)
Definition gtk_tim2_sort_model_sort_step (finish : bool) : M (bool * Z * Z) :=
  now <- g_get_monotonic_time ;;
  let end_time := now + 1000 in
  s <- get_self ;;
  r <- sort_step_loop (S (tim_sort_measure (sort s))) finish end_time
         (sort_array_get_size (items s)) 0 false ;;
  let '(result, start_change, end_change) := r in
  if (start_change <? end_change)%nat then
    ret (result, guint (Z.of_nat start_change),
         guint (Z.of_nat end_change - Z.of_nat start_change))
  else ret (result, 0, 0).

(** The idle callback; [true] is G_SOURCE_CONTINUE, [false] is
    G_SOURCE_REMOVE. *)
Definition gtk_tim2_sort_model_sort_cb : M bool :=
  r <- gtk_tim2_sort_model_sort_step false ;;
  let '(result, pos, n_items) := r in
  if result then
    (if n_items =? 0 then ret tt else g_list_model_items_changed pos n_items n_items) ;;;
    ret true
  else
    gtk_tim2_sort_model_stop_sorting ;;;
    ret false.

Definition sort_func (data : option GtkSorter) (a b : SortItem) : GtkOrdering :=
  gtk_sorter_compare data (si_item a) (si_item b).

Definition gtk_tim2_sort_model_start_sorting (runs : option (list nat)) : M bool :=
  s <- get_self ;;
  g_assert (sort_cb s =? 0)%nat ;;;
  let ts := gtk_tim_sort_init (sort_array_get_size (items s)) (sort_func (sorter s)) in
  let ts := match runs with Some r => gtk_tim_sort_set_runs ts r | None => ts end in
  let ts := if incremental s then gtk_tim_sort_set_max_merge_size ts 1024 else ts in
  modify_self (set_sort ts) ;;;
  if negb (incremental s) then ret false
  else
    id <- g_idle_add ;;
    modify_self (set_sort_cb id) ;;;
    ret true.

(** Returns [( *pos, *n_items )]. *)
Definition gtk_tim2_sort_model_finish_sorting : M (Z * Z) :=
  modify_self (fun s => set_sort (gtk_tim_sort_set_max_merge_size (sort s) 0) s) ;;;
  r <- gtk_tim2_sort_model_sort_step true ;;
  modify_self (fun s => set_sort (gtk_tim_sort_finish (sort s)) s) ;;;
  gtk_tim2_sort_model_stop_sorting ;;;
  let '(_, pos, n_items) := r in
  ret (pos, n_items).

(** ** Buffer management *)

(** [for (start = 0; start < size; start++) if (a[start].position != start) break;] *)
Fixpoint clear_items_start (a : SortArray) (start : nat) : nat :=
  match a with
  | [] => start
  | si :: a' =>
      if si_position si =? Z.of_nat start then clear_items_start a' (S start) else start
  end.

(** [for (end = size; end > start; end--) if (a[end - 1].position != end - 1) break;] *)
Fixpoint clear_items_end (a : SortArray) (start end_ : nat) : nat :=
  match end_ with
  | O => O
  | S e =>
      if (start <? end_)%nat then
        match a !! e with
        | Some si => if si_position si =? Z.of_nat e then clear_items_end a start e else end_
        | None => end_
        end
      else end_
  end.

(** [report] tells whether the caller passed pointers for the range; the
    returned [( *pos, *n_items )] is meaningful only then. *)
Definition gtk_tim2_sort_model_clear_items (report : bool) : M (Z * Z) :=
  gtk_tim2_sort_model_stop_sorting ;;;
  s <- get_self ;;
  let range :=
    if report then
      let start := clear_items_start (items s) 0 in
      let end_ := clear_items_end (items s) start (sort_array_get_size (items s)) in
      let n_items := guint (Z.of_nat end_ - Z.of_nat start) in
      (if n_items =? 0 then 0 else Z.of_nat start, n_items)
    else (0, 0) in
  let '(arr, freed) := sort_array_clear (items s) in
  modify_self (set_items arr) ;;;
  g_object_unref_all freed ;;;
  ret range.

Definition gtk_tim2_sort_model_should_sort (s : GtkTim2SortModel) : bool :=
  match sorter s, model s with
  | Some so, Some _ => negb (bool_decide (gtk_sorter_get_order so = GTK_SORTER_ORDER_NONE))
  | _, _ => false
  end.

Definition create_items_loop (m : GListModel) (n_items : nat) (a : SortArray) : SortArray :=
  fold_left
    (fun a i => sort_array_append a {| si_item := g_list_model_get_item m (Z.of_nat i);
                                       si_position := Z.of_nat i |})
    (seq 0 n_items) a.

Definition gtk_tim2_sort_model_create_items : M unit :=
  s <- get_self ;;
  if negb (gtk_tim2_sort_model_should_sort s) then ret tt
  else
    match model s with
    | None => ret tt
    | Some m =>
        let n_items := Z.to_nat (g_list_model_get_n_items m) in
        modify_self (set_items (create_items_loop m n_items (items s)))
    end.

(** [for (i = position; i < position + added; i++)] appending the added
    source elements. *)
Definition append_added (m : GListModel) (position added : Z) (a : SortArray) : SortArray :=
  fold_left
    (fun a i => sort_array_append a {| si_item := g_list_model_get_item m i;
                                       si_position := i |})
    (seqZ position (guint (position + added) - position)) a.

Definition gsize (x : Z) : Z := x mod 2 ^ 64.

(** ** Signal handlers *)

Definition gtk_tim2_sort_model_items_changed_cb (position removed added : Z) : M unit :=
  if (removed =? 0) && (added =? 0) then ret tt
  else
    s <- get_self ;;
    if negb (gtk_tim2_sort_model_should_sort s) then
      g_list_model_items_changed position removed added
    else
      let was_sorting := gtk_tim2_sort_model_is_sorting s in
      runs <- gtk_tim2_sort_model_stop_sorting ;;
      s <- get_self ;;
      match gtk_tim2_sort_model_update_items (items s) runs position removed added with
      | None => fun _ => None
      | Some r =>
          modify_self (set_items (ur_items r)) ;;;
          g_object_unref_all (ur_unrefs r) ;;;
          range <-
            (if 0 <? added then
               s <- get_self ;;
               match model s with
               | Some m => modify_self (set_items (append_added m position added (items s)))
               | None => ret tt
               end ;;;
               success <- gtk_tim2_sort_model_start_sorting (Some (ur_runs r)) ;;
               if success then ret (ur_start r, 0)
               else
                 pn <- gtk_tim2_sort_model_finish_sorting ;;
                 s <- get_self ;;
                 ret (Z.min (ur_start r) (fst pn),
                      guint (Z.min 0 (gsize (Z.of_nat (sort_array_get_size (items s))
                                             - fst pn - snd pn))))
             else
               (if was_sorting then
                  gtk_tim2_sort_model_start_sorting (Some (ur_runs r)) ;;; ret tt
                else ret tt) ;;;
               ret (ur_start r, ur_end r)) ;;
          s <- get_self ;;
          let n_items := guint (Z.of_nat (sort_array_get_size (items s))
                                - fst range - snd range) in
          g_list_model_items_changed (fst range)
            (guint (guint (n_items - added) + removed)) n_items
      end.

(** [sorter] is the emitting sorter, which is the attached one. *)
Definition gtk_tim2_sort_model_sorter_changed_cb (sorter : GtkSorter) : M unit :=
  pn <-
    (if bool_decide (gtk_sorter_get_order sorter = GTK_SORTER_ORDER_NONE) then
       gtk_tim2_sort_model_clear_items true
     else
       s <- get_self ;;
       (if sort_array_is_empty (items s) then gtk_tim2_sort_model_create_items else ret tt) ;;;
       gtk_tim2_sort_model_stop_sorting ;;;
       started <- gtk_tim2_sort_model_start_sorting None ;;
       if started then ret (0, 0) else gtk_tim2_sort_model_finish_sorting) ;;
  if 0 <? snd pn then g_list_model_items_changed (fst pn) (snd pn) (snd pn)
  else ret tt.

Definition gtk_tim2_sort_model_clear_model : M unit :=
  s <- get_self ;;
  match model s with
  | None => ret tt
  | Some _ =>
      modify_self (set_model_field None) ;;;
      gtk_tim2_sort_model_clear_items false ;;;
      ret tt
  end.

Definition gtk_tim2_sort_model_clear_sorter : M unit :=
  s <- get_self ;;
  match sorter s with
  | None => ret tt
  | Some _ => modify_self (set_sorter_field None)
  end.

(** ** Public setters *)

(** Pointer equality of list models. *)
Definition same_model (a b : option GListModel) : bool :=
  match a, b with
  | None, None => true
  | Some x, Some y => (model_id x =? model_id y)%nat
  | _, _ => false
  end.

(** Property notifications ([g_object_notify_by_pspec]) are not tracked. *)
Definition gtk_tim2_sort_model_set_model (m : option GListModel) : M unit :=
  s <- get_self ;;
  if same_model (model s) m then ret tt
  else
    let removed := gtk_tim2_sort_model_get_n_items s in
    gtk_tim2_sort_model_clear_model ;;;
    added <-
      match m with
      | Some new_model =>
          modify_self (set_model_field (Some new_model)) ;;;
          gtk_tim2_sort_model_create_items ;;;
          started <- gtk_tim2_sort_model_start_sorting None ;;
          (if started then ret tt else gtk_tim2_sort_model_finish_sorting ;;; ret tt) ;;;
          ret (g_list_model_get_n_items new_model)
      | None => ret 0
      end ;;
    if (0 <? removed) || (0 <? added) then g_list_model_items_changed 0 removed added
    else ret tt.

Definition gtk_tim2_sort_model_set_sorter (so : option GtkSorter) : M unit :=
  gtk_tim2_sort_model_clear_sorter ;;;
  match so with
  | Some new_sorter =>
      modify_self (set_sorter_field (Some new_sorter)) ;;;
      gtk_tim2_sort_model_sorter_changed_cb new_sorter
  | None =>
      s <- get_self ;;
      let n_items := gtk_tim2_sort_model_get_n_items s in
      if 1 <? n_items then g_list_model_items_changed 0 n_items n_items else ret tt
  end.

Definition gtk_tim2_sort_model_set_incremental (b : bool) : M unit :=
  s <- get_self ;;
  if Bool.eqb (incremental s) b then ret tt
  else
    modify_self (set_incremental_field b) ;;;
    s <- get_self ;;
    if negb b && gtk_tim2_sort_model_is_sorting s then
      pn <- gtk_tim2_sort_model_finish_sorting ;;
      if snd pn =? 0 then ret tt
      else g_list_model_items_changed (fst pn) (snd pn) (snd pn)
    else ret tt.

(** [get] over the full range of the public sequence. *)
Definition get_all (s : GtkTim2SortModel) : list gpointer :=
  map (fun i => gtk_tim2_sort_model_get_item s (Z.of_nat i))
      (seq 0 (Z.to_nat (gtk_tim2_sort_model_get_n_items s))).

(** ** Events from the environment *)

(** The source sequence replaces [removed] elements at [position] by
    [added]. *)
Definition splice (l : list GObject) (position removed : Z) (added : list GObject)
    : list GObject :=
  take (Z.to_nat position) l ++ added ++ drop (Z.to_nat (position + removed)) l.

(** The attached source model changes and then emits "items-changed". *)
Definition source_items_changed (position removed : Z) (added : list GObject) : M unit :=
  s <- get_self ;;
  match model s with
  | None => ret tt
  | Some m =>
      modify_self (set_model_field
        (Some {| model_id := model_id m;
                 model_items := splice (model_items m) position removed added |})) ;;;
      gtk_tim2_sort_model_items_changed_cb position removed (Z.of_nat (length added))
  end.

(** The attached sorter changes its state and then emits "changed". *)
Definition sorter_changed (new_state : GtkSorter) : M unit :=
  s <- get_self ;;
  match sorter s with
  | None => ret tt
  | Some _ =>
      modify_self (set_sorter_field (Some new_state)) ;;;
      gtk_tim2_sort_model_sorter_changed_cb new_state
  end.

(** The main loop dispatches the idle source, if one is installed. *)
Definition idle_dispatch : M unit :=
  s <- get_self ;;
  if (sort_cb s =? 0)%nat then ret tt
  else gtk_tim2_sort_model_sort_cb ;;; ret tt.

Inductive op : Type :=
  | SetModel (m : option GListModel)
  | SetSorter (so : option GtkSorter)
  | SetIncremental (b : bool)
  | SourceItemsChanged (position removed : Z) (added : list GObject)
  | SorterChanged (new_state : GtkSorter)
  | IdleDispatch.

Definition exec (o : op) : M unit :=
  match o with
  | SetModel m => gtk_tim2_sort_model_set_model m
  | SetSorter so => gtk_tim2_sort_model_set_sorter so
  | SetIncremental b => gtk_tim2_sort_model_set_incremental b
  | SourceItemsChanged position removed added => source_items_changed position removed added
  | SorterChanged new_state => sorter_changed new_state
  | IdleDispatch => idle_dispatch
  end.

Fixpoint exec_all (ops : list op) : M unit :=
  match ops with
  | [] => ret tt
  | o :: ops' => exec o ;;; exec_all ops'
  end.

(** ** Comparator contract and sortedness *)

Definition sorter_le (so : GtkSorter) : relation gpointer :=
  fun a b => sorter_compare so a b <> GTK_ORDERING_LARGER.

(** A well-behaved sorter: "not greater" is total and transitive. *)
Definition sorter_ok (so : GtkSorter) : Prop :=
  (forall a b, sorter_le so a b \/ sorter_le so b a) /\
  (forall a b c, sorter_le so a b -> sorter_le so b c -> sorter_le so a c).

(** Property P1 as the specification words it: no adjacent pair of the
    buffer compares greater. *)
Definition buffer_sorted (so : GtkSorter) (buf : SortArray) : Prop :=
  forall (i : nat) a b, buf !! i = Some a -> buf !! S i = Some b ->
    sorter_compare so (si_item a) (si_item b) <> GTK_ORDERING_LARGER.

(** The ascending numeric comparator on element handles (NULL first). *)
Definition numeric_compare (a b : gpointer) : GtkOrdering :=
  match a, b with
  | Some x, Some y =>
      match x ?= y with
      | Lt => GTK_ORDERING_SMALLER
      | Eq => GTK_ORDERING_EQUAL
      | Gt => GTK_ORDERING_LARGER
      end
  | None, None => GTK_ORDERING_EQUAL
  | None, Some _ => GTK_ORDERING_SMALLER
  | Some _, None => GTK_ORDERING_LARGER
  end.

Definition ascending_numeric : GtkSorter :=
  {| sorter_compare := numeric_compare; sorter_order := GTK_SORTER_ORDER_TOTAL |}.

Definition no_order : GtkSorter :=
  {| sorter_compare := fun _ _ => GTK_ORDERING_EQUAL; sorter_order := GTK_SORTER_ORDER_NONE |}.

(** What the environment may do: attach list models of [guint] length and
    well-behaved sorters, and edit the attached source within its bounds. *)
Definition op_ok (w : World) (o : op) : Prop :=
  match o with
  | SetModel (Some m) => Z.of_nat (length (model_items m)) < guint_modulus
  | SetSorter (Some so) => sorter_ok so
  | SorterChanged so => sorter_ok so
  | SourceItemsChanged position removed added =>
      match model (self w) with
      | Some m =>
          0 <= position /\ 0 <= removed /\
          position + removed <= Z.of_nat (length (model_items m)) /\
          Z.of_nat (length (model_items m)) - removed + Z.of_nat (length added) < guint_modulus
      | None => True
      end
  | _ => True
  end.

Inductive reachable (clock : nat -> Z) : World -> Prop :=
  | reachable_init : reachable clock (initial_world clock)
  | reachable_step w o w' :
      reachable clock w -> op_ok w o -> exec o w = Some (tt, w') -> reachable clock w'.

(** ** Invariant of a sort run in progress *)

(** The pending runs, most recent first, are sorted segments of the
    buffer. *)
Fixpoint runs_sorted (R : relation SortItem) (pending : list nat) (buf : SortArray) : Prop :=
  match pending with
  | [] => True
  | len :: rest => Sorted R (take len (drop (sum_list rest) buf)) /\ runs_sorted R rest buf
  end.

Definition engine_inv (ts : GtkTimSort) (buf : SortArray) : Prop :=
  ts_size ts = length buf /\
  (sum_list (ts_pending ts) <= ts_size ts)%nat /\
  runs_sorted (compare_le (ts_compare ts)) (ts_pending ts) buf.

Definition compare_total (cmp : SortItem -> SortItem -> GtkOrdering) : Prop :=
  forall a b, compare_le cmp a b \/ compare_le cmp b a.

(** ** Vocabulary for the statements about the scheduler *)

(** The fields of the model other than the engine and the buffer. *)
Definition same_config (s s' : GtkTim2SortModel) : Prop :=
  model s' = model s /\ sorter s' = sorter s /\
  incremental s' = incremental s /\ sort_cb s' = sort_cb s.

(** What a computation leaves alone in the environment: the signals
    emitted, the references released, the idle sources and the clock. *)
Definition same_signals (w w' : World) : Prop :=
  emitted w' = emitted w /\ unreffed w' = unreffed w /\
  idle_sources w' = idle_sources w /\ monotonic_time w' = monotonic_time w.

(** The fields of the model that starting and stopping a run leave alone. *)
Definition same_data (s s' : GtkTim2SortModel) : Prop :=
  model s' = model s /\ sorter s' = sorter s /\
  incremental s' = incremental s /\ items s' = items s.

(** A change that moved something. *)
Definition moved (c : GtkTimSortRun) : Prop := run_len c <> 0%nat.

(** [[lo, hi)] contains every change of [changes] that moved something. *)
Definition covers (lo hi : nat) (changes : list GtkTimSortRun) : Prop :=
  forall c, c ∈ changes -> moved c ->
    (lo <= run_base c)%nat /\ (run_base c + run_len c <= hi)%nat.

(** [(pos, n)] is the smallest range containing every change that moved
    something, and the empty range [(0, 0)] when no change did. *)
Definition smallest_range (pos n : Z) (changes : list GtkTimSortRun) : Prop :=
  (Exists moved changes ->
     exists lo hi : nat, pos = Z.of_nat lo /\ n = Z.of_nat hi - Z.of_nat lo /\ (lo < hi)%nat /\
       covers lo hi changes /\
       forall lo' hi', covers lo' hi' changes -> (lo' <= lo)%nat /\ (hi <= hi')%nat) /\
  (~ Exists moved changes -> pos = 0 /\ n = 0).

(** A position outside every reported change. *)
Definition untouched (changes : list GtkTimSortRun) (i : nat) : Prop :=
  forall c, c ∈ changes -> (i < run_base c \/ run_base c + run_len c <= i)%nat.

(** ** The invariant of the model *)

(** What holds of the model between any two operations: without a source
    the buffer is empty; in synchronous mode no sort callback is installed;
    the attached sorter is well behaved; at rest the buffer is sorted by the
    attached sorter; and while a callback is installed the engine is in a
    consistent state over the buffer, comparing with the attached sorter. *)
Record model_inv (s : GtkTim2SortModel) : Prop := {
  inv_no_model : model s = None -> items s = [];
  inv_sync : incremental s = false -> sort_cb s = 0%nat;
  inv_sorter : forall so, sorter s = Some so -> sorter_ok so;
  inv_sorted : sort_cb s = 0%nat -> forall so, sorter s = Some so ->
               Sorted (compare_le (sort_func (Some so))) (items s);
  inv_run : sort_cb s <> 0%nat ->
            engine_inv (sort s) (items s) /\
            compare_total (ts_compare (sort s)) /\
            forall so, sorter s = Some so -> ts_compare (sort s) = sort_func (Some so)
}.

(** ** Running sequences of operations *)

(** The world after an operation; an aborted operation leaves none, so
    [next] is used only where [exec] succeeds. *)
Definition next (o : op) (w : World) : World :=
  match exec o w with
  | Some (_, w') => w'
  | None => w
  end.

Definition run_ops (ops : list op) (w : World) : World :=
  fold_left (fun w o => next o w) ops w.

(** Every operation of the sequence is allowed and completes. *)
Fixpoint ops_ok (w : World) (ops : list op) : Prop :=
  match ops with
  | [] => True
  | o :: ops' => op_ok w o /\ is_Some (exec o w) /\ ops_ok (next o w) ops'
  end.

(** ** Example inputs *)

Definition example_clock : nat -> Z := fun n => Z.of_nat n * 600.

Definition source_53142 : GListModel :=
  {| model_id := 1; model_items := [5; 3; 1; 4; 2] |}.

Definition source_132 : GListModel :=
  {| model_id := 1; model_items := [1; 3; 2] |}.

Definition source_531 : GListModel :=
  {| model_id := 1; model_items := [5; 3; 1] |}.

(** Scenario 1 of the specification, in synchronous mode. *)
Definition world_sorted_53142 : World :=
  run_ops [SetModel (Some source_53142); SetSorter (Some ascending_numeric)]
    (initial_world example_clock).

(** The same source in incremental mode, after one idle dispatch: the run
    is still in flight. *)
Definition world_in_flight : World :=
  run_ops [SetIncremental true; SetModel (Some source_53142);
           SetSorter (Some ascending_numeric); IdleDispatch]
    (initial_world example_clock).

(** One dispatch later: the next dispatch of the callback merges. *)
Definition world_merging : World :=
  run_ops [SetIncremental true; SetModel (Some source_53142);
           SetSorter (Some ascending_numeric); IdleDispatch; IdleDispatch]
    (initial_world example_clock).

(** The sorted view of the source [[1; 3; 2]]. *)
Definition world_sorted_132 : World :=
  run_ops [SetModel (Some source_132); SetSorter (Some ascending_numeric)]
    (initial_world example_clock).

(** Detach the sorter, let the source lose its first element, attach the
    sorter again. *)
Definition stale_buffer_ops : list op :=
  [SetModel (Some source_531); SetSorter (Some ascending_numeric);
   SetSorter None; SourceItemsChanged 0 1 []; SetSorter (Some ascending_numeric)].

Definition world_stale_buffer : World :=
  run_ops stale_buffer_ops (initial_world example_clock).

(** ** The statement of the specification about a sorter that stops ordering *)

(** As the specification words it: when the sorter reports the order NONE
    through its change signal, the buffer is cleared and one notification
    spanning all [n] elements is emitted, except for [n <= 1]. *)
Definition clears_with_full_range (so : GtkSorter) (w : World) : Prop :=
  let n := Z.of_nat (length (items (self w))) in
  exists w',
    sorter_changed so w = Some (tt, w') /\
    items (self w') = [] /\
    emitted w' = emitted w ++
      (if 1 <? n then [{| ic_position := 0; ic_removed := n; ic_added := n |}] else []).

#[global] Instance SortItem_eq_dec : EqDecision SortItem.
Proof. solve_decision. Defined.

(** The sorted buffer of scenario 1: the items of [[5; 3; 1; 4; 2]] in
    ascending order, each with its position in the source. *)
Definition buffer_53142 : SortArray :=
  [ {| si_item := Some 1; si_position := 2 |};
    {| si_item := Some 2; si_position := 4 |};
    {| si_item := Some 3; si_position := 1 |};
    {| si_item := Some 4; si_position := 3 |};
    {| si_item := Some 5; si_position := 0 |} ].

(** ** The unmodified prefix and suffix reported by the translator *)

(** [f] and [l] are the indices of the first and of the last item that the
    translator drops among the first [i] items of [a]. *)
Definition dropped_span (position removed : Z) (a : SortArray) (i f l : nat) : Prop :=
  (f <= l < i)%nat /\
  (exists si, a !! f = Some si /\ update_drops position removed si = true) /\
  (exists si, a !! l = Some si /\ update_drops position removed si = true) /\
  forall j si, a !! j = Some si -> (j < f \/ l < j < i)%nat ->
    update_drops position removed si = false.

(** What the compaction loop has in [start] and [end] after [i] iterations
    over the original array [items0]: the array size in both while nothing
    was dropped; afterwards the index of the first dropped item, and the
    number of items behind the last dropped one. *)
Record range_inv (position removed : Z) (items0 : SortArray)
    (i : nat) (acc : update_acc) : Prop := {
  ri_none : Forall (fun si => update_drops position removed si = false) (take i items0) ->
            ua_start acc = Z.of_nat (length items0) /\
            ua_end acc = Z.of_nat (length items0);
  ri_some : Exists (fun si => update_drops position removed si = true) (take i items0) ->
            exists f l : nat, dropped_span position removed items0 i f l /\
              ua_start acc = Z.of_nat f /\
              ua_end acc = Z.of_nat (length items0) - Z.of_nat l - 1
}.

(** ** The buffer against the source, the notifications against the length *)

(** The two legal states of the buffer: when sorting applies it holds one
    item per source element (I1); otherwise it is empty.  The source has a
    [guint] length. *)
Definition buffer_consistent (s : GtkTim2SortModel) : Prop :=
  match model s with
  | None => items s = []
  | Some m =>
      Z.of_nat (length (model_items m)) < guint_modulus /\
      if gtk_tim2_sort_model_should_sort s then I1 (items s) (model_items m)
      else items s = []
  end.

(** The same without regard to the sorter: the buffer is empty or holds one
    item per source element. *)
Definition buffer_empty_or_full (s : GtkTim2SortModel) : Prop :=
  match model s with
  | None => items s = []
  | Some m =>
      Z.of_nat (length (model_items m)) < guint_modulus /\
      (items s = [] \/ I1 (items s) (model_items m))
  end.

(** A listener that holds a sequence of [n] elements applies a
    notification: the notification must lie within the sequence, and
    leaves [n - removed + added] elements. *)
Definition apply_signal (n : Z) (c : ItemsChanged) : option Z :=
  if (0 <=? ic_position c) && (0 <=? ic_removed c) && (0 <=? ic_added c)
     && (ic_position c + ic_removed c <=? n)
  then Some (n - ic_removed c + ic_added c)
  else None.

Fixpoint replay (l : list ItemsChanged) (n : Z) : option Z :=
  match l with
  | [] => Some n
  | c :: l' =>
      match apply_signal n c with
      | Some n' => replay l' n'
      | None => None
      end
  end.

(** The states reached without ever detaching the sorter through
    [gtk_tim2_sort_model_set_sorter] with NULL. *)
Inductive reachable_attached (clock : nat -> Z) : World -> Prop :=
  | reachable_attached_init : reachable_attached clock (initial_world clock)
  | reachable_attached_step w o w' :
      reachable_attached clock w -> op_ok w o -> o <> SetSorter None ->
      exec o w = Some (tt, w') -> reachable_attached clock w'.

(** Attaching a model while an idle callback is installed and no model is
    attached. *)
Definition attaches_over_pending_callback (w : World) (o : op) : Prop :=
  exists m, o = SetModel (Some m) /\ model (self w) = None /\ sort_cb (self w) <> 0%nat.

(** ** Construction and disposal *)

(** [gtk_tim2_sort_model_dispose]: the model and the sorter are let go;
    chaining up to the parent class is not tracked. *)
Definition gtk_tim2_sort_model_dispose : M unit :=
  gtk_tim2_sort_model_clear_model ;;; gtk_tim2_sort_model_clear_sorter.

(** [gtk_tim2_sort_model_new]: [g_object_new] creates the instance and
    hands the properties "model" and "sorter", in this order, to
    [gtk_tim2_sort_model_set_property], which calls the two setters. *)
Definition gtk_tim2_sort_model_new (m : option GListModel) (so : option GtkSorter) : M unit :=
  gtk_tim2_sort_model_set_model m ;;; gtk_tim2_sort_model_set_sorter so.

(** In incremental mode, a sorter attached before any model: the idle
    callback is installed over the empty buffer. *)
Definition world_pending_callback : World :=
  run_ops [SetIncremental true; SetSorter (Some ascending_numeric)]
    (initial_world example_clock).

(** ** A listener of the model *)

(** A listener keeps a copy of the public sequence.  On a notification it
    replaces the [removed] entries at [position] of its copy by the [added]
    entries it reads from the model at [position]. *)
Definition apply_change (view : list gpointer) (cache : list gpointer) (c : ItemsChanged)
    : list gpointer :=
  take (Z.to_nat (ic_position c)) cache
  ++ take (Z.to_nat (ic_added c)) (drop (Z.to_nat (ic_position c)) view)
  ++ drop (Z.to_nat (ic_position c + ic_removed c)) cache.

(** The notifications [l] bring a copy [old] of the public sequence up to
    the public sequence [new] that the model presents when it emits
    them. *)
Definition updates_listener (l : list ItemsChanged) (old new : list gpointer) : Prop :=
  fold_left (apply_change new) l old = new.

(* ===================================================================== *)
(** * The column view (gtkcolumnview.c) *)

(** [int] is a 32-bit two's complement integer.  C leaves signed overflow
    undefined; the compiled code wraps, and so do the sums and differences
    below. *)
Definition int_min : Z := - 2 ^ 31.
Definition int_max : Z := 2 ^ 31 - 1.
Definition int_modulus : Z := 2 ^ 32.

Definition int_wrap (z : Z) : Z := (z - int_min) mod int_modulus + int_min.

Definition in_int (z : Z) : Prop := int_min <= z <= int_max.

(** A column as the view uses it: the object, and the minimum and natural
    width that [gtk_column_view_column_measure] reports for it (the column
    itself, [gtkcolumnviewcolumn.c], is not among the sources). *)
Record GtkColumnViewColumn : Type := {
  column_id : nat;
  column_min : Z;
  column_nat : Z
}.

Inductive GtkScrollablePolicy : Type :=
  | GTK_SCROLL_MINIMUM
  | GTK_SCROLL_NATURAL.

(** [gtk_column_view_measure_across]: returns [( *minimum, *natural )]. *)
Definition gtk_column_view_measure_across (columns : list GtkColumnViewColumn) : Z * Z :=
  fold_left
    (fun (acc : Z * Z) (i : nat) =>
       match columns !! i with
       | Some column => (int_wrap (fst acc + column_min column),
                         int_wrap (snd acc + column_nat column))
       | None => acc
       end)
    (seq 0 (length columns)) (0, 0).

(** A call [gtk_column_view_column_allocate (column, x, col_size)]. *)
Record ColumnAllocation : Type := {
  alloc_column : nat;
  alloc_x : Z;
  alloc_size : Z
}.

(** The width a column is given under a scroll policy. *)
Definition column_size (policy : GtkScrollablePolicy) (column : GtkColumnViewColumn) : Z :=
  match policy with
  | GTK_SCROLL_MINIMUM => column_min column
  | GTK_SCROLL_NATURAL => column_nat column
  end.

(** [gtk_column_view_allocate_columns].  [scroll_policy] is the horizontal
    scroll policy of the list view and [(widget_min, widget_nat)] what
    [gtk_widget_measure] reports for the view itself; the result is the
    returned width and the allocations made, in order. *)
Definition gtk_column_view_allocate_columns (columns : list GtkColumnViewColumn)
    (scroll_policy : GtkScrollablePolicy) (widget_min widget_nat : Z) (width : Z)
    : Z * list ColumnAllocation :=
  let '(col_min, col_nat) := gtk_column_view_measure_across columns in
  let '(extra, col_size) :=
    match scroll_policy with
    | GTK_SCROLL_MINIMUM => (int_wrap (widget_min - col_min), col_min)
    | GTK_SCROLL_NATURAL => (int_wrap (widget_nat - col_nat), col_nat)
    end in
  let width := int_wrap (width - extra) in
  let width := Z.max width col_size in
  let '(_, allocations) :=
    fold_left
      (fun (acc : Z * list ColumnAllocation) (i : nat) =>
         match columns !! i with
         | Some column =>
             let col_size := column_size scroll_policy column in
             (int_wrap (fst acc + col_size),
              snd acc ++ [{| alloc_column := column_id column;
                             alloc_x := fst acc;
                             alloc_size := col_size |}])
         | None => acc
         end)
      (seq 0 (length columns)) (0, []) in
  (int_wrap (width + extra), allocations).

(** The loop of [gtk_column_view_remove_column]: the index of the first
    item that is [column], or the number of items when there is none. *)
Fixpoint remove_column_index (columns : list GtkColumnViewColumn) (column : nat) (i : nat)
    : nat :=
  match columns with
  | [] => i
  | item :: rest =>
      if (column_id item =? column)%nat then i
      else remove_column_index rest column (S i)
  end.

(** [gtk_column_view_remove_column] on the list of columns.
    [column_view_is_self] is the outcome of the guard
    [gtk_column_view_column_get_column_view (column) == self];
    [g_list_store_remove] refuses a position that is not in the store.
    The calls into the column and the sorter of the view are not
    tracked. *)
Definition gtk_column_view_remove_column (columns : list GtkColumnViewColumn)
    (column : nat) (column_view_is_self : bool) : list GtkColumnViewColumn :=
  if column_view_is_self then delete (remove_column_index columns column 0) columns
  else columns.

(** The sum of a width over columns. *)
Definition total_width (f : GtkColumnViewColumn -> Z) (columns : list GtkColumnViewColumn) : Z :=
  foldr (fun column s => f column + s) 0 columns.

(** The sum of a width over the first [i] columns is an [int], for every
    [i]: no partial sum of the loop overflows. *)
Definition sums_in_int (f : GtkColumnViewColumn -> Z) (columns : list GtkColumnViewColumn)
    : Prop :=
  Forall (fun i => in_int (total_width f (take i columns))) (seq 0 (S (length columns))).

(** The width measured for the view itself under a scroll policy. *)
Definition widget_size (policy : GtkScrollablePolicy) (widget_min widget_nat : Z) : Z :=
  match policy with
  | GTK_SCROLL_MINIMUM => widget_min
  | GTK_SCROLL_NATURAL => widget_nat
  end.

Definition example_columns : list GtkColumnViewColumn :=
  [ {| column_id := 1; column_min := 10; column_nat := 40 |};
    {| column_id := 2; column_min := 25; column_nat := 30 |};
    {| column_id := 3; column_min := 5; column_nat := 50 |} ].

(* ===================================================================== *)
(** * Proofs *)

Lemma guint_small x : is_guint x -> guint x = x.
Proof. intros H. apply Z.mod_small. exact H. Qed.

Lemma guint_range x : is_guint (guint x).
Proof. apply Z.mod_pos_bound. reflexivity. Qed.

(** ** The compaction loop computes [omap update_item] *)

Section update_loop.
Variables position removed added : Z.
Variable n_items : nat.
Variable items0 : SortArray.

Let keep := update_item position removed added.
Let drops := update_drops position removed.

Lemma update_item_drops si : keep si = None <-> drops si = true.
Proof.
  unfold keep, drops, update_item, update_drops.
  destruct (guint (position + removed) <=? si_position si),
    (position <=? si_position si); simpl; split; congruence.
Qed.

Lemma free_elements_app a b : free_elements (a ++ b) = free_elements a ++ free_elements b.
Proof. unfold free_elements. apply flat_map_app. Qed.

Lemma filter_snoc (f : SortItem -> bool) l x :
  List.filter f (l ++ [x]) = List.filter f l ++ (if f x then [x] else []).
Proof. rewrite List.filter_app. simpl. destruct (f x); reflexivity. Qed.

Lemma omap_snoc (f : SortItem -> option SortItem) l x :
  omap f (l ++ [x]) = omap f l ++ (match f x with Some y => [y] | None => [] end).
Proof. rewrite omap_app. simpl. destruct (f x); reflexivity. Qed.

Lemma drop_succ_eq (a b : SortArray) i : drop i a = drop i b -> drop (S i) a = drop (S i) b.
Proof.
  intros H. replace (S i) with (i + 1)%nat by lia.
  rewrite <- !drop_drop. rewrite H. reflexivity.
Qed.

(** Writing slot [valid] (when it lies strictly below [i]) or finding the
    item already there (when [valid = i]) extends the compacted prefix. *)
Lemma compact_write (arr : SortArray) (valid i : nat) (x : SortItem) :
  (valid <= i)%nat -> (i < length arr)%nat -> arr !! i = Some x ->
  let arr' := if (valid <? i)%nat then <[valid := x]> arr else arr in
  length arr' = length arr /\
  take (S valid) arr' = take valid arr ++ [x] /\
  drop (S i) arr' = drop (S i) arr.
Proof.
  intros Hle Hlt Hx. simpl.
  destruct (Nat.ltb_spec valid i) as [Hv | Hv].
  - split; [apply length_insert |]. split.
    + rewrite (take_S_r _ _ x).
      * rewrite take_insert_ge by lia. reflexivity.
      * apply list_lookup_insert_eq. lia.
    + apply drop_insert_lt. lia.
  - assert (valid = i) by lia. subst valid.
    split; [reflexivity |]. split; [| reflexivity].
    apply take_S_r. exact Hx.
Qed.

Lemma update_items_iter_inv i acc :
  (i < length items0)%nat ->
  update_inv position removed added items0 i acc ->
  update_inv position removed added items0 (S i)
    (update_items_iter position removed added n_items acc i).
Proof.
  intros Hi [Hlen Hle Hval Hpre Hsuf Hunr].
  assert (Hsi : exists si, items0 !! i = Some si).
  { apply lookup_lt_is_Some_2. exact Hi. }
  destruct Hsi as [si Hsi].
  assert (Harr : ua_items acc !! i = Some si).
  { rewrite <- (Nat.add_0_r i) at 1. rewrite <- lookup_drop, Hsuf, lookup_drop.
    rewrite Nat.add_0_r. exact Hsi. }
  assert (Htake : take (S i) items0 = take i items0 ++ [si]) by (apply take_S_r; exact Hsi).
  unfold update_items_iter. rewrite Harr. cbv zeta.
  assert (Hkeep : update_item position removed added si
                  = update_item position removed added si) by reflexivity.
  assert (Hdrops : update_drops position removed si
                   = update_drops position removed si) by reflexivity.
  unfold update_item at 2 in Hkeep. unfold update_drops at 2 in Hdrops.
  destruct (guint (position + removed) <=? si_position si) eqn:E1.
  - (* shifted and kept *)
    set (si' := {| si_item := si_item si;
                   si_position := guint (guint (si_position si - removed) + added) |}) in *.
    set (arr := <[i := si']> (ua_items acc)).
    assert (Hlen' : length arr = length items0) by (unfold arr; rewrite length_insert; exact Hlen).
    assert (Harr' : arr !! i = Some si').
    { unfold arr. apply list_lookup_insert_eq. lia. }
    destruct (compact_write arr (ua_valid acc) i si') as (L & T & D); [lia | lia | exact Harr' |].
    simpl in Hdrops.
    constructor; simpl.
    + rewrite L. exact Hlen'.
    + lia.
    + rewrite Htake, omap_snoc, Hkeep, length_app. simpl. lia.
    + rewrite T, Htake, omap_snoc, Hkeep. unfold arr.
      rewrite take_insert_ge by lia. rewrite Hpre. reflexivity.
    + rewrite D. unfold arr. rewrite drop_insert_lt by lia.
      apply drop_succ_eq. exact Hsuf.
    + rewrite Htake, filter_snoc, Hdrops, app_nil_r. exact Hunr.
  - destruct (position <=? si_position si) eqn:E2.
    + (* dropped *)
      simpl in Hdrops. simpl.
      constructor; simpl.
      * rewrite length_insert. exact Hlen.
      * lia.
      * rewrite Htake, omap_snoc, Hkeep, app_nil_r. exact Hval.
      * rewrite take_insert_ge by lia. rewrite Htake, omap_snoc, Hkeep, app_nil_r. exact Hpre.
      * rewrite drop_insert_lt by lia.
        apply drop_succ_eq. exact Hsuf.
      * rewrite Htake, filter_snoc, Hdrops, free_elements_app, Hunr.
        unfold free_elements at 3. simpl. rewrite app_nil_r. reflexivity.
    + (* kept as it is *)
      destruct (compact_write (ua_items acc) (ua_valid acc) i si) as (L & T & D);
        [lia | lia | exact Harr |].
      simpl in Hdrops.
      constructor; simpl.
      * rewrite L. exact Hlen.
      * lia.
      * rewrite Htake, omap_snoc, Hkeep, length_app. simpl. lia.
      * rewrite T, Htake, omap_snoc, Hkeep, Hpre. reflexivity.
      * rewrite D. apply drop_succ_eq. exact Hsuf.
      * rewrite Htake, filter_snoc, Hdrops, app_nil_r. exact Hunr.
Qed.

Lemma update_items_fold_inv k : forall i acc,
  (i + k <= length items0)%nat ->
  update_inv position removed added items0 i acc ->
  update_inv position removed added items0 (i + k)
    (fold_left (update_items_iter position removed added n_items) (seq i k) acc).
Proof.
  induction k as [| k IH]; intros i acc Hik Hinv; simpl.
  - rewrite Nat.add_0_r. exact Hinv.
  - replace (i + S k)%nat with (S i + k)%nat by lia.
    apply IH; [lia |]. apply update_items_iter_inv; [lia | exact Hinv].
Qed.

End update_loop.

Lemma update_items_loop_inv position removed added (items : SortArray) :
  update_inv position removed added items (length items)
    (update_items_loop position removed added (length items) items).
Proof.
  unfold update_items_loop.
  apply (update_items_fold_inv position removed added (length items) items (length items) 0%nat).
  - lia.
  - constructor; simpl; try reflexivity; lia.
Qed.

Lemma free_elements_handles (a : SortArray) : free_elements a = omap si_item a.
Proof.
  induction a as [| si a IH]; [reflexivity |].
  change (free_elements (si :: a)) with (snd (sort_item_clear si) ++ free_elements a).
  rewrite IH. simpl. destruct (si_item si); reflexivity.
Qed.

Lemma free_elements_zero n : free_elements (replicate n zero_item) = [].
Proof. induction n as [| n IH]; simpl; [reflexivity | exact IH]. Qed.

Lemma memset_items_length n : forall (a : SortArray) from,
  length (memset_items a from n) = length a.
Proof.
  induction n as [| n IH]; intros a from; simpl; [reflexivity |].
  rewrite IH. apply length_insert.
Qed.

Lemma memset_items_take n : forall (a : SortArray) from k,
  (k <= from)%nat -> take k (memset_items a from n) = take k a.
Proof.
  induction n as [| n IH]; intros a from k Hk; simpl; [reflexivity |].
  rewrite IH by lia. apply take_insert_ge. lia.
Qed.

Lemma memset_items_drop n : forall (a : SortArray) from,
  (from + n = length a)%nat -> drop from (memset_items a from n) = replicate n zero_item.
Proof.
  induction n as [| n IH]; intros a from Hlen; simpl.
  - apply drop_ge. lia.
  - assert (Hz : memset_items (<[from := zero_item]> a) (S from) n !! from = Some zero_item).
    { rewrite <- (lookup_take_lt _ (S from)) by lia.
      rewrite memset_items_take by lia.
      rewrite lookup_take_lt by lia. apply list_lookup_insert_eq. lia. }
    rewrite (drop_S _ zero_item from Hz). f_equal.
    apply IH. rewrite length_insert. lia.
Qed.

Lemma omap_filter_length (f : SortItem -> option SortItem) (d : SortItem -> bool) l :
  (forall x, f x = None <-> d x = true) ->
  (length (omap f l) + length (List.filter d l) = length l)%nat.
Proof.
  intros Hfd. induction l as [| x l IH]; csimpl; [reflexivity |].
  specialize (Hfd x). destruct (f x) eqn:Ef, (d x) eqn:Ed; csimpl.
  - destruct Hfd as [_ Hfd]. discriminate (Hfd eq_refl).
  - lia.
  - lia.
  - destruct Hfd as [Hfd _]. discriminate (Hfd eq_refl).
Qed.

(** The translator in machine arithmetic: the assertion passes exactly when
    the number of kept items is [n_items - removed], and then the buffer is
    the compaction of the kept items and every dropped item's handle is
    released exactly once. *)
Lemma update_items_machine (items : SortArray) runs position removed added :
  Z.of_nat (length items) < guint_modulus ->
  is_guint removed ->
  let kept := omap (update_item position removed added) items in
  let gone := List.filter (update_drops position removed) items in
  (Z.of_nat (length gone) = removed ->
     exists r, gtk_tim2_sort_model_update_items items runs position removed added = Some r
       /\ ur_items r = kept /\ ur_unrefs r = omap si_item gone
       /\ ur_runs r = <[0%nat := 0%nat]> runs
       /\ ur_subs r = ua_subs (update_items_loop position removed added (length items) items)
                        ++ [(Z.of_nat (length items), removed)]) /\
  (Z.of_nat (length gone) <> removed ->
     gtk_tim2_sort_model_update_items items runs position removed added = None).
Proof.
  intros Hlen Hrem kept gone.
  unfold gtk_tim2_sort_model_update_items, sort_array_get_size.
  rewrite (guint_small (Z.of_nat (length items))) by (split; lia).
  rewrite Nat2Z.id.
  destruct (update_items_loop_inv position removed added items)
    as [Hl _ Hval Hpre _ Hunr].
  rewrite firstn_all in Hval, Hpre, Hunr.
  set (acc := update_items_loop position removed added (length items) items) in *.
  fold kept in Hval, Hpre. fold gone in Hunr.
  assert (Hcount : (length kept + length gone = length items)%nat).
  { apply omap_filter_length. intros x.
    apply (update_item_drops position removed added). }
  unfold is_guint, guint, guint_modulus in *.
  split; intros Hg.
  - destruct (decide _) as [_ | Hne].
    + unfold sort_array_set_size. eexists. split; [reflexivity |]. simpl.
      assert (Hvr : (ua_valid acc + Z.to_nat removed = length (ua_items acc))%nat) by lia.
      split; [| split; [| split]].
      * rewrite memset_items_take by lia. exact Hpre.
      * rewrite memset_items_drop by exact Hvr.
        rewrite free_elements_zero, app_nil_r, Hunr. apply free_elements_handles.
      * reflexivity.
      * reflexivity.
    + exfalso. apply Hne. rewrite Z.mod_small by lia. lia.
  - destruct (decide _) as [He | _]; [| reflexivity].
    exfalso. apply Hg.
    destruct (Z_le_gt_dec removed (Z.of_nat (length items))) as [Hle | Hgt].
    + rewrite Z.mod_small in He by lia. lia.
    + assert (Hm : (Z.of_nat (length items) - removed) mod 2 ^ 32
                   = Z.of_nat (length items) - removed + 2 ^ 32).
      { symmetry. apply (Z.mod_unique _ _ (-1)); lia. }
      lia.
Qed.

(** In range, the machine decisions are the specified ones. *)
Lemma update_item_in_range position removed added items :
  edit_in_range position removed added items ->
  omap (update_item position removed added) items = translate_items position removed added items
  /\ List.filter (update_drops position removed) items = dropped_items position removed items.
Proof.
  intros (Hp & Hr & Ha & Hpr & _ & Hall).
  unfold translate_items, dropped_items.
  induction Hall as [| si l [Hsi Hshift] _ IH]; [split; reflexivity |].
  destruct IH as [IH1 IH2].
  assert (Hg : guint (position + removed) = position + removed).
  { apply guint_small. unfold is_guint in *. lia. }
  assert (E1 : update_item position removed added si = translate_item position removed added si).
  { unfold update_item, translate_item. rewrite Hg.
    destruct (Z.leb_spec (position + removed) (si_position si)) as [Hge | Hlt]; [| reflexivity].
    f_equal. f_equal.
    unfold is_guint in *. specialize (Hshift Hge).
    rewrite (guint_small (si_position si - removed)) by (unfold is_guint; lia).
    apply guint_small. unfold is_guint. lia. }
  assert (E2 : update_drops position removed si = in_window position removed si).
  { unfold update_drops, in_window. rewrite Hg.
    destruct (Z.leb_spec (position + removed) (si_position si)),
      (Z.leb_spec position (si_position si)),
      (Z.ltb_spec (si_position si) (position + removed)); simpl; try reflexivity; lia. }
  split.
  - csimpl. rewrite E1, IH1. reflexivity.
  - simpl. rewrite E2, IH2. reflexivity.
Qed.

(** C2. The mutation translator, for an edit [(position, removed, added)] in
    range: items at or after [position + removed] have their position
    replaced by [position - removed + added], items inside
    [[position, position + removed)] are dropped and their handle released,
    and the remaining items are compacted in their original relative order
    ([translate_items]).  The routine completes exactly when the window
    holds [removed] items; otherwise its assertion aborts. *)
Theorem update_items_translates (items : SortArray) runs position removed added :
  edit_in_range position removed added items ->
  (Z.of_nat (length (dropped_items position removed items)) = removed ->
     exists r, gtk_tim2_sort_model_update_items items runs position removed added = Some r
       /\ ur_items r = translate_items position removed added items
       /\ ur_unrefs r = omap si_item (dropped_items position removed items)) /\
  (Z.of_nat (length (dropped_items position removed items)) <> removed ->
     gtk_tim2_sort_model_update_items items runs position removed added = None).
Proof.
  intros Hrange.
  destruct (update_item_in_range _ _ _ _ Hrange) as [Hk Hd].
  destruct Hrange as (_ & Hr & _ & _ & Hlen & _).
  destruct (update_items_machine items runs position removed added Hlen Hr) as [Hsome Hnone].
  cbv zeta in Hsome, Hnone. rewrite Hk, Hd in Hsome. rewrite Hd in Hnone.
  split.
  - intros Hc. destruct (Hsome Hc) as (r & Hr1 & Hr2 & Hr3 & _). eauto.
  - exact Hnone.
Qed.

(** ** No subtraction of the translator underflows *)

Section update_subs.
Variables position removed added : Z.
Variable items0 : SortArray.
Hypothesis Hposition : is_guint position.
Hypothesis Hremoved : is_guint removed.
Hypothesis Hwindow : position + removed < guint_modulus.
Hypothesis Hsize : Z.of_nat (length items0) < guint_modulus.

Lemma update_items_iter_subs i acc :
  (i < length items0)%nat ->
  update_inv position removed added items0 i acc ->
  Forall sub_ok (ua_subs acc) ->
  Forall sub_ok
    (ua_subs (update_items_iter position removed added (length items0) acc i)).
Proof.
  intros Hi Hinv Hok.
  destruct Hinv as [_ _ _ _ Hsuf _].
  unfold update_items_iter.
  destruct (ua_items acc !! i) as [si |] eqn:Harr; [| exact Hok].
  cbv zeta. unfold is_guint, guint, guint_modulus in *.
  destruct (Z.leb_spec ((position + removed) mod 2 ^ 32) (si_position si)) as [Hge | Hlt].
  - simpl. apply Forall_app. split; [exact Hok |].
    constructor; [| constructor]. unfold sub_ok. simpl.
    rewrite Z.mod_small in Hge by lia. lia.
  - destruct (position <=? si_position si); [| exact Hok].
    simpl. apply Forall_app. split; [exact Hok |].
    constructor; [| constructor; [| constructor]]; unfold sub_ok; simpl.
    + lia.
    + rewrite Z.mod_small by lia. lia.
Qed.

Lemma update_items_fold_subs k : forall i acc,
  (i + k <= length items0)%nat ->
  update_inv position removed added items0 i acc ->
  Forall sub_ok (ua_subs acc) ->
  Forall sub_ok
    (ua_subs (fold_left (update_items_iter position removed added (length items0))
                (seq i k) acc)).
Proof.
  induction k as [| k IH]; intros i acc Hik Hinv Hok; simpl; [exact Hok |].
  apply IH; [lia | |].
  - apply update_items_iter_inv; [lia | exact Hinv].
  - apply update_items_iter_subs; [lia | exact Hinv | exact Hok].
Qed.

Lemma update_items_loop_subs :
  Forall sub_ok
    (ua_subs (update_items_loop position removed added (length items0) items0)).
Proof.
  unfold update_items_loop. apply update_items_fold_subs.
  - lia.
  - constructor; simpl; try reflexivity; lia.
  - constructor.
Qed.

End update_subs.

(** The number of source positions inside a window that lies within the
    source bounds is the length of the window. *)
Lemma seq_window_count position removed (f : nat -> SortItem) n : forall k,
  (forall i, si_position (f i) = Z.of_nat i) ->
  Z.of_nat (length (List.filter (in_window position removed) (map f (seq k n)))) =
  Z.max 0 (Z.min (Z.of_nat (k + n)) (position + removed) - Z.max (Z.of_nat k) position).
Proof.
  induction n as [| n IH]; intros k Hf; simpl.
  - lia.
  - specialize (IH (S k) Hf). unfold in_window at 1. rewrite Hf.
    destruct (Z.leb_spec position (Z.of_nat k)), (Z.ltb_spec (Z.of_nat k) (position + removed));
      simpl; lia.
Qed.

Lemma filter_bool_Permutation (f : SortItem -> bool) (l1 l2 : SortArray) :
  l1 ≡ₚ l2 -> List.filter f l1 ≡ₚ List.filter f l2.
Proof.
  induction 1 as [| x l1 l2 _ IH | x y l | l1 l2 l3 _ IH1 _ IH2]; simpl.
  - reflexivity.
  - destruct (f x); [apply perm_skip |]; exact IH.
  - destruct (f x), (f y); try reflexivity. apply perm_swap.
  - etransitivity; eassumption.
Qed.

Lemma I1_window_count (items : SortArray) src position removed :
  I1 items src -> 0 <= position -> 0 <= removed ->
  position + removed <= Z.of_nat (length src) ->
  Z.of_nat (length (dropped_items position removed items)) = removed.
Proof.
  intros HI Hp Hr Hw. unfold dropped_items, I1 in *.
  assert (Hperm : List.filter (in_window position removed) items ≡ₚ
                  List.filter (in_window position removed) (source_items src)).
  { apply filter_bool_Permutation. exact HI. }
  rewrite (Permutation_length Hperm). unfold source_items.
  rewrite seq_window_count by reflexivity. lia.
Qed.

Lemma update_drops_in_window position removed (items : SortArray) :
  is_guint (position + removed) ->
  List.filter (update_drops position removed) items = dropped_items position removed items.
Proof.
  intros Hg. unfold dropped_items. apply List.filter_ext. intros si.
  unfold update_drops, in_window. rewrite (guint_small _ Hg).
  destruct (Z.leb_spec (position + removed) (si_position si)),
    (Z.leb_spec position (si_position si)),
    (Z.ltb_spec (si_position si) (position + removed)); simpl; try reflexivity; lia.
Qed.

(** C9. When the buffer satisfies I1 for a source of [guint] length and the
    removal window lies within the source bounds, the translator drops
    exactly [removed] items, its assertion [valid == n_items - removed]
    holds (the routine returns), and every unsigned subtraction it evaluates
    has a minuend at least as large as its subtrahend. *)
Theorem update_items_assertion_holds (items : SortArray) src runs position removed added :
  I1 items src ->
  Z.of_nat (length src) < guint_modulus ->
  0 <= position -> 0 <= removed ->
  position + removed <= Z.of_nat (length src) ->
  exists r, gtk_tim2_sort_model_update_items items runs position removed added = Some r
    /\ Z.of_nat (length (dropped_items position removed items)) = removed
    /\ Z.of_nat (length (ur_items r)) = Z.of_nat (length src) - removed
    /\ Forall sub_ok (ur_subs r).
Proof.
  intros HI Hsrc Hp Hr Hw.
  assert (Hlen : length items = length src).
  { rewrite (Permutation_length HI). unfold source_items.
    rewrite length_map, length_seq. reflexivity. }
  assert (Hcount := I1_window_count items src position removed HI Hp Hr Hw).
  assert (Hrg : is_guint removed) by (unfold is_guint; lia).
  assert (Hpg : is_guint position) by (unfold is_guint; lia).
  assert (Hsg : is_guint (position + removed)) by (unfold is_guint; lia).
  assert (Hlen' : Z.of_nat (length items) < guint_modulus) by lia.
  destruct (update_items_machine items runs position removed added Hlen' Hrg) as [Hsome _].
  cbv zeta in Hsome. rewrite (update_drops_in_window _ _ _ Hsg) in Hsome.
  destruct (Hsome Hcount) as (r & Hr1 & Hr2 & _ & _ & Hr5).
  exists r. split; [exact Hr1 |]. split; [exact Hcount |]. split.
  - rewrite Hr2.
    pose proof (omap_filter_length (update_item position removed added)
                  (update_drops position removed) items
                  (update_item_drops position removed added)) as Hsum.
    rewrite (update_drops_in_window _ _ _ Hsg) in Hsum. lia.
  - rewrite Hr5. apply Forall_app. split.
    + apply update_items_loop_subs; try assumption. unfold is_guint in Hsg. lia.
    + constructor; [| constructor]. unfold sub_ok. simpl. lia.
Qed.

(** ** The run-merge engine: progress, invariant, result *)

Lemma Sorted_take (R : relation SortItem) (l : SortArray) n : Sorted R l -> Sorted R (take n l).
Proof.
  intros H. revert n. induction H as [| x l Hs IH Hhd]; intros [| n]; simpl; try constructor.
  - apply IH.
  - destruct Hhd as [| y l' Hxy]; destruct n; simpl; constructor. exact Hxy.
Qed.

Lemma Sorted_drop (R : relation SortItem) (l : SortArray) n : Sorted R l -> Sorted R (drop n l).
Proof.
  revert l. induction n as [| n IH]; intros l H; [rewrite drop_0; exact H |].
  destruct l as [| x l]; [constructor |]. simpl. apply IH. inversion H; assumption.
Qed.

Lemma count_run_sorted cmp (l : SortArray) : forall x,
  Sorted (compare_le cmp) (take (count_run cmp x l) (x :: l)).
Proof.
  induction l as [| y l IH]; intros x; simpl.
  - repeat constructor.
  - destruct (decide (compare_le cmp x y)) as [Hxy | _].
    + change (take (S (count_run cmp y l)) (x :: y :: l))
        with (x :: take (count_run cmp y l) (y :: l)).
      constructor; [apply IH |].
      destruct l as [| z l]; simpl.
      * constructor. exact Hxy.
      * destruct (decide (compare_le cmp y z)); constructor; exact Hxy.
    + repeat constructor.
Qed.

Lemma count_run_pos cmp (l : SortArray) x : (1 <= count_run cmp x l)%nat.
Proof. destruct l as [| y l]; simpl; [lia |]. destruct (decide _); lia. Qed.

Lemma sum_list_cons (x : nat) l : sum_list (x :: l) = (x + sum_list l)%nat.
Proof. reflexivity. Qed.

(** Every step that answers TRUE lowers the measure. *)
Lemma gtk_tim_sort_step_measure ts buf ts' buf' change :
  gtk_tim_sort_step ts buf = Some (ts', buf', change) ->
  (tim_sort_measure ts' < tim_sort_measure ts)%nat.
Proof.
  unfold gtk_tim_sort_step, tim_sort_measure.
  destruct (decide (sum_list (ts_pending ts) < ts_size ts)%nat) as [Hlt | Hge].
  - intros H. injection H as <- _ _. simpl ts_pending. simpl ts_size.
    rewrite sum_list_cons. simpl hd. simpl length.
    set (k0 := match drop (sum_list (ts_pending ts)) buf with
               | [] => 1%nat
               | x :: l => count_run (ts_compare ts) x l
               end).
    assert (Hk0 : (1 <= k0)%nat).
    { unfold k0. destruct (drop _ buf); [lia | apply count_run_pos]. }
    set (total := sum_list (ts_pending ts)) in *.
    set (size := ts_size ts) in *.
    set (k := Nat.min k0 (size - total)).
    assert (Hk : (1 <= k <= size - total)%nat) by (unfold k; lia).
    assert (Hhd : (hd 0%nat (ts_pending ts) <= total)%nat).
    { unfold total. destruct (ts_pending ts); simpl; lia. }
    replace (size - (k + total))%nat with (size - total - k)%nat by lia.
    nia.
  - destruct (ts_pending ts) as [| len2 [| len1 rest]]; try discriminate.
    intros H. injection H as <- _ _. simpl ts_size.
    destruct ((0 <? ts_max_merge_size ts)%nat && (ts_max_merge_size ts <? len1)%nat) eqn:Hp;
      simpl ts_pending; rewrite ?sum_list_cons; simpl hd; simpl length.
    + apply andb_prop in Hp as [H0 H1].
      apply Nat.ltb_lt in H0. apply Nat.ltb_lt in H1. rewrite !sum_list_cons in *. lia.
    + rewrite !sum_list_cons in *. lia.
Qed.

(** The pending runs only look at the scanned prefix of the buffer. *)
Lemma runs_sorted_prefix R pending : forall (buf buf' : SortArray) n,
  (sum_list pending <= n)%nat -> take n buf' = take n buf ->
  runs_sorted R pending buf -> runs_sorted R pending buf'.
Proof.
  induction pending as [| len rest IH]; intros buf buf' n Hn Heq H; simpl; [exact I |].
  rewrite sum_list_cons in Hn. destruct H as [Hs Hr]. split.
  - rewrite take_drop_commute in *.
    replace (take (sum_list rest + len) buf') with (take (sum_list rest + len) (take n buf'))
      by (rewrite take_take; f_equal; lia).
    rewrite Heq, take_take.
    replace (Nat.min (sum_list rest + len) n) with (sum_list rest + len)%nat by lia.
    exact Hs.
  - apply (IH buf buf' n); [lia | exact Heq | exact Hr].
Qed.

Lemma buffer_split (l : SortArray) a b c :
  l = take a l ++ take b (drop a l) ++ take c (drop (a + b) l) ++ drop (a + b + c) l.
Proof.
  rewrite <- (drop_drop l c (a + b)), take_drop.
  rewrite <- (drop_drop l b a), take_drop, take_drop. reflexivity.
Qed.

Section engine_step.
Variable ts : GtkTimSort.
Variable buf : SortArray.
Hypothesis Hinv : engine_inv ts buf.
Hypothesis Htotal : compare_total (ts_compare ts).

Let R := compare_le (ts_compare ts).

Lemma gtk_tim_sort_step_done :
  gtk_tim_sort_step ts buf = None -> Sorted R buf.
Proof.
  destruct Hinv as (Hsize & Hsum & Hruns).
  unfold gtk_tim_sort_step.
  destruct (decide (sum_list (ts_pending ts) < ts_size ts)%nat) as [Hlt | Hge];
    [discriminate |].
  destruct (ts_pending ts) as [| len [| len1 rest]] eqn:Hp; [| | discriminate]; intros _.
  - simpl in Hge. assert (length buf = 0%nat) by lia.
    destruct buf; [constructor | discriminate].
  - rewrite sum_list_cons in Hge, Hsum. simpl in Hge, Hsum, Hruns.
    destruct Hruns as [Hs _]. rewrite drop_0 in Hs.
    rewrite take_ge in Hs by lia. exact Hs.
Qed.

Lemma gtk_tim_sort_step_inv ts' buf' change :
  gtk_tim_sort_step ts buf = Some (ts', buf', change) ->
  engine_inv ts' buf' /\ buf' ≡ₚ buf /\
  ts_compare ts' = ts_compare ts /\
  ts_max_merge_size ts' = ts_max_merge_size ts /\
  (run_base change + run_len change <= length buf)%nat /\
  (forall i, (i < run_base change \/ run_base change + run_len change <= i)%nat ->
             buf' !! i = buf !! i).
Proof.
  destruct Hinv as (Hsize & Hsum & Hruns).
  unfold gtk_tim_sort_step.
  destruct (decide (sum_list (ts_pending ts) < ts_size ts)%nat) as [Hlt | Hge].
  - (* a new natural run *)
    intros H. injection H as <- <- <-. simpl.
    split; [| split; [reflexivity | split; [reflexivity | split; [reflexivity |
              split; [lia | reflexivity]]]]].
    unfold engine_inv. simpl ts_size. simpl ts_pending. simpl ts_compare.
    rewrite sum_list_cons.
    split; [exact Hsize |]. split; [lia |].
    simpl. split; [| exact Hruns].
    rewrite Nat.min_comm, <- take_take.
    apply Sorted_take.
    destruct (drop (sum_list (ts_pending ts)) buf) as [| x l] eqn:Hd.
    + rewrite take_nil. constructor.
    + apply count_run_sorted.
  - destruct (ts_pending ts) as [| len2 [| len1 rest]] eqn:Hp; try discriminate.
    rewrite !sum_list_cons in *. simpl in Hruns. destruct Hruns as (Hs2 & Hs1 & Hrest).
    set (partial := (0 <? ts_max_merge_size ts)%nat && (ts_max_merge_size ts <? len1)%nat).
    set (chunk := if partial then ts_max_merge_size ts else len1).
    assert (Hchunk : (chunk <= len1)%nat).
    { unfold chunk, partial.
      destruct (Nat.ltb_spec 0 (ts_max_merge_size ts)),
        (Nat.ltb_spec (ts_max_merge_size ts) len1); simpl; lia. }
    assert (Hfull : partial = false -> chunk = len1).
    { unfold chunk. intros H. rewrite H. reflexivity. }
    clearbody chunk. clearbody partial.
    set (lo := (sum_list rest + (len1 - chunk))%nat).
    set (run1 := take chunk (drop lo buf)).
    set (run2 := take len2 (drop (lo + chunk) buf)).
    set (merged := list_merge R run1 run2).
    intros H. injection H as <- <- <-.
    cbn [ts_size ts_compare ts_max_merge_size ts_pending run_base run_len].
    fold merged.
    assert (Hlo : (lo + chunk = len1 + sum_list rest)%nat) by (unfold lo; lia).
    assert (Hl1 : length run1 = chunk).
    { unfold run1. rewrite length_take, length_drop. lia. }
    assert (Hl2 : length run2 = len2).
    { unfold run2. rewrite length_take, length_drop. lia. }
    assert (Hperm : merged ≡ₚ run1 ++ run2) by apply merge_Permutation.
    assert (Hlm : length merged = (chunk + len2)%nat).
    { rewrite (Permutation_length Hperm), length_app. lia. }
    assert (Hsorted1 : Sorted R run1).
    { unfold run1, lo. rewrite <- (drop_drop buf (len1 - chunk) (sum_list rest)).
      replace chunk with (len1 - (len1 - chunk))%nat at 1 by lia.
      rewrite <- skipn_firstn_comm. apply Sorted_drop. exact Hs1. }
    assert (Hsorted2 : Sorted R run2).
    { unfold run2. rewrite Hlo. exact Hs2. }
    assert (Hmerged : Sorted R merged).
    { unfold merged. apply Sorted_list_merge; [exact Htotal | exact Hsorted1 | exact Hsorted2]. }
    assert (Hltake : length (take lo buf) = lo) by (rewrite length_take; lia).
    split; [| split; [| split; [reflexivity | split; [reflexivity | split]]]].
    + (* invariant *)
      unfold engine_inv.
      cbn [ts_size ts_compare ts_max_merge_size ts_pending run_base run_len].
      fold R. fold merged.
      split; [| split].
      * rewrite !length_app, Hltake, Hlm, length_drop. lia.
      * destruct partial; rewrite !sum_list_cons; lia.
      *
        assert (Hbelow : forall below, (sum_list below = lo)%nat ->
                  runs_sorted R below buf ->
                  runs_sorted R ((chunk + len2)%nat :: below)
                    (take lo buf ++ merged ++ drop (lo + chunk + len2) buf)).
        { intros below Hb Hr. simpl. split.
          - rewrite Hb. rewrite drop_app_length' by (symmetry; exact Hltake).
            rewrite take_app_length' by (symmetry; exact Hlm). exact Hmerged.
          - apply (runs_sorted_prefix R below buf _ lo); [lia | | exact Hr].
            rewrite take_app_length' by (symmetry; exact Hltake). reflexivity. }
        destruct partial eqn:Epart.
        -- replace (len2 + chunk)%nat with (chunk + len2)%nat by lia.
           apply Hbelow.
           ++ rewrite sum_list_cons. unfold lo. lia.
           ++ simpl. split; [| exact Hrest].
              replace (len1 - chunk)%nat with (Nat.min (len1 - chunk) len1) by lia.
              rewrite <- take_take. apply Sorted_take. exact Hs1.
        -- assert (chunk = len1) by (apply Hfull; reflexivity).
           replace (len1 + len2)%nat with (chunk + len2)%nat by lia.
           apply Hbelow; [unfold lo; lia | exact Hrest].
    + (* permutation *)
      transitivity (take lo buf ++ (run1 ++ run2) ++ drop (lo + chunk + len2) buf).
      * apply Permutation_app_head, Permutation_app_tail, Hperm.
      * rewrite <- app_assoc. unfold run1, run2.
        rewrite <- (buffer_split buf lo chunk len2). reflexivity.
    + lia.
    + intros i [Hi | Hi].
      * rewrite lookup_app_l by lia. apply lookup_take_lt. exact Hi.
      * rewrite lookup_app_r; rewrite Hltake; [| lia].
        fold R. fold merged. rewrite lookup_app_r; rewrite Hlm; [| lia].
        rewrite lookup_drop. f_equal. lia.
Qed.

End engine_step.

(** ** Reasoning about monadic code *)

Lemma bind_Some {A B} (c : M A) (k : A -> M B) w r :
  bind c k w = Some r <-> exists a w', c w = Some (a, w') /\ k a w' = Some r.
Proof.
  unfold bind. split.
  - destruct (c w) as [[a w'] |]; [| discriminate]. intros H. exists a, w'. split; [reflexivity | exact H].
  - intros (a & w' & -> & H). exact H.
Qed.

Lemma with_self_id w : with_self (self w) w = w.
Proof. destruct w; reflexivity. Qed.

Lemma same_config_refl s : same_config s s.
Proof. repeat split. Qed.

Lemma same_config_trans s1 s2 s3 : same_config s1 s2 -> same_config s2 s3 -> same_config s1 s3.
Proof. unfold same_config. intros (? & ? & ? & ?) (? & ? & ? & ?). repeat split; congruence. Qed.

Lemma same_signals_refl w : same_signals w w.
Proof. repeat split. Qed.

Lemma same_signals_trans w1 w2 w3 : same_signals w1 w2 -> same_signals w2 w3 -> same_signals w1 w3.
Proof. unfold same_signals. intros (? & ? & ? & ?) (? & ? & ? & ?). repeat split; congruence. Qed.

(** ** The stepping loop *)

Lemma sort_step_loop_spec fuel : forall finish end_time sc ec res w,
  engine_inv (sort (self w)) (items (self w)) ->
  compare_total (ts_compare (sort (self w))) ->
  exists res' w' new,
    sort_step_loop fuel finish end_time sc ec res w
      = Some ((res', fold_left widen_start new sc, fold_left widen_end new ec), w') /\
    same_signals w w' /\ merges w' = merges w ++ new /\
    same_config (self w) (self w') /\
    engine_inv (sort (self w')) (items (self w')) /\
    ts_compare (sort (self w')) = ts_compare (sort (self w)) /\
    items (self w') ≡ₚ items (self w) /\
    Forall (fun c => (run_base c + run_len c <= length (items (self w)))%nat) new /\
    (new = [] -> res' = res) /\ (new <> [] -> res' = true) /\
    (forall i, untouched new i -> items (self w') !! i = items (self w) !! i) /\
    (finish = true -> (tim_sort_measure (sort (self w)) < fuel)%nat ->
       gtk_tim_sort_step (sort (self w')) (items (self w')) = None) /\
    (new = [] -> (0 < fuel)%nat ->
       gtk_tim_sort_step (sort (self w')) (items (self w')) = None).
Proof.
  induction fuel as [| fuel IH]; intros finish end_time sc ec res w Hinv Htot.
  - exists res, w, []. simpl. rewrite app_nil_r.
    split_and!; try reflexivity; try assumption; try congruence;
      auto using same_signals_refl, same_config_refl.
    + intros _ H. lia.
    + intros _ H. lia.
  - cbn [sort_step_loop]. unfold bind at 1. unfold tim_sort_step_self.
    destruct (gtk_tim_sort_step (sort (self w)) (items (self w))) as [[[ts buf] c] |] eqn:Hstep.
    + destruct (gtk_tim_sort_step_inv _ _ Hinv Htot _ _ _ Hstep)
        as (Hinv' & Hperm & Hcmp & _ & Hbound & Hframe).
      pose proof (gtk_tim_sort_step_measure _ _ _ _ _ Hstep) as Hmeas.
      set (w1 := with_merges (merges w ++ [c])
                   (with_self (set_items buf (set_sort ts (self w))) w)).
      unfold bind at 1. unfold g_get_monotonic_time.
      set (w2 := with_time_reads (S (time_reads w1)) w1).
      destruct ((end_time <=? monotonic_time w1 (time_reads w1)) && negb finish) eqn:Hbreak.
      * exists true, w2, [c]. simpl.
        split_and!; try reflexivity; try assumption.
        -- repeat split.
        -- repeat split.
        -- constructor; [exact Hbound | constructor].
        -- discriminate.
        -- intros i Hi. apply Hframe. apply Hi. constructor.
        -- intros ->. rewrite andb_false_r in Hbreak. discriminate.
        -- discriminate.
      * destruct (IH finish end_time (widen_start sc c) (widen_end ec c) true w2)
          as (res' & w' & new & Hrun & Hsig & Hmerges & Hcfg & Hinv'' & Hcmp' & Hperm' &
              Hbounds & Hres0 & Hres & Hframe' & Hdone & _).
        { exact Hinv'. }
        { simpl. rewrite Hcmp. exact Htot. }
        exists res', w', (c :: new). simpl fold_left.
        split; [exact Hrun |].
        split; [exact Hsig |].
        split; [rewrite Hmerges; simpl; rewrite <- app_assoc; reflexivity |].
        split; [exact Hcfg |].
        split; [exact Hinv'' |].
        split; [rewrite Hcmp'; exact Hcmp |].
        split; [etransitivity; [exact Hperm' | exact Hperm] |].
        split.
        { constructor; [exact Hbound |].
          eapply Forall_impl; [exact Hbounds |]. simpl. intros c' Hc'.
          rewrite <- (Permutation_length Hperm). exact Hc'. }
        split; [discriminate |].
        split.
        { intros _. destruct new as [| c' new']; [apply Hres0; reflexivity |].
          apply Hres. discriminate. }
        split.
        { intros i Hi. rewrite Hframe'.
          - simpl. apply Hframe. apply Hi. constructor.
          - intros c' Hc'. apply Hi. constructor. exact Hc'. }
        split.
        { intros Hf Hlt. apply Hdone; [exact Hf |]. simpl. lia. }
        { discriminate. }
    + exists res, w, []. simpl. rewrite app_nil_r.
      split_and!; try reflexivity; try assumption; try congruence;
        auto using same_signals_refl, same_config_refl.
Qed.

(** The fuel of the loop is immaterial once it exceeds the measure of the
    engine: the loop ends because the engine answers FALSE or because the
    deadline has passed, never because the fuel ran out. *)
Lemma sort_step_loop_fuel fuel1 : forall fuel2 finish end_time sc ec res w,
  (tim_sort_measure (sort (self w)) < fuel1)%nat ->
  (tim_sort_measure (sort (self w)) < fuel2)%nat ->
  sort_step_loop fuel1 finish end_time sc ec res w
  = sort_step_loop fuel2 finish end_time sc ec res w.
Proof.
  induction fuel1 as [| fuel1 IH]; intros fuel2 finish end_time sc ec res w H1 H2; [lia |].
  destruct fuel2 as [| fuel2]; [lia |].
  cbn [sort_step_loop]. unfold bind at 1 3. unfold tim_sort_step_self.
  destruct (gtk_tim_sort_step (sort (self w)) (items (self w))) as [[[ts buf] c] |] eqn:Hstep;
    [| reflexivity].
  pose proof (gtk_tim_sort_step_measure _ _ _ _ _ Hstep) as Hmeas.
  unfold bind at 1 2. unfold g_get_monotonic_time.
  destruct ((end_time <=? _) && negb finish); [reflexivity |].
  apply IH; simpl; lia.
Qed.

(** ** The range returned by a sort step *)

Lemma widen_fold (new : list GtkTimSortRun) : forall sc ec,
  let sc' := fold_left widen_start new sc in
  let ec' := fold_left widen_end new ec in
  (sc' <= sc)%nat /\ (ec <= ec')%nat /\ covers sc' ec' new /\
  (forall lo hi, (lo <= sc)%nat -> (ec <= hi)%nat -> covers lo hi new ->
                 (lo <= sc')%nat /\ (ec' <= hi)%nat) /\
  (~ Exists moved new -> sc' = sc /\ ec' = ec).
Proof.
  induction new as [| c new IH]; intros sc ec; simpl.
  - split_and!; try lia. intros c Hc. inversion Hc.
  - destruct (IH (widen_start sc c) (widen_end ec c)) as (H1 & H2 & H3 & H4 & H5).
    assert (Hw : (widen_start sc c <= sc)%nat /\ (ec <= widen_end ec c)%nat /\
                 (moved c -> (widen_start sc c <= run_base c)%nat /\
                             (run_base c + run_len c <= widen_end ec c)%nat) /\
                 (~ moved c -> widen_start sc c = sc /\ widen_end ec c = ec)).
    { unfold widen_start, widen_end, moved.
      destruct (Nat.eqb_spec (run_len c) 0); split_and!; try lia; intros; lia. }
    destruct Hw as (W1 & W2 & W3 & W4).
    split_and!; try lia.
    + intros c' Hc' Hm. apply elem_of_cons in Hc' as [-> | Hc'].
      * destruct (W3 Hm). lia.
      * apply H3; assumption.
    + intros lo hi Hlo Hhi Hcov. apply H4.
      * unfold widen_start. destruct (Nat.eqb_spec (run_len c) 0); [lia |].
        destruct (Hcov c); [constructor | exact n |]. lia.
      * unfold widen_end. destruct (Nat.eqb_spec (run_len c) 0); [lia |].
        destruct (Hcov c); [constructor | exact n |]. lia.
      * intros c' Hc' Hm. apply Hcov; [constructor; exact Hc' | exact Hm].
    + intros Hno. destruct H5 as [E1 E2].
      * intros Hex. apply Hno. apply Exists_cons_tl. exact Hex.
      * destruct W4 as [E3 E4]; [intros Hm; apply Hno; apply Exists_cons_hd; exact Hm |].
        rewrite E1, E2, E3, E4. split; reflexivity.
Qed.

Lemma sort_step_range (size : nat) (new : list GtkTimSortRun) :
  Z.of_nat size < guint_modulus ->
  Forall (fun c => (run_base c + run_len c <= size)%nat) new ->
  let sc := fold_left widen_start new size in
  let ec := fold_left widen_end new 0%nat in
  smallest_range
    (if (sc <? ec)%nat then guint (Z.of_nat sc) else 0)
    (if (sc <? ec)%nat then guint (Z.of_nat ec - Z.of_nat sc) else 0) new.
Proof.
  intros Hsize Hbounds sc ec.
  destruct (widen_fold new size 0%nat) as (H1 & H2 & H3 & H4 & H5).
  fold sc in H1, H3, H4, H5. fold ec in H2, H3, H4, H5.
  assert (Hall : covers 0 size new).
  { intros c Hc _. rewrite Forall_forall in Hbounds. specialize (Hbounds c Hc). lia. }
  destruct (H4 0%nat size) as [_ Hec]; [lia | lia | exact Hall |].
  unfold smallest_range. split.
  - intros Hex. apply Exists_exists in Hex as (c & Hc & Hm).
    destruct (H3 c Hc Hm) as [Hlo Hhi]. unfold moved in Hm.
    assert (Hlt : (sc < ec)%nat) by lia.
    apply Nat.ltb_lt in Hlt as Hlt'. rewrite Hlt'.
    exists sc, ec. unfold guint, guint_modulus in *.
    split; [apply Z.mod_small; lia |]. split; [apply Z.mod_small; lia |].
    split; [exact Hlt |]. split; [exact H3 |].
    intros lo' hi' Hcov. apply H4; [| lia | exact Hcov].
    destruct (Hcov c Hc Hm). rewrite Forall_forall in Hbounds.
    specialize (Hbounds c Hc). lia.
  - intros Hno. destruct (H5 Hno) as [E1 E2]. rewrite E1, E2.
    destruct (Nat.ltb_spec size 0); [lia |]. split; reflexivity.
Qed.

Lemma sort_step_spec finish w :
  engine_inv (sort (self w)) (items (self w)) ->
  compare_total (ts_compare (sort (self w))) ->
  exists res w' new,
    let sc := fold_left widen_start new (length (items (self w))) in
    let ec := fold_left widen_end new 0%nat in
    gtk_tim2_sort_model_sort_step finish w
      = Some ((res, if (sc <? ec)%nat then guint (Z.of_nat sc) else 0,
                    if (sc <? ec)%nat then guint (Z.of_nat ec - Z.of_nat sc) else 0), w') /\
    same_signals w w' /\ merges w' = merges w ++ new /\
    same_config (self w) (self w') /\
    engine_inv (sort (self w')) (items (self w')) /\
    ts_compare (sort (self w')) = ts_compare (sort (self w)) /\
    items (self w') ≡ₚ items (self w) /\
    Forall (fun c => (run_base c + run_len c <= length (items (self w)))%nat) new /\
    (new = [] -> res = false) /\ (new <> [] -> res = true) /\
    (forall i, untouched new i -> items (self w') !! i = items (self w) !! i) /\
    (finish = true -> gtk_tim_sort_step (sort (self w')) (items (self w')) = None) /\
    (new = [] -> gtk_tim_sort_step (sort (self w')) (items (self w')) = None).
Proof.
  intros Hinv Htot.
  unfold gtk_tim2_sort_model_sort_step.
  unfold bind at 1. unfold g_get_monotonic_time.
  set (w0 := with_time_reads (S (time_reads w)) w).
  unfold bind at 1. unfold get_self.
  destruct (sort_step_loop_spec (S (tim_sort_measure (sort (self w0)))) finish
              (monotonic_time w (time_reads w) + 1000)
              (sort_array_get_size (items (self w0))) 0%nat false w0 Hinv Htot)
    as (res & w' & new & Hrun & Hsig & Hmerges & Hcfg & Hinv' & Hcmp & Hperm & Hb & Hr0 & Hr1 &
        Hframe & Hdone & Hnone).
  exists res, w', new. cbv zeta.
  unfold bind at 1. rewrite Hrun.
  change (sort_array_get_size (items (self w0))) with (length (items (self w))).
  split.
  { destruct (fold_left widen_start new (length (items (self w))) <?
              fold_left widen_end new 0)%nat; reflexivity. }
  split_and!; try assumption.
  - intros Hf. apply Hdone; [exact Hf | lia].
  - intros Hn. apply Hnone; [exact Hn | lia].
Qed.

(** ** What the scheduling routines do to the model *)

Lemma same_data_refl s : same_data s s.
Proof. repeat split. Qed.

Lemma same_data_trans s1 s2 s3 : same_data s1 s2 -> same_data s2 s3 -> same_data s1 s3.
Proof. unfold same_data. intros (? & ? & ? & ?) (? & ? & ? & ?). repeat split; congruence. Qed.

Lemma stop_sorting_spec w :
  exists runs w',
    gtk_tim2_sort_model_stop_sorting w = Some (runs, w') /\
    emitted w' = emitted w /\ unreffed w' = unreffed w /\ merges w' = merges w /\
    same_data (self w) (self w') /\ sort_cb (self w') = 0%nat /\
    (sort_cb (self w) = 0%nat -> w' = w).
Proof.
  unfold gtk_tim2_sort_model_stop_sorting, bind, get_self.
  destruct (Nat.eqb_spec (sort_cb (self w)) 0) as [E | E].
  - eexists _, w. split; [reflexivity |].
    split_and!; auto using same_data_refl.
  - eexists _, _. split; [reflexivity |]. simpl.
    split_and!; try reflexivity; [repeat split | contradiction].
Qed.

Lemma runs_until_zero_reset runs : runs_until_zero (<[0%nat := 0%nat]> runs) = [].
Proof. destruct runs; reflexivity. Qed.

(** Starting a run requires that none is in progress, and leaves a fresh
    engine over the whole buffer. *)
Lemma start_sorting_spec runs w :
  sort_cb (self w) = 0%nat ->
  match runs with Some r => runs_until_zero r = [] | None => True end ->
  exists w',
    gtk_tim2_sort_model_start_sorting runs w = Some (incremental (self w), w') /\
    emitted w' = emitted w /\ unreffed w' = unreffed w /\ merges w' = merges w /\
    same_data (self w) (self w') /\
    engine_inv (sort (self w')) (items (self w')) /\
    ts_compare (sort (self w')) = sort_func (sorter (self w)) /\
    (if incremental (self w) then sort_cb (self w') <> 0%nat else sort_cb (self w') = 0%nat).
Proof.
  intros Hcb Hruns.
  unfold gtk_tim2_sort_model_start_sorting, bind, get_self, g_assert.
  rewrite Hcb. simpl Nat.eqb. cbv iota.
  assert (Hpending : ts_pending
            (match runs with
             | Some r => gtk_tim_sort_set_runs
                           (gtk_tim_sort_init (sort_array_get_size (items (self w)))
                              (sort_func (sorter (self w)))) r
             | None => gtk_tim_sort_init (sort_array_get_size (items (self w)))
                         (sort_func (sorter (self w)))
             end) = []).
  { destruct runs as [r |]; simpl; [rewrite Hruns |]; reflexivity. }
  assert (Hinv : forall ts, ts_pending ts = [] ->
            ts_size ts = length (items (self w)) -> engine_inv ts (items (self w))).
  { intros ts Hp Hs. unfold engine_inv. rewrite Hp, Hs. simpl. split_and!; [reflexivity | lia | exact I]. }
  destruct (incremental (self w)) eqn:Hinc; simpl.
  - eexists. split; [reflexivity |]. simpl.
    split_and!; try reflexivity.
    + repeat split; simpl; try exact Hinc.
    + apply Hinv; [| destruct runs; reflexivity]. simpl. exact Hpending.
    + destruct runs; reflexivity.
    + discriminate.
  - eexists. split; [reflexivity |]. simpl.
    split_and!; try reflexivity.
    + repeat split; simpl; try exact Hinc.
    + apply Hinv; [exact Hpending | destruct runs; reflexivity].
    + destruct runs; reflexivity.
    + exact Hcb.
Qed.

Lemma start_sorting_Some runs w b w' :
  gtk_tim2_sort_model_start_sorting runs w = Some (b, w') -> sort_cb (self w) = 0%nat.
Proof.
  unfold gtk_tim2_sort_model_start_sorting, bind, get_self, g_assert.
  destruct (Nat.eqb_spec (sort_cb (self w)) 0); [auto | discriminate].
Qed.

(** Finishing drains the run: no callback stays installed and the buffer
    is sorted by the comparison of the run. *)
Lemma finish_sorting_spec w :
  engine_inv (sort (self w)) (items (self w)) ->
  compare_total (ts_compare (sort (self w))) ->
  exists pn w',
    gtk_tim2_sort_model_finish_sorting w = Some (pn, w') /\
    emitted w' = emitted w /\ unreffed w' = unreffed w /\
    model (self w') = model (self w) /\ sorter (self w') = sorter (self w) /\
    incremental (self w') = incremental (self w) /\
    sort_cb (self w') = 0%nat /\
    items (self w') ≡ₚ items (self w) /\
    Sorted (compare_le (ts_compare (sort (self w)))) (items (self w')).
Proof.
  intros Hinv Htot.
  unfold gtk_tim2_sort_model_finish_sorting.
  unfold bind at 1. unfold modify_self.
  set (w0 := with_self (set_sort (gtk_tim_sort_set_max_merge_size (sort (self w)) 0) (self w)) w).
  assert (Hinv0 : engine_inv (sort (self w0)) (items (self w0))) by exact Hinv.
  assert (Htot0 : compare_total (ts_compare (sort (self w0)))) by exact Htot.
  destruct (sort_step_spec true w0 Hinv0 Htot0)
    as (res & w1 & new & Hrun & Hsig & _ & Hcfg & Hinv1 & Hcmp & Hperm & _ & _ & _ & _ & Hdone & _).
  cbv zeta in Hrun. unfold bind at 1. rewrite Hrun.
  unfold bind at 1.
  set (w2 := with_self (set_sort (gtk_tim_sort_finish (sort (self w1))) (self w1)) w1).
  destruct (stop_sorting_spec w2) as (runs & w3 & Hstop & He & Hu & _ & Hdata & Hcb & _).
  unfold bind at 1. rewrite Hstop.
  eexists _, w3. split; [reflexivity |].
  destruct Hsig as (Hs1 & Hs2 & _ & _).
  destruct Hcfg as (Hc1 & Hc2 & Hc3 & _).
  destruct Hdata as (Hd1 & Hd2 & Hd3 & Hd4).
  simpl in *.
  assert (Hp : items (self w3) ≡ₚ items (self w)) by (rewrite Hd4; exact Hperm).
  assert (Hs : Sorted (compare_le (ts_compare (sort (self w)))) (items (self w3))).
  { rewrite Hd4. rewrite <- Hcmp.
    apply (gtk_tim_sort_step_done _ _ Hinv1). apply Hdone. reflexivity. }
  split_and!; try assumption; congruence.
Qed.

Lemma spec_out {A} (c : M A) w (P : A -> World -> Prop) :
  (exists a w', c w = Some (a, w') /\ P a w') ->
  forall a w', c w = Some (a, w') -> P a w'.
Proof. intros (a0 & w0 & H0 & HP) a w' H. rewrite H0 in H. injection H as <- <-. exact HP. Qed.

Lemma bind_get_self {B} (k : GtkTim2SortModel -> M B) w : bind get_self k w = k (self w) w.
Proof. reflexivity. Qed.

Lemma bind_modify_self {B} f (k : unit -> M B) w :
  bind (modify_self f) k w = k tt (with_self (f (self w)) w).
Proof. reflexivity. Qed.

Lemma bind_ret {A B} (a : A) (k : A -> M B) w : bind (ret a) k w = k a w.
Proof. reflexivity. Qed.

Lemma bind_items_changed {B} p r a (k : unit -> M B) w :
  bind (g_list_model_items_changed p r a) k w
  = k tt (with_emitted (emitted w ++ [{| ic_position := p; ic_removed := r; ic_added := a |}]) w).
Proof. reflexivity. Qed.

Lemma bind_unref_all {B} l (k : unit -> M B) w :
  bind (g_object_unref_all l) k w = k tt (with_unreffed (unreffed w ++ l) w).
Proof. reflexivity. Qed.

Lemma clear_items_spec report w :
  exists w',
    gtk_tim2_sort_model_clear_items report w
      = Some (if report then
                let start := clear_items_start (items (self w)) 0 in
                let end_ := clear_items_end (items (self w)) start (length (items (self w))) in
                let n_items := guint (Z.of_nat end_ - Z.of_nat start) in
                (if n_items =? 0 then 0 else Z.of_nat start, n_items)
              else (0, 0), w') /\
    emitted w' = emitted w /\
    unreffed w' = unreffed w ++ free_elements (items (self w)) /\
    model (self w') = model (self w) /\ sorter (self w') = sorter (self w) /\
    incremental (self w') = incremental (self w) /\
    sort_cb (self w') = 0%nat /\ items (self w') = [].
Proof.
  unfold gtk_tim2_sort_model_clear_items.
  destruct (stop_sorting_spec w) as (runs & w1 & Hstop & He & Hu & _ & (Hd1 & Hd2 & Hd3 & Hd4) & Hcb & _).
  unfold bind at 1. rewrite Hstop. rewrite bind_get_self.
  unfold sort_array_clear, sort_array_get_size.
  rewrite bind_modify_self, bind_unref_all. unfold ret. rewrite Hd4.
  eexists. split; [reflexivity |]. simpl.
  split_and!; try assumption; try reflexivity. rewrite Hu. reflexivity.
Qed.

Lemma create_items_spec w :
  exists w',
    gtk_tim2_sort_model_create_items w = Some (tt, w') /\
    emitted w' = emitted w /\ unreffed w' = unreffed w /\
    same_config (self w) (self w') /\ sort (self w') = sort (self w) /\
    items (self w') =
      (if gtk_tim2_sort_model_should_sort (self w) then
         match model (self w) with
         | Some m => create_items_loop m (length (model_items m)) (items (self w))
         | None => items (self w)
         end
       else items (self w)).
Proof.
  unfold gtk_tim2_sort_model_create_items. rewrite bind_get_self.
  destruct (gtk_tim2_sort_model_should_sort (self w)); simpl.
  - destruct (model (self w)) as [m |] eqn:Hm.
    + eexists. split; [reflexivity |]. simpl.
      unfold g_list_model_get_n_items. rewrite Nat2Z.id.
      split_and!; try reflexivity. repeat split; simpl; try exact Hm.
    + exists w. split; [reflexivity |]. split_and!; try reflexivity. apply same_config_refl.
  - exists w. split; [reflexivity |]. split_and!; try reflexivity. apply same_config_refl.
Qed.

(** ** Sortedness is kept by dropping and repositioning items *)

Lemma sorter_ok_total so : sorter_ok so -> compare_total (sort_func (Some so)).
Proof. intros [Ht _] a b. apply Ht. Qed.

Lemma sort_func_total (x : option GtkSorter) :
  (forall so, x = Some so -> sorter_ok so) -> compare_total (sort_func x).
Proof.
  destruct x as [so |]; intros H.
  - apply sorter_ok_total. apply H. reflexivity.
  - intros a b. left. unfold compare_le, sort_func. simpl. discriminate.
Qed.

Lemma sorter_ok_trans so : sorter_ok so -> Transitive (compare_le (sort_func (Some so))).
Proof. intros [_ Ht] a b c. apply Ht. Qed.

Lemma Sorted_omap_keep so (f : SortItem -> option SortItem) (l : SortArray) :
  sorter_ok so ->
  (forall x y, f x = Some y -> si_item y = si_item x) ->
  Sorted (compare_le (sort_func (Some so))) l ->
  Sorted (compare_le (sort_func (Some so))) (omap f l).
Proof.
  intros Hok Hf Hs.
  pose proof (sorter_ok_trans so Hok) as Htrans.
  apply StronglySorted_Sorted. apply Sorted_StronglySorted in Hs; [| exact Htrans].
  induction Hs as [| x l Hs IH Hall]; csimpl; [constructor |].
  destruct (f x) as [y |] eqn:Hfx; [| exact IH].
  constructor; [exact IH |].
  rewrite Forall_forall in Hall. apply Forall_forall. intros z' Hz'.
  apply list_elem_of_omap in Hz' as (z & Hz & Hfz).
  specialize (Hall z Hz). unfold compare_le, sort_func in *. simpl in *.
  rewrite (Hf x y Hfx), (Hf z z' Hfz). exact Hall.
Qed.

Lemma update_item_keeps_item position removed added x y :
  update_item position removed added x = Some y -> si_item y = si_item x.
Proof.
  unfold update_item.
  destruct (guint (position + removed) <=? si_position x).
  - intros H. injection H as <-. reflexivity.
  - destruct (position <=? si_position x); [discriminate |].
    intros H. injection H as <-. reflexivity.
Qed.

(** Without any assumption on the sizes: when the translator returns, the
    buffer is an order-preserving selection of the old one. *)
Lemma update_items_result (a : SortArray) runs position removed added r :
  gtk_tim2_sort_model_update_items a runs position removed added = Some r ->
  ur_runs r = <[0%nat := 0%nat]> runs /\
  exists n, ur_items r = omap (update_item position removed added) (take n a).
Proof.
  unfold gtk_tim2_sort_model_update_items, sort_array_get_size.
  set (n := Z.to_nat (guint (Z.of_nat (length a)))).
  assert (Hn : (n <= length a)%nat).
  { unfold n, guint, guint_modulus.
    pose proof (Z.mod_le (Z.of_nat (length a)) (2 ^ 32)). lia. }
  destruct (decide _) as [_ | _]; [| discriminate].
  unfold sort_array_set_size. intros H. injection H as <-. simpl.
  split; [reflexivity |]. exists n.
  assert (Hinv : update_inv position removed added a n
                   (update_items_loop position removed added n a)).
  { unfold update_items_loop.
    apply (update_items_fold_inv position removed added n a n 0%nat); [lia |].
    constructor; simpl; try reflexivity; lia. }
  destruct Hinv as [_ _ _ Hpre _ _].
  rewrite memset_items_take by lia. exact Hpre.
Qed.

(** ** The idle callback *)

Lemma sort_cb_spec w :
  engine_inv (sort (self w)) (items (self w)) ->
  compare_total (ts_compare (sort (self w))) ->
  exists continue w' w1 new res,
    let sc := fold_left widen_start new (length (items (self w))) in
    let ec := fold_left widen_end new 0%nat in
    let pos := if (sc <? ec)%nat then guint (Z.of_nat sc) else 0 in
    let n := if (sc <? ec)%nat then guint (Z.of_nat ec - Z.of_nat sc) else 0 in
    gtk_tim2_sort_model_sort_step false w = Some ((res, pos, n), w1) /\
    gtk_tim2_sort_model_sort_cb w = Some (continue, w') /\
    merges w' = merges w ++ new /\
    emitted w' = emitted w ++
      (if n =? 0 then []
       else [{| ic_position := pos; ic_removed := n; ic_added := n |}]) /\
    model (self w') = model (self w) /\ sorter (self w') = sorter (self w) /\
    incremental (self w') = incremental (self w) /\
    items (self w') ≡ₚ items (self w) /\
    Forall (fun c => (run_base c + run_len c <= length (items (self w)))%nat) new /\
    (forall i, untouched new i -> items (self w') !! i = items (self w) !! i) /\
    (continue = true ->
       sort_cb (self w') = sort_cb (self w) /\
       engine_inv (sort (self w')) (items (self w')) /\
       ts_compare (sort (self w')) = ts_compare (sort (self w))) /\
    (continue = false ->
       sort_cb (self w') = 0%nat /\ new = [] /\
       Sorted (compare_le (ts_compare (sort (self w)))) (items (self w'))).
Proof.
  intros Hinv Htot.
  destruct (sort_step_spec false w Hinv Htot)
    as (res & w1 & new & Hrun & (Hs1 & Hs2 & _ & _) & Hmerges & (Hc1 & Hc2 & Hc3 & Hc4) &
        Hinv1 & Hcmp & Hperm & Hb & Hr0 & Hr1 & Hframe & _ & Hnone).
  cbv zeta in Hrun.
  unfold gtk_tim2_sort_model_sort_cb. unfold bind at 1. rewrite Hrun.
  destruct res.
  - (* the engine stepped: notify and continue *)
    set (n := if (_ <? _)%nat then guint (_ - _) else 0).
    destruct (Z.eqb_spec n 0) as [Hn | Hn].
    + rewrite bind_ret. unfold ret.
      exists true, w1, w1, new, true. cbv zeta. fold n.
      destruct (Z.eqb_spec n 0) as [_ | Hn']; [| contradiction].
      rewrite app_nil_r.
      split_and!; try assumption; try reflexivity.
      * intros _. split_and!; assumption.
      * discriminate.
    + rewrite bind_items_changed. unfold ret.
      eexists true, _, w1, new, true. cbv zeta. fold n.
      destruct (Z.eqb_spec n 0) as [Hn' | _]; [contradiction |].
      split; [first [exact Hrun | reflexivity] |]. split; [reflexivity |]. simpl.
      split_and!; try assumption; try reflexivity.
      * rewrite Hs1. reflexivity.
      * intros _. split_and!; assumption.
      * discriminate.
  - (* nothing left to do: stop *)
    assert (Hnew : new = []).
    { destruct new; [reflexivity |]. discriminate Hr1. discriminate. }
    destruct (stop_sorting_spec w1) as (runs & w2 & Hstop & He & _ & Hm & (Hd1 & Hd2 & Hd3 & Hd4) & Hcb & _).
    unfold bind at 1. rewrite Hstop. unfold ret.
    exists false, w2, w1, new, false. cbv zeta. subst new. simpl.
    split; [first [exact Hrun | reflexivity] |]. split; [reflexivity |].
    rewrite app_nil_r in *.
    assert (Hperm2 : items (self w2) ≡ₚ items (self w)) by (rewrite Hd4; exact Hperm).
    assert (Hframe2 : forall i, untouched [] i -> items (self w2) !! i = items (self w) !! i).
    { intros i Hi. rewrite Hd4. apply Hframe. exact Hi. }
    assert (Hsorted : Sorted (compare_le (ts_compare (sort (self w)))) (items (self w2))).
    { rewrite Hd4, <- Hcmp.
      apply (gtk_tim_sort_step_done _ _ Hinv1). apply Hnone. reflexivity. }
    assert (Hem : emitted w2 = emitted w ++ []) by (rewrite app_nil_r; congruence).
    split_and!; try assumption; try congruence; try discriminate.
    intros _. split_and!; try reflexivity; assumption.
Qed.

(** ** Every operation preserves the invariant *)

Lemma Permutation_nil_eq (l : SortArray) : l ≡ₚ [] -> l = [].
Proof. intros H. apply Permutation_sym in H. apply Permutation_nil in H. exact H. Qed.

(** Starting a sort and, in synchronous mode, finishing it at once. *)
Lemma start_sorting_inv runs w :
  sort_cb (self w) = 0%nat ->
  match runs with Some r => runs_until_zero r = [] | None => True end ->
  (forall so, sorter (self w) = Some so -> sorter_ok so) ->
  (model (self w) = None -> items (self w) = []) ->
  exists w1,
    gtk_tim2_sort_model_start_sorting runs w = Some (incremental (self w), w1) /\
    emitted w1 = emitted w /\ unreffed w1 = unreffed w /\
    same_data (self w) (self w1) /\
    (incremental (self w) = true -> model_inv (self w1)) /\
    (incremental (self w) = false ->
       exists pn w2,
         gtk_tim2_sort_model_finish_sorting w1 = Some (pn, w2) /\
         emitted w2 = emitted w /\ unreffed w2 = unreffed w /\
         model (self w2) = model (self w) /\ sorter (self w2) = sorter (self w) /\
         incremental (self w2) = incremental (self w) /\
         items (self w2) ≡ₚ items (self w) /\
         model_inv (self w2)).
Proof.
  intros Hcb Hruns Hsorter Hnomodel.
  destruct (start_sorting_spec runs w Hcb Hruns)
    as (w1 & Hstart & He & Hu & _ & Hdata & Hinv & Hcmp & Hcb1).
  pose proof Hdata as (Hd1 & Hd2 & Hd3 & Hd4).
  assert (Htot : compare_total (ts_compare (sort (self w1)))).
  { rewrite Hcmp. apply sort_func_total. exact Hsorter. }
  exists w1. split_and!; try assumption.
  - intros Hinc. rewrite Hinc in Hcb1. constructor.
    + rewrite Hd1, Hd4. exact Hnomodel.
    + rewrite Hd3, Hinc. discriminate.
    + rewrite Hd2. exact Hsorter.
    + intros H0. contradiction.
    + intros _. split_and!; try assumption.
      intros so Hso. rewrite Hcmp. rewrite Hd2 in Hso. rewrite Hso. reflexivity.
  - intros Hinc. rewrite Hinc in Hcb1.
    destruct (finish_sorting_spec w1 Hinv Htot)
      as (pn & w2 & Hfin & He2 & Hu2 & Hm2 & Hs2 & Hi2 & Hcb2 & Hperm & Hsorted).
    assert (Hperm2 : items (self w2) ≡ₚ items (self w)) by (rewrite <- Hd4; exact Hperm).
    assert (Hinv2 : model_inv (self w2)).
    { constructor.
      - intros Hm. apply Permutation_nil_eq. rewrite Hperm2.
        rewrite Hnomodel; [reflexivity | congruence].
      - intros _. exact Hcb2.
      - intros so Hso. apply Hsorter. congruence.
      - intros _ so Hso. rewrite Hcmp in Hsorted.
        replace (sorter (self w)) with (Some so) in Hsorted by congruence.
        exact Hsorted.
      - intros H0. contradiction. }
    exists pn, w2. split_and!; try assumption; congruence.
Qed.

Lemma is_sorting_true s : gtk_tim2_sort_model_is_sorting s = true <-> sort_cb s <> 0%nat.
Proof.
  unfold gtk_tim2_sort_model_is_sorting.
  destruct (Nat.eqb_spec (sort_cb s) 0); simpl; split; congruence.
Qed.

Lemma is_sorting_false s : gtk_tim2_sort_model_is_sorting s = false <-> sort_cb s = 0%nat.
Proof.
  unfold gtk_tim2_sort_model_is_sorting.
  destruct (Nat.eqb_spec (sort_cb s) 0); simpl; split; congruence.
Qed.

(** Leaving incremental mode while a run is in flight drains the run. *)
Lemma set_incremental_false_drains w :
  model_inv (self w) ->
  incremental (self w) = true -> sort_cb (self w) <> 0%nat ->
  exists w',
    gtk_tim2_sort_model_set_incremental false w = Some (tt, w') /\
    sort_cb (self w') = 0%nat /\ incremental (self w') = false /\
    model (self w') = model (self w) /\ sorter (self w') = sorter (self w) /\
    items (self w') ≡ₚ items (self w) /\
    model_inv (self w').
Proof.
  intros Hinv Hinc Hcb.
  destruct (inv_run _ Hinv Hcb) as (Heng & Htot & Hcmp).
  unfold gtk_tim2_sort_model_set_incremental.
  rewrite bind_get_self, Hinc. cbn [Bool.eqb].
  rewrite bind_modify_self, bind_get_self.
  set (w0 := with_self (set_incremental_field false (self w)) w).
  assert (Hs : gtk_tim2_sort_model_is_sorting (self w0) = true) by (apply is_sorting_true; exact Hcb).
  rewrite Hs. cbn [negb andb].
  destruct (finish_sorting_spec w0 Heng Htot)
    as (pn & w2 & Hfin & He2 & Hu2 & Hm2 & Hs2 & Hi2 & Hcb2 & Hperm & Hsorted).
  unfold bind at 1. rewrite Hfin.
  simpl in Hm2, Hs2, Hi2, Hperm, Hsorted.
  assert (Hinv2 : model_inv (self w2)).
  { constructor.
    - intros Hm. apply Permutation_nil_eq. rewrite Hperm.
      rewrite (inv_no_model _ Hinv); [reflexivity | congruence].
    - intros _. exact Hcb2.
    - intros so Hso. apply (inv_sorter _ Hinv). congruence.
    - intros _ so Hso. rewrite (Hcmp so) in Hsorted; [exact Hsorted | congruence].
    - intros H0. contradiction. }
  destruct (snd pn =? 0).
  - exists w2. split; [reflexivity |]. split_and!; assumption.
  - eexists. split; [reflexivity |]. simpl. split_and!; assumption.
Qed.

Lemma set_incremental_inv b w w' :
  model_inv (self w) ->
  gtk_tim2_sort_model_set_incremental b w = Some (tt, w') -> model_inv (self w').
Proof.
  intros Hinv H.
  destruct (incremental (self w)) eqn:Hinc, b.
  - unfold gtk_tim2_sort_model_set_incremental in H.
    rewrite bind_get_self, Hinc in H. injection H as <-. exact Hinv.
  - destruct (Nat.eq_dec (sort_cb (self w)) 0%nat) as [Hcb | Hcb].
    + unfold gtk_tim2_sort_model_set_incremental in H.
      rewrite bind_get_self, Hinc in H. cbn [Bool.eqb] in H.
      rewrite bind_modify_self, bind_get_self in H.
      set (w0 := with_self (set_incremental_field false (self w)) w) in *.
      assert (Hs : gtk_tim2_sort_model_is_sorting (self w0) = false)
        by (apply is_sorting_false; exact Hcb).
      rewrite Hs in H. simpl in H. injection H as <-.
      constructor; simpl.
      * apply (inv_no_model _ Hinv).
      * intros _. exact Hcb.
      * apply (inv_sorter _ Hinv).
      * apply (inv_sorted _ Hinv).
      * intros H0. contradiction.
    + destruct (set_incremental_false_drains w Hinv Hinc Hcb) as (w2 & Hrun & _ & _ & _ & _ & _ & Hinv2).
      rewrite Hrun in H. injection H as <-. exact Hinv2.
  - unfold gtk_tim2_sort_model_set_incremental in H.
    rewrite bind_get_self, Hinc in H. cbn [Bool.eqb] in H.
    rewrite bind_modify_self, bind_get_self in H. simpl in H. injection H as <-.
    constructor; simpl.
    + apply (inv_no_model _ Hinv).
    + discriminate.
    + apply (inv_sorter _ Hinv).
    + apply (inv_sorted _ Hinv).
    + apply (inv_run _ Hinv).
  - unfold gtk_tim2_sort_model_set_incremental in H.
    rewrite bind_get_self, Hinc in H. injection H as <-. exact Hinv.
Qed.

Lemma idle_dispatch_inv w w' :
  model_inv (self w) -> idle_dispatch w = Some (tt, w') -> model_inv (self w').
Proof.
  intros Hinv H. unfold idle_dispatch in H. rewrite bind_get_self in H.
  destruct (Nat.eqb_spec (sort_cb (self w)) 0) as [Hcb | Hcb].
  - injection H as <-. exact Hinv.
  - destruct (inv_run _ Hinv Hcb) as (Heng & Htot & Hcmp).
    destruct (sort_cb_spec w Heng Htot)
      as (continue & w1 & _ & new & _ & _ & Hrun & _ & _ & Hm & Hs & Hi & Hperm & _ & _ & Hc & Hd).
    unfold bind at 1 in H. rewrite Hrun in H. injection H as <-.
    destruct continue.
    + destruct Hc as (Hcb1 & Heng1 & Hcmp1); [reflexivity |].
      constructor.
      * intros Hm1. apply Permutation_nil_eq. rewrite Hperm.
        rewrite (inv_no_model _ Hinv); [reflexivity | congruence].
      * intros Hi1. rewrite Hcb1. apply (inv_sync _ Hinv). congruence.
      * intros so Hso. apply (inv_sorter _ Hinv). congruence.
      * intros H0. rewrite Hcb1 in H0. contradiction.
      * intros _. split_and!; [exact Heng1 | rewrite Hcmp1; exact Htot |].
        intros so Hso. rewrite Hcmp1. apply Hcmp. congruence.
    + destruct Hd as (Hcb1 & _ & Hsorted); [reflexivity |].
      constructor.
      * intros Hm1. apply Permutation_nil_eq. rewrite Hperm.
        rewrite (inv_no_model _ Hinv); [reflexivity | congruence].
      * intros _. exact Hcb1.
      * intros so Hso. apply (inv_sorter _ Hinv). congruence.
      * intros _ so Hso. rewrite (Hcmp so) in Hsorted; [exact Hsorted | congruence].
      * intros H0. contradiction.
Qed.

Lemma maybe_items_changed_self (c : bool) p r a w u w' :
  (if c then g_list_model_items_changed p r a else ret tt) w = Some (u, w') ->
  self w' = self w /\ unreffed w' = unreffed w /\
  emitted w' = emitted w ++
    (if c then [{| ic_position := p; ic_removed := r; ic_added := a |}] else []).
Proof.
  destruct c; intros H; injection H as _ <-; simpl; rewrite ?app_nil_r; auto.
Qed.

Lemma should_sort_true s :
  gtk_tim2_sort_model_should_sort s = true ->
  exists so m, sorter s = Some so /\ model s = Some m /\
               gtk_sorter_get_order so <> GTK_SORTER_ORDER_NONE.
Proof.
  unfold gtk_tim2_sort_model_should_sort.
  destruct (sorter s) as [so |]; [| discriminate].
  destruct (model s) as [m |]; [| discriminate].
  intros H. exists so, m. split_and!; try reflexivity.
  apply negb_true_iff, bool_decide_eq_false in H. exact H.
Qed.

Lemma sorter_changed_cb_inv so w w' :
  sorter (self w) = Some so -> sorter_ok so ->
  (model (self w) = None -> items (self w) = []) ->
  gtk_tim2_sort_model_sorter_changed_cb so w = Some (tt, w') ->
  model_inv (self w').
Proof.
  intros Hso Hok Hnomodel H.
  unfold gtk_tim2_sort_model_sorter_changed_cb in H.
  destruct (bool_decide (gtk_sorter_get_order so = GTK_SORTER_ORDER_NONE)).
  - (* the sorter orders nothing: back to pass-through *)
    destruct (clear_items_spec true w) as (w1 & Hclear & _ & _ & Hm & Hs & Hi & Hcb & Hitems).
    unfold bind at 1 in H. rewrite Hclear in H.
    apply maybe_items_changed_self in H as (Hself & _).
    rewrite Hself. constructor.
    + intros _. exact Hitems.
    + intros _. exact Hcb.
    + intros so' Hso'. rewrite Hs, Hso in Hso'. injection Hso' as <-. exact Hok.
    + intros _ so' _. rewrite Hitems. constructor.
    + intros H0. contradiction.
  - unfold bind at 1 in H. rewrite bind_get_self in H.
    assert (Hcreate : exists w1,
              (if sort_array_is_empty (items (self w))
               then gtk_tim2_sort_model_create_items else ret tt) w = Some (tt, w1) /\
              sorter (self w1) = Some so /\
              (model (self w1) = None -> items (self w1) = [])).
    { destruct (sort_array_is_empty (items (self w))).
      - destruct (create_items_spec w) as (w1 & Hc & _ & _ & (Hc1 & Hc2 & _ & _) & _ & Hit).
        exists w1. split; [exact Hc |]. split; [congruence |].
        intros Hm. rewrite Hit.
        destruct (gtk_tim2_sort_model_should_sort (self w)) eqn:Hss.
        + apply should_sort_true in Hss as (? & m & _ & Hm' & _). congruence.
        + apply Hnomodel. congruence.
      - exists w. split; [reflexivity |]. split; assumption. }
    destruct Hcreate as (w1 & Hc & Hso1 & Hnomodel1).
    unfold bind at 1 in H. rewrite Hc in H.
    destruct (stop_sorting_spec w1) as (runs & w2 & Hstop & _ & _ & _ & (Hd1 & Hd2 & Hd3 & Hd4) & Hcb2 & _).
    unfold bind at 1 in H. rewrite Hstop in H.
    destruct (start_sorting_inv None w2) as (w3 & Hstart & _ & _ & _ & Hinc & Hsync).
    + exact Hcb2.
    + exact I.
    + intros so' Hso'. rewrite Hd2, Hso1 in Hso'. injection Hso' as <-. exact Hok.
    + intros Hm. rewrite Hd4. apply Hnomodel1. congruence.
    + unfold bind at 1 in H. rewrite Hstart in H.
      destruct (incremental (self w2)).
      * simpl in H. injection H as <-. apply Hinc. reflexivity.
      * destruct Hsync as (pn & w4 & Hfin & _ & _ & _ & _ & _ & _ & Hinv4); [reflexivity |].
        rewrite Hfin in H.
        apply maybe_items_changed_self in H as (Hself & _).
        rewrite Hself. exact Hinv4.
Qed.

Lemma set_sorter_inv so w w' :
  model_inv (self w) ->
  match so with Some x => sorter_ok x | None => True end ->
  gtk_tim2_sort_model_set_sorter so w = Some (tt, w') -> model_inv (self w').
Proof.
  intros Hinv Hok H. unfold gtk_tim2_sort_model_set_sorter in H.
  assert (Hclear : exists w1,
            gtk_tim2_sort_model_clear_sorter w = Some (tt, w1) /\
            self w1 = set_sorter_field None (self w)).
  { unfold gtk_tim2_sort_model_clear_sorter. rewrite bind_get_self.
    destruct (sorter (self w)) eqn:Hs.
    - eexists. split; reflexivity.
    - exists w. split; [reflexivity |]. destruct w as [s ? ? ? ? ? ?]. simpl in *.
      destruct s. simpl in *. subst. reflexivity. }
  destruct Hclear as (w1 & Hc & Hself1).
  unfold bind at 1 in H. rewrite Hc in H.
  destruct so as [new_sorter |].
  - rewrite bind_modify_self in H.
    apply sorter_changed_cb_inv in H; [exact H | reflexivity | exact Hok |].
    simpl. rewrite Hself1. simpl. apply (inv_no_model _ Hinv).
  - rewrite bind_get_self in H.
    apply maybe_items_changed_self in H as (Hself & _).
    rewrite Hself, Hself1. constructor; simpl.
    + apply (inv_no_model _ Hinv).
    + apply (inv_sync _ Hinv).
    + discriminate.
    + discriminate.
    + intros Hcb. destruct (inv_run _ Hinv Hcb) as (He & Ht & _).
      split_and!; [exact He | exact Ht | discriminate].
Qed.

Lemma sorter_changed_inv so w w' :
  model_inv (self w) -> sorter_ok so ->
  sorter_changed so w = Some (tt, w') -> model_inv (self w').
Proof.
  intros Hinv Hok H. unfold sorter_changed in H. rewrite bind_get_self in H.
  destruct (sorter (self w)) eqn:Hs.
  - rewrite bind_modify_self in H.
    apply sorter_changed_cb_inv in H; [exact H | reflexivity | exact Hok |].
    simpl. apply (inv_no_model _ Hinv).
  - injection H as <-. exact Hinv.
Qed.

Lemma clear_model_spec w :
  (model (self w) = None -> items (self w) = []) ->
  exists w1,
    gtk_tim2_sort_model_clear_model w = Some (tt, w1) /\
    emitted w1 = emitted w /\
    model (self w1) = None /\ items (self w1) = [] /\
    sorter (self w1) = sorter (self w) /\ incremental (self w1) = incremental (self w) /\
    (match model (self w) with Some _ => sort_cb (self w1) = 0%nat | None => w1 = w end).
Proof.
  intros Hnomodel. unfold gtk_tim2_sort_model_clear_model. rewrite bind_get_self.
  destruct (model (self w)) as [m |] eqn:Hm.
  - rewrite bind_modify_self.
    destruct (clear_items_spec false (with_self (set_model_field None (self w)) w))
      as (w1 & Hclear & He & _ & Hm1 & Hs1 & Hi1 & Hcb1 & Hitems1).
    unfold bind at 1. rewrite Hclear. unfold ret.
    exists w1. split; [reflexivity |]. simpl in *. split_and!; assumption.
  - exists w. split; [reflexivity |]. split_and!; auto.
Qed.

Lemma set_model_inv m w w' :
  model_inv (self w) ->
  gtk_tim2_sort_model_set_model m w = Some (tt, w') -> model_inv (self w').
Proof.
  intros Hinv H. unfold gtk_tim2_sort_model_set_model in H. rewrite bind_get_self in H.
  destruct (same_model (model (self w)) m) eqn:Hsame.
  - injection H as <-. exact Hinv.
  - destruct (clear_model_spec w (inv_no_model _ Hinv))
      as (w1 & Hclear & _ & Hm1 & Hitems1 & Hs1 & Hi1 & Hcb1).
    unfold bind at 1 in H. rewrite Hclear in H.
    apply bind_Some in H as (added & wa & Hadd & H).
    apply maybe_items_changed_self in H as (Hself & _). rewrite Hself. clear Hself.
    destruct m as [new_model |].
    + rewrite bind_modify_self in Hadd.
      set (w2 := with_self (set_model_field (Some new_model) (self w1)) w1) in *.
      destruct (create_items_spec w2) as (w3 & Hc & _ & _ & (Hc1 & Hc2 & Hc3 & Hc4) & _ & _).
      unfold bind at 1 in Hadd. rewrite Hc in Hadd.
      apply bind_Some in Hadd as (started & w4 & Hstart & Hadd).
      pose proof (start_sorting_Some _ _ _ _ Hstart) as Hcb3.
      destruct (start_sorting_inv None w3) as (w4' & Hstart' & _ & _ & _ & Hinc & Hsync).
      * exact Hcb3.
      * exact I.
      * intros so Hso. apply (inv_sorter _ Hinv). simpl in Hc2. congruence.
      * simpl in Hc1. rewrite Hc1. discriminate.
      * rewrite Hstart' in Hstart. injection Hstart as <- <-.
        destruct (incremental (self w3)).
        -- simpl in Hadd. injection Hadd as _ <-. apply Hinc. reflexivity.
        -- destruct Hsync as (pn & w5 & Hfin & _ & _ & _ & _ & _ & _ & Hinv5); [reflexivity |].
           apply bind_Some in Hadd as (u & w6 & Hf & Hadd).
           apply bind_Some in Hf as (pn' & w7 & Hf & Hret).
           rewrite Hfin in Hf. injection Hf as <- <-.
           injection Hret as _ <-. injection Hadd as _ <-. exact Hinv5.
    + injection Hadd as _ <-.
      destruct (model (self w)) as [old |] eqn:Hold; [| discriminate Hsame].
      constructor.
      * intros _. exact Hitems1.
      * intros _. exact Hcb1.
      * intros so Hso. apply (inv_sorter _ Hinv). congruence.
      * intros _ so _. rewrite Hitems1. constructor.
      * intros H0. contradiction.
Qed.

Lemma items_changed_cb_inv position removed added w w' :
  model_inv (self w) ->
  gtk_tim2_sort_model_items_changed_cb position removed added w = Some (tt, w') ->
  model_inv (self w').
Proof.
  intros Hinv H. unfold gtk_tim2_sort_model_items_changed_cb in H.
  destruct ((removed =? 0) && (added =? 0)); [injection H as <-; exact Hinv |].
  rewrite bind_get_self in H.
  destruct (gtk_tim2_sort_model_should_sort (self w)) eqn:Hss; cbn [negb] in H.
  2: { injection H as <-. exact Hinv. }
  apply should_sort_true in Hss as (so & m & Hso & Hm & _).
  destruct (stop_sorting_spec w)
    as (runs & w1 & Hstop & _ & _ & _ & (Hd1 & Hd2 & Hd3 & Hd4) & Hcb1 & Hidle).
  unfold bind at 1 in H. rewrite Hstop in H. rewrite bind_get_self in H.
  destruct (gtk_tim2_sort_model_update_items (items (self w1)) runs position removed added)
    as [r |] eqn:Hupd; [| discriminate].
  destruct (update_items_result _ _ _ _ _ _ Hupd) as (Hruns & n & Hitems).
  rewrite bind_modify_self, bind_unref_all in H.
  set (w2 := with_unreffed _ (with_self (set_items (ur_items r) (self w1)) w1)) in *.
  assert (Hm2 : model (self w2) = Some m) by (simpl; congruence).
  assert (Hs2 : sorter (self w2) = Some so) by (simpl; congruence).
  assert (Hi2 : incremental (self w2) = incremental (self w)) by (simpl; congruence).
  assert (Hcb2 : sort_cb (self w2) = 0%nat) by exact Hcb1.
  assert (Hok : forall so', Some so = Some so' -> sorter_ok so').
  { intros so' E. apply (inv_sorter _ Hinv). congruence. }
  assert (Hrok : runs_until_zero (ur_runs r) = []).
  { rewrite Hruns. apply runs_until_zero_reset. }
  apply bind_Some in H as (range & wr & Hrange & H).
  rewrite bind_get_self in H. injection H as <-. simpl self.
  assert (Hgoal : model_inv (self wr)); [| exact Hgoal].
  destruct (0 <? added).
  - (* elements were added: append them and sort *)
    rewrite bind_get_self, Hm2, bind_modify_self in Hrange.
    set (w3 := with_self _ w2) in *.
    destruct (start_sorting_inv (Some (ur_runs r)) w3) as (w4 & Hstart & _ & _ & _ & Hinc & Hsync).
    + exact Hcb2.
    + exact Hrok.
    + intros so' Hso'. apply Hok. simpl in Hso'. congruence.
    + simpl. rewrite Hd1, Hm. discriminate.
    + unfold bind at 1 in Hrange. rewrite Hstart in Hrange.
      destruct (incremental (self w3)).
      * injection Hrange as _ <-. apply Hinc. reflexivity.
      * destruct Hsync as (pn & w5 & Hfin & _ & _ & _ & _ & _ & _ & Hinv5); [reflexivity |].
        unfold bind at 1 in Hrange. rewrite Hfin in Hrange.
        rewrite bind_get_self in Hrange. injection Hrange as _ <-. exact Hinv5.
  - (* nothing was added: resume sorting only if a run was in flight *)
    destruct (gtk_tim2_sort_model_is_sorting (self w)) eqn:Hws.
    + apply is_sorting_true in Hws.
      assert (Hincr : incremental (self w) = true).
      { destruct (incremental (self w)) eqn:E; [reflexivity |].
        exfalso. apply Hws. apply (inv_sync _ Hinv). exact E. }
      destruct (start_sorting_inv (Some (ur_runs r)) w2) as (w4 & Hstart & _ & _ & _ & Hinc & _).
      * exact Hcb2.
      * exact Hrok.
      * intros so' Hso'. apply Hok. congruence.
      * rewrite Hm2. discriminate.
      * apply bind_Some in Hrange as (u & w5 & Hs & Hrange).
        apply bind_Some in Hs as (b & w6 & Hs & Hret).
        rewrite Hstart in Hs. injection Hs as _ <-.
        injection Hret as _ <-. injection Hrange as _ <-.
        apply Hinc. congruence.
    + apply is_sorting_false in Hws.
      injection Hrange as _ <-.
      rewrite (Hidle Hws) in *.
      constructor.
      * rewrite Hm2. discriminate.
      * intros _. exact Hcb2.
      * intros so' Hso'. apply Hok. congruence.
      * intros _ so' Hso'. simpl. rewrite Hitems.
        assert (so' = so) by congruence. subst so'.
        apply Sorted_omap_keep.
        -- apply (inv_sorter _ Hinv). exact Hso.
        -- apply update_item_keeps_item.
        -- apply Sorted_take. apply (inv_sorted _ Hinv Hws). exact Hso.
      * intros H0. contradiction.
Qed.

Lemma source_items_changed_inv position removed added w w' :
  model_inv (self w) ->
  source_items_changed position removed added w = Some (tt, w') -> model_inv (self w').
Proof.
  intros Hinv H. unfold source_items_changed in H. rewrite bind_get_self in H.
  destruct (model (self w)) as [m |] eqn:Hm.
  - rewrite bind_modify_self in H.
    apply items_changed_cb_inv in H; [exact H |].
    constructor; simpl.
    + discriminate.
    + apply (inv_sync _ Hinv).
    + apply (inv_sorter _ Hinv).
    + apply (inv_sorted _ Hinv).
    + apply (inv_run _ Hinv).
  - injection H as <-. exact Hinv.
Qed.

Lemma initial_world_inv clock : model_inv (self (initial_world clock)).
Proof.
  constructor; simpl; try discriminate; try reflexivity.
  intros H. contradiction.
Qed.

Lemma exec_inv o w w' :
  model_inv (self w) -> op_ok w o -> exec o w = Some (tt, w') -> model_inv (self w').
Proof.
  intros Hinv Hok H. destruct o as [m | so | b | position removed added | so |]; simpl in H.
  - eapply set_model_inv; eassumption.
  - eapply set_sorter_inv; [exact Hinv | | exact H]. destruct so; [exact Hok | exact I].
  - eapply set_incremental_inv; eassumption.
  - eapply source_items_changed_inv; eassumption.
  - eapply sorter_changed_inv; eassumption.
  - eapply idle_dispatch_inv; eassumption.
Qed.

Lemma reachable_inv clock w : reachable clock w -> model_inv (self w).
Proof.
  induction 1 as [| w o w' _ IH Hok Hexec].
  - apply initial_world_inv.
  - eapply exec_inv; eassumption.
Qed.

(** ** Reachability of concrete worlds *)

Lemma reachable_run_ops clock ops : forall w,
  reachable clock w -> ops_ok w ops -> reachable clock (run_ops ops w).
Proof.
  induction ops as [| o ops IH]; intros w Hr Hok; simpl; [exact Hr |].
  destruct Hok as (Hop & Hsome & Hrest).
  apply IH; [| exact Hrest].
  unfold next in *. destruct Hsome as [[[] w'] Hexec]. rewrite Hexec.
  eapply reachable_step; eassumption.
Qed.

Lemma ops_ok_cons w o ops w' :
  op_ok w o -> exec o w = Some (tt, w') -> ops_ok w' ops -> ops_ok w (o :: ops).
Proof.
  intros Hop Hexec Hrest. simpl. unfold next. rewrite Hexec.
  split_and!; [exact Hop | eexists; reflexivity | exact Hrest].
Qed.

Lemma numeric_sorter_ok : sorter_ok ascending_numeric.
Proof.
  split.
  - intros [a |] [b |]; unfold sorter_le; simpl; try (left; discriminate); try (right; discriminate).
    destruct (Z.compare_spec a b); try (left; discriminate).
    right. destruct (Z.compare_spec b a); try discriminate; lia.
  - intros [a |] [b |] [c |]; unfold sorter_le; simpl; try discriminate; try congruence.
    destruct (Z.compare_spec a b), (Z.compare_spec b c), (Z.compare_spec a c);
      try discriminate; try congruence; lia.
Qed.

Lemma Sorted_adjacent (R : relation SortItem) (l : SortArray) :
  Sorted R l -> forall i a b, l !! i = Some a -> l !! S i = Some b -> R a b.
Proof.
  induction 1 as [| x l Hs IH Hhd]; intros i a b Ha Hb; [discriminate |].
  destruct i as [| i]; simpl in *.
  - injection Ha as <-. destruct l as [| y l]; [discriminate |].
    injection Hb as <-. inversion Hhd; assumption.
  - eapply IH; eassumption.
Qed.

Lemma Sorted_buffer_sorted so (buf : SortArray) :
  Sorted (compare_le (sort_func (Some so))) buf -> buffer_sorted so buf.
Proof. intros Hs i a b Ha Hb. exact (Sorted_adjacent _ _ Hs i a b Ha Hb). Qed.

Lemma example_ops_sorted_53142 :
  ops_ok (initial_world example_clock)
    [SetModel (Some source_53142); SetSorter (Some ascending_numeric)].
Proof.
  eapply ops_ok_cons; [vm_compute; reflexivity | vm_compute; reflexivity |].
  eapply ops_ok_cons; [exact numeric_sorter_ok | vm_compute; reflexivity |].
  exact I.
Qed.

Lemma example_ops_merging :
  ops_ok (initial_world example_clock)
    [SetIncremental true; SetModel (Some source_53142);
     SetSorter (Some ascending_numeric); IdleDispatch; IdleDispatch].
Proof.
  eapply ops_ok_cons; [exact I | vm_compute; reflexivity |].
  eapply ops_ok_cons; [vm_compute; reflexivity | vm_compute; reflexivity |].
  eapply ops_ok_cons; [exact numeric_sorter_ok | vm_compute; reflexivity |].
  eapply ops_ok_cons; [exact I | vm_compute; reflexivity |].
  eapply ops_ok_cons; [exact I | vm_compute; reflexivity |].
  exact I.
Qed.

Lemma example_ops_in_flight :
  ops_ok (initial_world example_clock)
    [SetIncremental true; SetModel (Some source_53142);
     SetSorter (Some ascending_numeric); IdleDispatch].
Proof.
  eapply ops_ok_cons; [exact I | vm_compute; reflexivity |].
  eapply ops_ok_cons; [vm_compute; reflexivity | vm_compute; reflexivity |].
  eapply ops_ok_cons; [exact numeric_sorter_ok | vm_compute; reflexivity |].
  eapply ops_ok_cons; [exact I | vm_compute; reflexivity |].
  exact I.
Qed.

(** * The claims of the specification *)

(** C1. In synchronous mode, whenever sorting applies (a model and a sorter
    whose order is not NONE are attached), after any sequence of
    populations, source mutations and sorter changes that completed, no
    adjacent pair of the buffer compares greater.  In particular, for the
    source [[5; 3; 1; 4; 2]] and the ascending numeric comparator, reading
    the whole public sequence yields [[1; 2; 3; 4; 5]]. *)
Theorem sync_buffer_sorted :
  (forall clock w,
     reachable clock w ->
     incremental (self w) = false ->
     gtk_tim2_sort_model_should_sort (self w) = true ->
     exists so, sorter (self w) = Some so /\ buffer_sorted so (items (self w))) /\
  (exists w,
     exec_all [SetModel (Some source_53142); SetSorter (Some ascending_numeric)]
       (initial_world example_clock) = Some (tt, w) /\
     get_all (self w) = [Some 1; Some 2; Some 3; Some 4; Some 5]).
Proof.
  split.
  - intros clock w Hreach Hsync Hss.
    pose proof (reachable_inv clock w Hreach) as Hinv.
    apply should_sort_true in Hss as (so & m & Hso & _ & _).
    exists so. split; [exact Hso |].
    apply Sorted_buffer_sorted.
    apply (inv_sorted _ Hinv); [| exact Hso].
    apply (inv_sync _ Hinv). exact Hsync.
  - eexists. split; [vm_compute; reflexivity |]. vm_compute. reflexivity.
Qed.

Lemma sync_buffer_sorted_witness :
  exists so, sorter (self world_sorted_53142) = Some so /\
             buffer_sorted so (items (self world_sorted_53142)).
Proof.
  apply (proj1 sync_buffer_sorted example_clock world_sorted_53142).
  - apply reachable_run_ops; [apply reachable_init | exact example_ops_sorted_53142].
  - vm_compute. reflexivity.
  - vm_compute. reflexivity.
Defined.

(** C5. Switching the incremental flag from TRUE to FALSE while a sort run
    is in flight drains the run before [set_incremental] returns: the call
    completes, no sort callback is pending afterwards, the buffer holds the
    same items fully sorted by the attached sorter, and reading any index
    of the buffer through [get_item] observes that sorted order. *)
Theorem set_incremental_drains clock w :
  reachable clock w ->
  incremental (self w) = true ->
  sort_cb (self w) <> 0%nat ->
  exists w',
    gtk_tim2_sort_model_set_incremental false w = Some (tt, w') /\
    sort_cb (self w') = 0%nat /\
    gtk_tim2_sort_model_is_sorting (self w') = false /\
    incremental (self w') = false /\
    items (self w') ≡ₚ items (self w) /\
    (forall so, sorter (self w') = Some so -> buffer_sorted so (items (self w'))) /\
    (forall i si, items (self w') !! i = Some si ->
       gtk_tim2_sort_model_get_item (self w') (Z.of_nat i) = si_item si).
Proof.
  intros Hreach Hinc Hcb.
  pose proof (reachable_inv clock w Hreach) as Hinv.
  destruct (set_incremental_false_drains w Hinv Hinc Hcb)
    as (w' & Hrun & Hcb' & Hinc' & Hm & Hs & Hperm & Hinv').
  exists w'. split_and!; try assumption.
  - apply is_sorting_false. exact Hcb'.
  - intros so Hso. apply Sorted_buffer_sorted. apply (inv_sorted _ Hinv' Hcb' so Hso).
  - intros i si Hi. unfold gtk_tim2_sort_model_get_item.
    destruct (model (self w')) as [m |] eqn:Hm'.
    + destruct (items (self w')) as [| x l] eqn:Hitems; [discriminate |].
      simpl sort_array_is_empty. cbv iota.
      apply lookup_lt_Some in Hi as Hlt. unfold sort_array_get_size.
      destruct (Z.leb_spec (Z.of_nat (length (x :: l))) (Z.of_nat i)); [lia |].
      rewrite Nat2Z.id, Hi. reflexivity.
    + rewrite (inv_no_model _ Hinv' Hm') in Hi. discriminate.
Qed.

Lemma set_incremental_drains_witness :
  exists w',
    gtk_tim2_sort_model_set_incremental false world_in_flight = Some (tt, w') /\
    sort_cb (self w') = 0%nat /\
    gtk_tim2_sort_model_is_sorting (self w') = false /\
    incremental (self w') = false /\
    items (self w') ≡ₚ items (self world_in_flight) /\
    (forall so, sorter (self w') = Some so -> buffer_sorted so (items (self w'))) /\
    (forall i si, items (self w') !! i = Some si ->
       gtk_tim2_sort_model_get_item (self w') (Z.of_nat i) = si_item si).
Proof.
  apply (set_incremental_drains example_clock world_in_flight).
  - apply reachable_run_ops; [apply reachable_init | exact example_ops_in_flight].
  - vm_compute. reflexivity.
  - vm_compute. discriminate.
Defined.

(** C6. A source change event with [removed = 0] and [added = 0] is a
    no-op: the handler returns at once, leaving the model, its engine and
    its buffer as they were and emitting no notification. *)
Theorem items_changed_zero_is_noop position w :
  gtk_tim2_sort_model_items_changed_cb position 0 0 w = Some (tt, w).
Proof. reflexivity. Qed.

(** C7. In every state the model reaches, [get_item] returns NULL for an
    index at or beyond the size of a non-empty buffer, the item stored at
    the index for an index inside the buffer, and, when the buffer is
    empty, what the source model returns for the index. *)
Theorem get_item_in_and_out_of_range clock w position :
  reachable clock w ->
  0 <= position ->
  (items (self w) <> [] -> Z.of_nat (length (items (self w))) <= position ->
     gtk_tim2_sort_model_get_item (self w) position = None) /\
  (forall si, items (self w) !! Z.to_nat position = Some si ->
     gtk_tim2_sort_model_get_item (self w) position = si_item si) /\
  (items (self w) = [] -> forall m, model (self w) = Some m ->
     gtk_tim2_sort_model_get_item (self w) position = g_list_model_get_item m position).
Proof.
  intros Hreach Hpos.
  pose proof (reachable_inv clock w Hreach) as Hinv.
  unfold gtk_tim2_sort_model_get_item, sort_array_get_size.
  split_and!.
  - intros Hne Hge. destruct (model (self w)); [| reflexivity].
    destruct (items (self w)) as [| x l]; [contradiction |].
    simpl sort_array_is_empty. cbv iota.
    destruct (Z.leb_spec (Z.of_nat (length (x :: l))) position); [reflexivity | lia].
  - intros si Hi. destruct (model (self w)) as [m |] eqn:Hm.
    + destruct (items (self w)) as [| x l] eqn:Hitems; [discriminate |].
      simpl sort_array_is_empty. cbv iota.
      apply lookup_lt_Some in Hi as Hlt.
      destruct (Z.leb_spec (Z.of_nat (length (x :: l))) position); [lia |].
      rewrite Hi. reflexivity.
    + rewrite (inv_no_model _ Hinv Hm) in Hi. discriminate.
  - intros Hempty m Hm. rewrite Hm, Hempty. reflexivity.
Qed.

Lemma get_item_in_and_out_of_range_witness :
  (items (self world_sorted_53142) <> [] ->
     Z.of_nat (length (items (self world_sorted_53142))) <= 7 ->
     gtk_tim2_sort_model_get_item (self world_sorted_53142) 7 = None) /\
  (forall si, items (self world_sorted_53142) !! Z.to_nat 7 = Some si ->
     gtk_tim2_sort_model_get_item (self world_sorted_53142) 7 = si_item si) /\
  (items (self world_sorted_53142) = [] -> forall m, model (self world_sorted_53142) = Some m ->
     gtk_tim2_sort_model_get_item (self world_sorted_53142) 7 = g_list_model_get_item m 7).
Proof.
  apply (get_item_in_and_out_of_range example_clock world_sorted_53142 7).
  - apply reachable_run_ops; [apply reachable_init | exact example_ops_sorted_53142].
  - lia.
Defined.

(** C10. Without a source model the public sequence is empty: its length
    is 0 and [get_item] returns NULL for every index. *)
Theorem no_model_is_empty s :
  model s = None ->
  gtk_tim2_sort_model_get_n_items s = 0 /\
  forall position, gtk_tim2_sort_model_get_item s position = None.
Proof.
  intros Hm. unfold gtk_tim2_sort_model_get_n_items, gtk_tim2_sort_model_get_item.
  rewrite Hm. split; [reflexivity |]. intros position. reflexivity.
Qed.

Lemma no_model_is_empty_witness :
  gtk_tim2_sort_model_get_n_items gtk_tim2_sort_model_init = 0 /\
  forall position, gtk_tim2_sort_model_get_item gtk_tim2_sort_model_init position = None.
Proof. apply (no_model_is_empty gtk_tim2_sort_model_init). reflexivity. Defined.

Lemma outside_range_untouched pos n (changes : list GtkTimSortRun) (i : nat) :
  smallest_range pos n changes ->
  Z.of_nat i < pos \/ pos + n <= Z.of_nat i ->
  untouched changes i.
Proof.
  intros [Hsome _] Hout c Hc.
  destruct (Nat.eq_dec (run_len c) 0%nat) as [Hz | Hnz]; [lia |].
  destruct Hsome as (lo & hi & -> & -> & _ & Hcov & _).
  { apply Exists_exists. exists c. split; [exact Hc | exact Hnz]. }
  destruct (Hcov c Hc Hnz). lia.
Qed.

(** C8. Each incremental sort step (one run of the idle callback while a
    sort is in flight) returns the smallest range [(pos, n)] that contains
    every change of non-zero length reported by the engine steps it ran,
    which is [(0, 0)] when no step moved anything; the callback emits
    exactly that range as its change notification (and nothing when the
    range is empty), and no buffer position outside the range changed. *)
Theorem sort_step_reports_touched_range clock w :
  reachable clock w ->
  sort_cb (self w) <> 0%nat ->
  Z.of_nat (length (items (self w))) < guint_modulus ->
  exists continue w' w1 changes res pos n,
    gtk_tim2_sort_model_sort_step false w = Some ((res, pos, n), w1) /\
    gtk_tim2_sort_model_sort_cb w = Some (continue, w') /\
    merges w' = merges w ++ changes /\
    smallest_range pos n changes /\
    emitted w' = emitted w ++
      (if n =? 0 then []
       else [{| ic_position := pos; ic_removed := n; ic_added := n |}]) /\
    (forall i : nat, Z.of_nat i < pos \/ pos + n <= Z.of_nat i ->
       items (self w') !! i = items (self w) !! i).
Proof.
  intros Hreach Hcb Hsize.
  pose proof (reachable_inv clock w Hreach) as Hinv.
  destruct (inv_run _ Hinv Hcb) as (Heng & Htot & _).
  destruct (sort_cb_spec w Heng Htot)
    as (continue & w' & w1 & changes & res & Hstep & Hrun & Hmerges & Hem & _ & _ & _ & _ &
        Hbounds & Hframe & _ & _).
  cbv zeta in Hstep, Hem.
  pose proof (sort_step_range (length (items (self w))) changes Hsize Hbounds) as Hrange.
  cbv zeta in Hrange.
  eexists continue, w', w1, changes, res, _, _.
  split; [exact Hstep |]. split; [exact Hrun |]. split; [exact Hmerges |].
  split; [exact Hrange |]. split; [exact Hem |].
  intros i Hi. apply Hframe. eapply outside_range_untouched; [exact Hrange | exact Hi].
Qed.

Lemma sort_step_reports_touched_range_witness :
  exists continue w' w1 changes res,
    gtk_tim2_sort_model_sort_step false world_merging = Some ((res, 1, 4), w1) /\
    gtk_tim2_sort_model_sort_cb world_merging = Some (continue, w') /\
    merges w' = merges world_merging ++ changes /\
    smallest_range 1 4 changes /\
    emitted w' = emitted world_merging ++
      [{| ic_position := 1; ic_removed := 4; ic_added := 4 |}] /\
    (forall i : nat, Z.of_nat i < 1 \/ 1 + 4 <= Z.of_nat i ->
       items (self w') !! i = items (self world_merging) !! i).
Proof.
  destruct (sort_step_reports_touched_range example_clock world_merging)
    as (continue & w' & w1 & changes & res & pos & n & Hstep & Hcb & Hm & Hr & He & Hf).
  - apply reachable_run_ops; [apply reachable_init | exact example_ops_merging].
  - vm_compute. discriminate.
  - vm_compute. reflexivity.
  - assert (Hpn : pos = 1 /\ n = 4).
    { pose proof Hstep as Hv. vm_compute in Hv.
      injection Hv as _ Hpos Hn _. split; symmetry; assumption. }
    destruct Hpn as [-> ->].
    exists continue, w', w1, changes, res.
    split; [exact Hstep |]. split; [exact Hcb |]. split; [exact Hm |].
    split; [exact Hr |]. split; [exact He | exact Hf].
Defined.

(** ** The range reported when the buffer is cleared *)

Lemma clear_items_start_spec (a : SortArray) : forall k,
  let s := clear_items_start a k in
  (k <= s <= k + length a)%nat /\
  (forall j si, (k + j < s)%nat -> a !! j = Some si -> si_position si = Z.of_nat (k + j)) /\
  ((s < k + length a)%nat ->
     exists si, a !! (s - k)%nat = Some si /\ si_position si <> Z.of_nat s).
Proof.
  induction a as [| x a IH]; intros k; simpl.
  - split_and!; try lia.
  - destruct (Z.eqb_spec (si_position x) (Z.of_nat k)) as [E | E].
    + destruct (IH (S k)) as (H1 & H2 & H3). split_and!; try lia.
      * intros [| j] si Hj Hl; simpl in Hl.
        -- injection Hl as <-. rewrite Nat.add_0_r. exact E.
        -- replace (k + S j)%nat with (S k + j)%nat by lia. apply H2; [lia | exact Hl].
      * intros Hlt. destruct H3 as (si & Hsi & Hne); [lia |].
        exists si. split; [| exact Hne].
        replace (clear_items_start a (S k) - k)%nat
          with (S (clear_items_start a (S k) - S k)) by lia.
        exact Hsi.
    + split_and!; try lia.
      intros _. exists x. rewrite Nat.sub_diag. split; [reflexivity | exact E].
Qed.

Lemma clear_items_end_spec (a : SortArray) (start : nat) : forall e,
  (e <= length a)%nat -> (start <= e)%nat ->
  let h := clear_items_end a start e in
  (start <= h <= e)%nat /\
  (forall i si, (h <= i < e)%nat -> a !! i = Some si -> si_position si = Z.of_nat i) /\
  ((start < h)%nat ->
     exists si, a !! (h - 1)%nat = Some si /\ si_position si <> Z.of_nat (h - 1)).
Proof.
  induction e as [| e IH]; intros He Hs; simpl.
  - split_and!; try lia.
  - destruct (Nat.ltb_spec start (S e)) as [Hlt | Hge].
    + destruct (a !! e) as [si |] eqn:Hsi.
      * destruct (Z.eqb_spec (si_position si) (Z.of_nat e)) as [E | E].
        -- destruct IH as (H1 & H2 & H3); [lia | lia |]. split_and!; try lia.
           ++ intros i si' Hi Hl. destruct (Nat.eq_dec i e) as [-> | Hne].
              ** rewrite Hsi in Hl. injection Hl as <-. exact E.
              ** apply H2; [lia | exact Hl].
           ++ exact H3.
        -- split_and!; try lia.
           intros _. exists si. simpl. rewrite Nat.sub_0_r. split; [exact Hsi | exact E].
      * apply lookup_ge_None in Hsi. lia.
    + split_and!; try lia.
Qed.

(** C4, as the code has it.  When the attached sorter reports the order
    NONE through its change signal, the buffer is cleared to pass-through
    mode and the notification emitted covers the range [[lo, hi)] from the
    first to the last buffer index whose item is not at its original
    position; when every item already is at its original position
    ([lo = hi]) nothing is emitted. *)
Theorem order_none_clears_and_reports_displaced_range so old w :
  sorter (self w) = Some old ->
  gtk_sorter_get_order so = GTK_SORTER_ORDER_NONE ->
  Z.of_nat (length (items (self w))) < guint_modulus ->
  exists w' (lo hi : nat),
    sorter_changed so w = Some (tt, w') /\
    items (self w') = [] /\ sort_cb (self w') = 0%nat /\
    (lo <= hi <= length (items (self w)))%nat /\
    (forall i si, items (self w) !! i = Some si -> (i < lo \/ hi <= i)%nat ->
       si_position si = Z.of_nat i) /\
    ((lo < hi)%nat ->
       (exists si, items (self w) !! lo = Some si /\ si_position si <> Z.of_nat lo) /\
       (exists si, items (self w) !! (hi - 1)%nat = Some si /\
                   si_position si <> Z.of_nat (hi - 1))) /\
    emitted w' = emitted w ++
      (if (lo <? hi)%nat
       then [{| ic_position := Z.of_nat lo;
                ic_removed := Z.of_nat hi - Z.of_nat lo;
                ic_added := Z.of_nat hi - Z.of_nat lo |}]
       else []).
Proof.
  intros Hold Horder Hsize.
  unfold sorter_changed. rewrite bind_get_self, Hold, bind_modify_self.
  set (w0 := with_self (set_sorter_field (Some so) (self w)) w).
  unfold gtk_tim2_sort_model_sorter_changed_cb.
  rewrite (bool_decide_eq_true_2 _ Horder).
  destruct (clear_items_spec true w0) as (w1 & Hclear & He & _ & _ & _ & _ & Hcb & Hitems).
  unfold bind at 1. rewrite Hclear. cbv zeta.
  change (items (self w0)) with (items (self w)).
  change (emitted w0) with (emitted w) in He.
  set (lo := clear_items_start (items (self w)) 0).
  destruct (clear_items_start_spec (items (self w)) 0%nat) as (S1 & S2 & S3). fold lo in S1, S2, S3.
  set (hi := clear_items_end (items (self w)) lo (length (items (self w)))).
  destruct (clear_items_end_spec (items (self w)) lo (length (items (self w))))
    as (E1 & E2 & E3); [lia | lia |]. fold hi in E1, E2, E3.
  assert (Hn : guint (Z.of_nat hi - Z.of_nat lo) = Z.of_nat hi - Z.of_nat lo).
  { apply guint_small. unfold is_guint. lia. }
  rewrite Hn. cbn [fst snd].
  assert (Hem : forall w', 
            (if 0 <? Z.of_nat hi - Z.of_nat lo
             then g_list_model_items_changed
                    (if Z.of_nat hi - Z.of_nat lo =? 0 then 0 else Z.of_nat lo)
                    (Z.of_nat hi - Z.of_nat lo) (Z.of_nat hi - Z.of_nat lo)
             else ret tt) w1 = Some (tt, w') ->
            self w' = self w1 /\
            emitted w' = emitted w ++
              (if (lo <? hi)%nat
               then [{| ic_position := Z.of_nat lo;
                        ic_removed := Z.of_nat hi - Z.of_nat lo;
                        ic_added := Z.of_nat hi - Z.of_nat lo |}]
               else [])).
  { intros w' H. apply maybe_items_changed_self in H as (Hself & _ & Hemit).
    split; [exact Hself |]. rewrite Hemit, He.
    destruct (Z.ltb_spec 0 (Z.of_nat hi - Z.of_nat lo)), (Nat.ltb_spec lo hi); try lia.
    - destruct (Z.eqb_spec (Z.of_nat hi - Z.of_nat lo) 0); [lia | reflexivity].
    - reflexivity. }
  assert (Hleft : forall i si, items (self w) !! i = Some si -> (i < lo \/ hi <= i)%nat ->
            si_position si = Z.of_nat i).
  { intros i si Hi [Hlo | Hhi].
    - apply (S2 i si); [lia | exact Hi].
    - apply (E2 i si); [| exact Hi]. apply lookup_lt_Some in Hi. lia. }
  assert (Hends : (lo < hi)%nat ->
            (exists si, items (self w) !! lo = Some si /\ si_position si <> Z.of_nat lo) /\
            (exists si, items (self w) !! (hi - 1)%nat = Some si /\
                        si_position si <> Z.of_nat (hi - 1))).
  { intros Hlt. split.
    - destruct S3 as (si & Hsi & Hne); [lia |]. rewrite Nat.sub_0_r in Hsi. eauto.
    - apply E3. exact Hlt. }
  assert (Hrange : (lo <= hi <= length (items (self w)))%nat) by lia.
  destruct (0 <? Z.of_nat hi - Z.of_nat lo) eqn:Hpos.
  - eexists _, lo, hi. split; [reflexivity |].
    destruct (Hem _ eq_refl) as (Hself & Hemit).
    split; [rewrite Hself; exact Hitems |].
    split; [rewrite Hself; exact Hcb |].
    split_and!; try assumption; lia.
  - exists w1, lo, hi. split; [reflexivity |].
    destruct (Hem _ eq_refl) as (_ & Hemit).
    split_and!; try assumption; lia.
Qed.

Lemma order_none_clears_and_reports_displaced_range_witness :
  exists w' (lo hi : nat),
    sorter_changed no_order world_sorted_132 = Some (tt, w') /\
    items (self w') = [] /\ sort_cb (self w') = 0%nat /\
    (lo <= hi <= length (items (self world_sorted_132)))%nat /\
    (forall i si, items (self world_sorted_132) !! i = Some si -> (i < lo \/ hi <= i)%nat ->
       si_position si = Z.of_nat i) /\
    ((lo < hi)%nat ->
       (exists si, items (self world_sorted_132) !! lo = Some si /\
                   si_position si <> Z.of_nat lo) /\
       (exists si, items (self world_sorted_132) !! (hi - 1)%nat = Some si /\
                   si_position si <> Z.of_nat (hi - 1))) /\
    emitted w' = emitted world_sorted_132 ++
      (if (lo <? hi)%nat
       then [{| ic_position := Z.of_nat lo;
                ic_removed := Z.of_nat hi - Z.of_nat lo;
                ic_added := Z.of_nat hi - Z.of_nat lo |}]
       else []).
Proof.
  apply (order_none_clears_and_reports_displaced_range no_order ascending_numeric
           world_sorted_132).
  - vm_compute. reflexivity.
  - reflexivity.
  - vm_compute. reflexivity.
Defined.

(** C4, as the specification words it, fails: for the source [[1; 3; 2]]
    sorted ascending, the buffer holds three items, and when the sorter
    turns to the order NONE the notification emitted is [(1, 2, 2)], not
    the full range [(0, 3, 3)]. *)
Lemma full_range_notification_counterexample :
  ~ clears_with_full_range no_order world_sorted_132.
Proof.
  intros (w' & Hrun & _ & Hem).
  vm_compute in Hrun. injection Hrun as <-.
  vm_compute in Hem. discriminate Hem.
Qed.

(** C3 at its failing input.  After the sorter is detached, the source
    loses an element and the sorter is attached again, sorting applies and
    the buffer is not empty, yet it still holds the three items of the old
    source while the source (and the reported length) has two.  Population
    and mutation handling themselves keep the buffer consistent (see
    [create_items_loop_source] and [items_changed_cb_keeps_I1]); it is
    [gtk_tim2_sort_model_set_sorter] with a NULL sorter that leaves the
    buffer behind. *)
Lemma stale_buffer_after_sorter_reattached :
  ops_ok (initial_world example_clock) stale_buffer_ops /\
  reachable example_clock world_stale_buffer /\
  gtk_tim2_sort_model_should_sort (self world_stale_buffer) = true /\
  length (items (self world_stale_buffer)) = 3%nat /\
  gtk_tim2_sort_model_get_n_items (self world_stale_buffer) = 2 /\
  get_all (self world_stale_buffer) = [Some 1; Some 3].
Proof.
  assert (Hok : ops_ok (initial_world example_clock) stale_buffer_ops).
  { unfold stale_buffer_ops.
    eapply ops_ok_cons; [vm_compute; reflexivity | vm_compute; reflexivity |].
    eapply ops_ok_cons; [exact numeric_sorter_ok | vm_compute; reflexivity |].
    eapply ops_ok_cons; [exact I | vm_compute; reflexivity |].
    eapply ops_ok_cons;
      [vm_compute; split_and!; try reflexivity; intros H; discriminate H
      | vm_compute; reflexivity |].
    eapply ops_ok_cons; [exact numeric_sorter_ok | vm_compute; reflexivity |].
    exact I. }
  split; [exact Hok |].
  split; [apply reachable_run_ops; [apply reachable_init | exact Hok] |].
  split_and!; vm_compute; reflexivity.
Qed.

Lemma update_items_translates_witness :
  (Z.of_nat (length (dropped_items 2 1 buffer_53142)) = 1 ->
     exists r, gtk_tim2_sort_model_update_items buffer_53142 [5%nat; 0%nat] 2 1 0 = Some r
       /\ ur_items r = translate_items 2 1 0 buffer_53142
       /\ ur_unrefs r = omap si_item (dropped_items 2 1 buffer_53142)) /\
  (Z.of_nat (length (dropped_items 2 1 buffer_53142)) <> 1 ->
     gtk_tim2_sort_model_update_items buffer_53142 [5%nat; 0%nat] 2 1 0 = None).
Proof.
  apply (update_items_translates buffer_53142 [5%nat; 0%nat] 2 1 0).
  unfold edit_in_range, is_guint, guint_modulus, buffer_53142. simpl.
  split_and!; try lia.
  repeat constructor; simpl; lia.
Defined.

Lemma update_items_assertion_holds_witness :
  exists r, gtk_tim2_sort_model_update_items buffer_53142 [5%nat; 0%nat] 2 1 0 = Some r
    /\ Z.of_nat (length (dropped_items 2 1 buffer_53142)) = 1
    /\ Z.of_nat (length (ur_items r)) = Z.of_nat (length [5; 3; 1; 4; 2]) - 1
    /\ Forall sub_ok (ur_subs r).
Proof.
  apply (update_items_assertion_holds buffer_53142 [5; 3; 1; 4; 2] [5%nat; 0%nat] 2 1 0).
  - unfold I1. refine (bool_decide_unpack _ _). vm_compute. exact I.
  - unfold guint_modulus. simpl. lia.
  - lia.
  - lia.
  - simpl. lia.
Defined.

(** ** Mutation handling keeps the buffer consistent with the source *)

Lemma fold_append {I : Type} (g : I -> SortItem) (l : list I) : forall a : SortArray,
  fold_left (fun a i => sort_array_append a (g i)) l a = a ++ map g l.
Proof.
  induction l as [| i l IH]; intros a; simpl.
  - rewrite app_nil_r. reflexivity.
  - rewrite IH. unfold sort_array_append. rewrite <- app_assoc. reflexivity.
Qed.

Lemma map_seq_shift {B : Type} (f f' : nat -> B) k : forall s s',
  (forall j, (j < k)%nat -> f (s + j)%nat = f' (s' + j)%nat) ->
  map f (seq s k) = map f' (seq s' k).
Proof.
  induction k as [| k IH]; intros s s' H; simpl; [reflexivity |].
  f_equal.
  - specialize (H 0%nat). rewrite !Nat.add_0_r in H. apply H. lia.
  - apply IH. intros j Hj. specialize (H (S j)).
    replace (S s + j)%nat with (s + S j)%nat by lia.
    replace (S s' + j)%nat with (s' + S j)%nat by lia. apply H. lia.
Qed.

Lemma Permutation_of_eq (l l' : SortArray) : l = l' -> l ≡ₚ l'.
Proof. intros ->. reflexivity. Qed.

(** Populating an empty buffer yields the items of the source in source
    order, so I1 holds after population. *)
Lemma create_items_loop_source m :
  create_items_loop m (length (model_items m)) [] = source_items (model_items m).
Proof.
  unfold create_items_loop, source_items. rewrite fold_append. simpl.
  apply map_ext. intros i. unfold g_list_model_get_item.
  destruct (Z.ltb_spec (Z.of_nat i) 0); [lia |]. rewrite Nat2Z.id. reflexivity.
Qed.

Section translate_source.
Variable old : list GObject.
Variables p r a : nat.
Hypothesis Hwindow : (p + r <= length old)%nat.

Let P := Z.of_nat p.
Let R := Z.of_nat r.
Let A := Z.of_nat a.
Let g := fun i : nat => {| si_item := old !! i; si_position := Z.of_nat i |}.
Let shifted := fun i : nat => {| si_item := old !! i; si_position := Z.of_nat i - R + A |}.

Lemma translate_before k : forall s,
  (s + k <= p)%nat -> omap (translate_item P R A) (map g (seq s k)) = map g (seq s k).
Proof.
  induction k as [| k IH]; intros s Hs; csimpl; [reflexivity |].
  unfold translate_item at 1. simpl. unfold P, R.
  destruct (Z.leb_spec (Z.of_nat p + Z.of_nat r) (Z.of_nat s)); [lia |].
  destruct (Z.leb_spec (Z.of_nat p) (Z.of_nat s)); [lia |].
  fold P R. rewrite IH by lia. reflexivity.
Qed.

Lemma translate_inside k : forall s,
  (p <= s)%nat -> (s + k <= p + r)%nat ->
  omap (translate_item P R A) (map g (seq s k)) = [].
Proof.
  induction k as [| k IH]; intros s Hs Hk; csimpl; [reflexivity |].
  unfold translate_item at 1. simpl. unfold P, R.
  destruct (Z.leb_spec (Z.of_nat p + Z.of_nat r) (Z.of_nat s)); [lia |].
  destruct (Z.leb_spec (Z.of_nat p) (Z.of_nat s)); [| lia].
  fold P R. apply IH; lia.
Qed.

Lemma translate_after k : forall s,
  (p + r <= s)%nat ->
  omap (translate_item P R A) (map g (seq s k)) = map shifted (seq s k).
Proof.
  induction k as [| k IH]; intros s Hs; csimpl; [reflexivity |].
  unfold translate_item at 1. simpl. unfold P, R.
  destruct (Z.leb_spec (Z.of_nat p + Z.of_nat r) (Z.of_nat s)); [| lia].
  fold P R. rewrite IH by lia. reflexivity.
Qed.

Variable added : list GObject.
Hypothesis Hadded : length added = a.

Let new := splice old P (Z.of_nat r) added.
Let g' := fun i : nat => {| si_item := new !! i; si_position := Z.of_nat i |}.

Lemma splice_parts :
  new = take p old ++ added ++ drop (p + r) old.
Proof.
  unfold new, splice, P. rewrite <- Nat2Z.inj_add, !Nat2Z.id. reflexivity.
Qed.

Lemma splice_length : length new = (p + a + (length old - (p + r)))%nat.
Proof.
  rewrite splice_parts, !length_app, length_take, length_drop. lia.
Qed.

(** The translated items of the old source, together with the items of the
    added elements, are the items of the new source. *)
Lemma translate_source_items :
  translate_items P R A (source_items old) ++ map g' (seq p a)
  ≡ₚ source_items new.
Proof.
  set (k := (length old - (p + r))%nat).
  unfold translate_items, source_items. rewrite splice_length. fold k. fold g g'.
  replace (length old) with (p + (r + k))%nat by (unfold k; lia).
  rewrite !seq_app, !map_app, !omap_app.
  rewrite translate_before by lia.
  rewrite translate_inside by lia.
  rewrite translate_after by lia.
  cbn [app Nat.add].
  rewrite <- !app_assoc. apply Permutation_app.
  - apply Permutation_of_eq. apply map_seq_shift. intros j Hj. unfold g, g'. simpl. f_equal.
    rewrite splice_parts. rewrite lookup_app_l by (rewrite length_take; lia).
    rewrite lookup_take_lt by lia. reflexivity.
  - rewrite Permutation_app_comm. apply Permutation_app; [reflexivity |].
    apply Permutation_of_eq. apply map_seq_shift. intros j Hj. unfold shifted, g'. f_equal.
    + rewrite splice_parts.
      rewrite lookup_app_r by (rewrite length_take; lia).
      rewrite lookup_app_r by (rewrite length_take; lia).
      rewrite lookup_drop. f_equal. rewrite length_take. lia.
    + unfold R, A. lia.
Qed.

End translate_source.

Lemma I1_positions (items_ : SortArray) old :
  I1 items_ old ->
  Forall (fun si => 0 <= si_position si < Z.of_nat (length old)) items_.
Proof.
  intros HI. unfold I1 in HI. symmetry in HI.
  apply (Permutation_Forall HI). unfold source_items.
  apply Forall_forall. intros si Hsi. apply list_elem_of_In in Hsi.
  apply in_map_iff in Hsi as (i & <- & Hi). apply in_seq in Hi. simpl. lia.
Qed.

Lemma I1_after_edit (items_ : SortArray) old (p r : nat) added :
  I1 items_ old -> (p + r <= length old)%nat ->
  translate_items (Z.of_nat p) (Z.of_nat r) (Z.of_nat (length added)) items_
    ++ map (fun i : nat =>
              {| si_item := splice old (Z.of_nat p) (Z.of_nat r) added !! i;
                 si_position := Z.of_nat i |}) (seq p (length added))
  ≡ₚ source_items (splice old (Z.of_nat p) (Z.of_nat r) added).
Proof.
  intros HI Hw.
  rewrite <- (translate_source_items old p r (length added) Hw added eq_refl).
  apply Permutation_app_tail. unfold translate_items. rewrite HI. reflexivity.
Qed.

Lemma append_added_items m position (a : nat) (arr : SortArray) :
  0 <= position -> position + Z.of_nat a < guint_modulus ->
  append_added m position (Z.of_nat a) arr
  = arr ++ map (fun i : nat => {| si_item := model_items m !! i; si_position := Z.of_nat i |})
             (seq (Z.to_nat position) a).
Proof.
  intros Hp Hsum. unfold append_added. rewrite fold_append. f_equal.
  rewrite guint_small by (unfold is_guint; lia).
  replace (position + Z.of_nat a - position) with (Z.of_nat a) by lia.
  unfold seqZ. rewrite Nat2Z.id. rewrite <- list_fmap_compose.
  apply map_seq_shift. intros j Hj. simpl.
  unfold g_list_model_get_item.
  destruct (Z.ltb_spec (Z.of_nat j + position) 0); [lia |].
  f_equal; [f_equal |]; lia.
Qed.

Lemma splice_nothing (old : list GObject) position :
  splice old position 0 [] = old.
Proof. unfold splice. rewrite Z.add_0_r. simpl. apply take_drop. Qed.

(** Handling a source edit from a buffer that satisfies I1 leaves a buffer
    that satisfies I1 for the edited source: the handler returns, and the
    buffer again holds exactly one item per source element, at its
    position. *)
Lemma items_changed_cb_keeps_I1 w m old position removed added :
  model_inv (self w) ->
  model (self w) = Some m ->
  model_items m = splice old position removed added ->
  gtk_tim2_sort_model_should_sort (self w) = true ->
  I1 (items (self w)) old ->
  0 <= position -> 0 <= removed ->
  position + removed <= Z.of_nat (length old) ->
  Z.of_nat (length old) < guint_modulus ->
  Z.of_nat (length old) - removed + Z.of_nat (length added) < guint_modulus ->
  exists w',
    gtk_tim2_sort_model_items_changed_cb position removed (Z.of_nat (length added)) w
      = Some (tt, w') /\
    model (self w') = Some m /\
    I1 (items (self w')) (model_items m).
Proof.
  intros Hinv Hm Hnew Hss HI Hp Hr Hw Hold Hfit.
  unfold gtk_tim2_sort_model_items_changed_cb.
  destruct ((removed =? 0) && (Z.of_nat (length added) =? 0)) eqn:Hzero.
  { apply andb_prop in Hzero as [Hr0 Ha0].
    apply Z.eqb_eq in Hr0. apply Z.eqb_eq in Ha0.
    assert (added = []) by (destruct added; [reflexivity | simpl in Ha0; lia]).
    subst. rewrite splice_nothing in Hnew.
    exists w. split; [reflexivity |]. split; [exact Hm |]. rewrite Hnew. exact HI. }
  rewrite bind_get_self, Hss. cbn [negb].
  pose proof Hss as Hss'. apply should_sort_true in Hss' as (so & m' & Hso & Hm' & _).
  destruct (stop_sorting_spec w)
    as (runs & w1 & Hstop & _ & _ & _ & (Hd1 & Hd2 & Hd3 & Hd4) & Hcb1 & Hidle).
  unfold bind at 1. rewrite Hstop. rewrite bind_get_self.
  set (A := Z.of_nat (length added)).
  set (p := Z.to_nat position). set (r := Z.to_nat removed).
  assert (Ep : position = Z.of_nat p) by (unfold p; lia).
  assert (Er : removed = Z.of_nat r) by (unfold r; lia).
  (* the translator returns the translated buffer *)
  assert (Hpos := I1_positions _ _ HI).
  assert (Hlen : length (items (self w)) = length old).
  { rewrite (Permutation_length HI). unfold source_items.
    rewrite length_map, length_seq. reflexivity. }
  assert (Hrange : edit_in_range position removed A (items (self w))).
  { unfold edit_in_range, is_guint. split_and!; try lia.
    eapply Forall_impl; [exact Hpos |]. simpl. intros si Hsi. split; [lia |]. intros _. lia. }
  destruct (update_item_in_range _ _ _ _ Hrange) as [Hk Hd].
  assert (Hrg : is_guint removed) by (unfold is_guint; lia).
  assert (Hlen' : Z.of_nat (length (items (self w))) < guint_modulus) by lia.
  destruct (update_items_machine (items (self w)) runs position removed A Hlen' Hrg)
    as [Hsome _].
  cbv zeta in Hsome. rewrite Hk, Hd in Hsome.
  destruct (Hsome (I1_window_count _ _ _ _ HI Hp Hr Hw)) as (upd & Hupd & Hitems & _ & Hruns & _).
  rewrite Hd4, Hupd.
  rewrite bind_modify_self, bind_unref_all.
  set (w2 := with_unreffed _ (with_self (set_items (ur_items upd) (self w1)) w1)).
  assert (Hm2 : model (self w2) = Some m) by (simpl; congruence).
  assert (Hs2 : sorter (self w2) = Some so) by (simpl; congruence).
  assert (Hrok : runs_until_zero (ur_runs upd) = []).
  { rewrite Hruns. apply runs_until_zero_reset. }
  assert (Hok : forall so', Some so = Some so' -> sorter_ok so').
  { intros so' E. apply (inv_sorter _ Hinv). congruence. }
  (* what the buffer must be a permutation of *)
  set (target := translate_items position removed A (items (self w))
                 ++ map (fun i : nat => {| si_item := model_items m !! i;
                                           si_position := Z.of_nat i |}) (seq p (length added))).
  assert (Htarget : target ≡ₚ source_items (model_items m)).
  { unfold target, A. rewrite Hnew, Ep, Er. apply I1_after_edit; [exact HI | lia]. }
  assert (Hfinal : forall (md : option GListModel) (its : SortArray),
            md = Some m -> its ≡ₚ target ->
            md = Some m /\ I1 its (model_items m)).
  { intros md its Hmw Hperm. split; [exact Hmw |]. unfold I1. rewrite Hperm. exact Htarget. }
  destruct (Z.ltb_spec 0 A) as [Hadd | Hadd].
  - (* elements were added *)
    unfold bind at 1. rewrite bind_get_self, Hm2, bind_modify_self.
    set (w3 := with_self _ w2).
    assert (Hitems3 : items (self w3) = target).
    { unfold w3, target. simpl. unfold A. rewrite append_added_items by lia.
      rewrite Hitems. reflexivity. }
    destruct (start_sorting_inv (Some (ur_runs upd)) w3)
      as (w4 & Hstart & _ & _ & (Hs41 & _ & _ & Hs44) & _ & Hsync).
    + exact Hcb1.
    + exact Hrok.
    + intros so' Hso'. apply Hok. simpl in Hso'. congruence.
    + simpl. rewrite Hd1, Hm. discriminate.
    + unfold bind at 1. rewrite Hstart.
      destruct (incremental (self w3)).
      * unfold ret at 1. rewrite bind_get_self.
        eexists. split; [reflexivity |]. simpl. apply Hfinal.
        -- rewrite Hs41. simpl. congruence.
        -- rewrite Hs44, Hitems3. reflexivity.
      * destruct Hsync as (pn & w5 & Hfin & _ & _ & Hm5 & _ & _ & Hperm5 & _); [reflexivity |].
        unfold bind at 1. rewrite Hfin. rewrite bind_get_self. unfold ret at 1.
        rewrite bind_get_self.
        eexists. split; [reflexivity |]. simpl. apply Hfinal.
        -- rewrite Hm5. simpl. congruence.
        -- rewrite Hperm5, Hitems3. reflexivity.
  - (* nothing was added *)
    assert (Ha : length added = 0%nat) by (unfold A in Hadd; lia).
    assert (Htarget2 : ur_items upd = target).
    { unfold target. rewrite Ha. simpl. rewrite app_nil_r. exact Hitems. }
    unfold bind at 1.
    destruct (gtk_tim2_sort_model_is_sorting (self w)) eqn:Hws.
    + destruct (start_sorting_inv (Some (ur_runs upd)) w2)
        as (w4 & Hstart & _ & _ & (Hs41 & _ & _ & Hs44) & _ & _).
      * exact Hcb1.
      * exact Hrok.
      * intros so' Hso'. apply Hok. congruence.
      * rewrite Hm2. discriminate.
      * unfold bind at 1. unfold bind at 1. rewrite Hstart.
        unfold ret at 1 2. rewrite bind_get_self.
        eexists. split; [reflexivity |]. simpl. apply Hfinal.
        -- rewrite Hs41. exact Hm2.
        -- rewrite Hs44. simpl. rewrite Htarget2. reflexivity.
    + unfold bind at 1. unfold ret at 1 2. rewrite bind_get_self.
      eexists. split; [reflexivity |]. simpl. apply Hfinal.
      * simpl. congruence.
      * simpl. rewrite Htarget2. reflexivity.
Qed.

(** * Scenarios of the specification, by evaluation *)

(** Scenario 2: with a sorter whose order is NONE the view is the source. *)
Example scenario_pass_through :
  get_all (self (run_ops [SetModel (Some source_53142); SetSorter (Some no_order)]
                   (initial_world example_clock)))
  = [Some 5; Some 3; Some 1; Some 4; Some 2].
Proof. vm_compute. reflexivity. Qed.

(** Scenario 3: removing source index 2 (the element 1) from scenario 1. *)
Example scenario_remove :
  get_all (self (run_ops [SourceItemsChanged 2 1 []] world_sorted_53142))
  = [Some 2; Some 3; Some 4; Some 5].
Proof. vm_compute. reflexivity. Qed.

(** Scenario 4: inserting 0 at source index 0 into scenario 1. *)
Example scenario_insert :
  get_all (self (run_ops [SourceItemsChanged 0 0 [0]] world_sorted_53142))
  = [Some 0; Some 1; Some 2; Some 3; Some 4; Some 5].
Proof. vm_compute. reflexivity. Qed.

(** In incremental mode, attaching a sorter before any model installs the
    idle callback over the empty buffer; attaching a model before the
    callback has run then fails the assertion of
    [gtk_tim2_sort_model_start_sorting]. *)
Example set_model_with_pending_callback_aborts :
  exec_all [SetIncremental true; SetSorter (Some ascending_numeric);
            SetModel (Some source_53142)] (initial_world example_clock) = None.
Proof. vm_compute. reflexivity. Qed.

(* ===================================================================== *)
(** * Further properties of the sort model *)

(** ** The unmodified prefix and suffix of the translator *)

Section kept_items.
Variables position removed added : Z.

Let keep := update_item position removed added.
Let kept := fun si => update_drops position removed si = false.
Let gone := fun si => update_drops position removed si = true.

Lemma kept_or_gone (l : SortArray) : Forall kept l \/ Exists gone l.
Proof.
  induction l as [| x l [IH | IH]].
  - left. constructor.
  - destruct (update_drops position removed x) eqn:E.
    + right. apply Exists_cons_hd. exact E.
    + left. constructor; assumption.
  - right. apply Exists_cons_tl. exact IH.
Qed.

Lemma kept_not_gone (l : SortArray) : Forall kept l -> Exists gone l -> False.
Proof.
  intros Hk Hg. apply Exists_exists in Hg as (x & Hx & Hgx).
  rewrite Forall_forall in Hk. specialize (Hk x Hx). unfold kept, gone in *. congruence.
Qed.

Lemma omap_kept_handles (l : SortArray) :
  Forall kept l -> si_item <$> omap keep l = si_item <$> l.
Proof.
  induction 1 as [| x l Hx _ IH]; csimpl; [reflexivity |].
  destruct (keep x) as [y |] eqn:E.
  - csimpl. rewrite IH. f_equal. apply (update_item_keeps_item _ _ _ _ _ E).
  - apply (update_item_drops position removed added) in E. unfold kept in Hx. congruence.
Qed.

Lemma omap_kept_length (l : SortArray) : Forall kept l -> length (omap keep l) = length l.
Proof.
  intros H. apply omap_kept_handles in H.
  apply (f_equal length) in H. rewrite !length_fmap in H. exact H.
Qed.

Lemma handles_prefix (l : SortArray) (s : nat) :
  Forall kept (take s l) -> (s <= length l)%nat ->
  forall j, (j < s)%nat -> si_item <$> omap keep l !! j = si_item <$> l !! j.
Proof.
  intros HF Hs j Hj.
  rewrite <- !list_lookup_fmap.
  rewrite <- (take_drop s l) at 1. rewrite omap_app, fmap_app.
  rewrite lookup_app_l by (rewrite length_fmap, (omap_kept_length _ HF), length_take; lia).
  rewrite (omap_kept_handles _ HF), fmap_take. apply lookup_take_lt. exact Hj.
Qed.

Lemma handles_suffix (l : SortArray) (e : nat) :
  Forall kept (drop (length l - e) l) -> (e <= length l)%nat ->
  forall j, (j < e)%nat ->
    si_item <$> omap keep l !! (length (omap keep l) - e + j)%nat
    = si_item <$> l !! (length l - e + j)%nat.
Proof.
  intros HF He j Hj.
  assert (Hlen : length (omap keep l)
                 = (length (omap keep (take (length l - e) l)) + e)%nat).
  { rewrite <- (take_drop (length l - e) l) at 1. rewrite omap_app, length_app.
    rewrite (omap_kept_length _ HF), length_drop. lia. }
  assert (Hsplit : si_item <$> omap keep l
                   = (si_item <$> omap keep (take (length l - e) l))
                     ++ (si_item <$> drop (length l - e) l)).
  { rewrite <- (omap_kept_handles _ HF), <- fmap_app, <- omap_app, take_drop. reflexivity. }
  rewrite <- !list_lookup_fmap. rewrite Hsplit.
  rewrite lookup_app_r by (rewrite length_fmap; lia).
  rewrite fmap_drop, lookup_drop, length_fmap.
  f_equal. lia.
Qed.

End kept_items.

Section update_range.
Variables position removed added : Z.
Variable items0 : SortArray.
Hypothesis Hsize : Z.of_nat (length items0) < guint_modulus.

Let keep := update_item position removed added.

Lemma update_items_iter_range i acc :
  (i < length items0)%nat ->
  update_inv position removed added items0 i acc ->
  range_inv position removed items0 i acc ->
  range_inv position removed items0 (S i)
    (update_items_iter position removed added (length items0) acc i).
Proof.
  intros Hi [Hlen Hle Hval Hpre Hsuf Hunr] [Hnone Hsome].
  assert (Hsi : exists si, items0 !! i = Some si).
  { apply lookup_lt_is_Some_2. exact Hi. }
  destruct Hsi as [si Hsi].
  assert (Harr : ua_items acc !! i = Some si).
  { rewrite <- (Nat.add_0_r i) at 1. rewrite <- lookup_drop, Hsuf, lookup_drop.
    rewrite Nat.add_0_r. exact Hsi. }
  assert (Htake : take (S i) items0 = take i items0 ++ [si]) by (apply take_S_r; exact Hsi).
  assert (Hkept : update_drops position removed si = false ->
            forall acc', ua_start acc' = ua_start acc -> ua_end acc' = ua_end acc ->
            range_inv position removed items0 (S i) acc').
  { intros Hk acc' Hs He. constructor; rewrite Hs, He, Htake.
    - intros HF. apply Forall_app in HF as [HF _]. apply Hnone. exact HF.
    - intros HE. apply Exists_app in HE as [HE | HE].
      + destruct (Hsome HE) as (f & l & (Hfl & Hf & Hl & Hout) & Hst & Hen).
        exists f, l. split; [| split; assumption].
        split_and!; try assumption; try lia.
        intros j sj Hj Hrange.
        destruct (Nat.eq_dec j i) as [-> | Hne].
        * rewrite Hsi in Hj. injection Hj as <-. exact Hk.
        * apply (Hout j sj Hj). lia.
      + apply Exists_cons in HE as [HE | HE]; [congruence |].
        apply Exists_nil in HE. contradiction. }
  unfold update_items_iter. rewrite Harr. cbv zeta.
  assert (Hdrops : update_drops position removed si = update_drops position removed si)
    by reflexivity.
  unfold update_drops at 2 in Hdrops.
  destruct (guint (position + removed) <=? si_position si) eqn:E1.
  { apply Hkept; [exact Hdrops | reflexivity | reflexivity]. }
  destruct (position <=? si_position si) eqn:E2.
  2: { apply Hkept; [exact Hdrops | reflexivity | reflexivity]. }
  simpl in Hdrops. simpl.
  assert (Hend : guint (guint (Z.of_nat (length items0) - Z.of_nat i) - 1)
                 = Z.of_nat (length items0) - Z.of_nat i - 1).
  { unfold guint, guint_modulus in *.
    rewrite (Z.mod_small (Z.of_nat (length items0) - Z.of_nat i)) by lia.
    apply Z.mod_small. lia. }
  constructor; simpl; rewrite Htake.
  - intros HF. apply Forall_app in HF as [_ HF].
    apply Forall_cons in HF as [HF _]. congruence.
  - intros _. rewrite Hend.
    destruct (kept_or_gone position removed (take i items0)) as [HF | HE].
    + destruct (Hnone HF) as [Hst _].
      assert (Hv : ua_valid acc = i).
      { rewrite Hval. rewrite (omap_kept_length _ _ _ _ HF), length_take. lia. }
      exists i, i. split; [| split; [rewrite Hst, Hv; lia | reflexivity]].
      split_and!; try lia; eauto.
      intros j sj Hj [Hlt | Hgt]; [| lia].
      rewrite Forall_lookup in HF. apply (HF j sj).
      rewrite lookup_take_lt by lia. exact Hj.
    + destruct (Hsome HE) as (f & l & (Hfl & Hf & Hl & Hout) & Hst & Hen).
      assert (Hv : (f <= ua_valid acc)%nat).
      { rewrite Hval.
        rewrite <- (take_drop f (take i items0)), omap_app, length_app.
        rewrite take_take, Nat.min_l by lia.
        rewrite (omap_kept_length position removed added); [rewrite length_take; lia |].
        apply Forall_lookup. intros j sj Hj.
        apply lookup_take_Some in Hj as [Hj Hjf]. apply (Hout j sj Hj). lia. }
      exists f, i. split; [| split; [rewrite Hst; lia | reflexivity]].
      split_and!; try lia; eauto.
      intros j sj Hj [Hlt | Hgt]; [| lia]. apply (Hout j sj Hj). lia.
Qed.

Lemma update_items_fold_range k : forall i acc,
  (i + k <= length items0)%nat ->
  update_inv position removed added items0 i acc ->
  range_inv position removed items0 i acc ->
  range_inv position removed items0 (i + k)
    (fold_left (update_items_iter position removed added (length items0)) (seq i k) acc).
Proof.
  induction k as [| k IH]; intros i acc Hik Hinv Hrange; simpl.
  - rewrite Nat.add_0_r. exact Hrange.
  - replace (i + S k)%nat with (S i + k)%nat by lia.
    apply IH; [lia | |].
    + apply update_items_iter_inv; [lia | exact Hinv].
    + apply update_items_iter_range; [lia | exact Hinv | exact Hrange].
Qed.

Lemma update_items_loop_range :
  range_inv position removed items0 (length items0)
    (update_items_loop position removed added (length items0) items0).
Proof.
  unfold update_items_loop.
  apply (update_items_fold_range (length items0) 0%nat); [lia | |].
  - constructor; simpl; try reflexivity; lia.
  - constructor; simpl.
    + intros _. split; reflexivity.
    + intros H. apply Exists_nil in H. contradiction.
Qed.

End update_range.

Lemma update_items_fields (items_ : SortArray) runs position removed added r :
  Z.of_nat (length items_) < guint_modulus ->
  gtk_tim2_sort_model_update_items items_ runs position removed added = Some r ->
  let acc := update_items_loop position removed added (length items_) items_ in
  ur_items r = omap (update_item position removed added) items_ /\
  ur_start r = ua_start acc /\ ur_end r = ua_end acc.
Proof.
  intros Hsize. unfold gtk_tim2_sort_model_update_items, sort_array_get_size.
  rewrite (guint_small (Z.of_nat (length items_))) by (split; lia).
  rewrite Nat2Z.id.
  destruct (decide _) as [_ | _]; [| discriminate].
  unfold sort_array_set_size. intros H. injection H as <-. simpl.
  destruct (update_items_loop_inv position removed added items_) as [_ _ _ Hpre _ _].
  rewrite firstn_all in Hpre.
  split; [| split; reflexivity].
  rewrite memset_items_take by lia. exact Hpre.
Qed.

(** The counts [unmodified_start] and [unmodified_end] of the translator
    against the buffer before and after the call. *)
Lemma update_items_range_spec (items_ : SortArray) runs position removed added r :
  Z.of_nat (length items_) < guint_modulus ->
  gtk_tim2_sort_model_update_items items_ runs position removed added = Some r ->
  let n := length items_ in
  let n' := length (ur_items r) in
  exists s e : nat,
    ur_start r = Z.of_nat s /\ ur_end r = Z.of_nat e /\
    (forall j, (j < s)%nat -> si_item <$> ur_items r !! j = si_item <$> items_ !! j) /\
    (forall j, (j < e)%nat ->
       si_item <$> ur_items r !! (n' - e + j)%nat = si_item <$> items_ !! (n - e + j)%nat) /\
    (Forall (fun si => update_drops position removed si = false) items_ ->
       s = n /\ e = n /\ n' = n) /\
    (Exists (fun si => update_drops position removed si = true) items_ ->
       (s + e < n)%nat /\ (s + e <= n')%nat /\
       (exists si, items_ !! s = Some si /\ update_drops position removed si = true) /\
       (exists si, items_ !! (n - 1 - e)%nat = Some si /\
                   update_drops position removed si = true)).
Proof.
  intros Hsize Hrun n n'.
  destruct (update_items_fields _ _ _ _ _ _ Hsize Hrun) as (Hitems & Hstart & Hend).
  cbv zeta in Hstart, Hend.
  destruct (update_items_loop_range position removed added items_ Hsize) as [Hnone Hsome].
  rewrite firstn_all in Hnone, Hsome.
  unfold n'. rewrite Hitems, Hstart, Hend.
  destruct (kept_or_gone position removed items_) as [HF | HE].
  - destruct (Hnone HF) as [Hs He]. exists n, n.
    split; [exact Hs |]. split; [exact He |].
    assert (Hn' : length (omap (update_item position removed added) items_) = n).
    { apply omap_kept_length. exact HF. }
    split_and!.
    + apply handles_prefix; [unfold n; rewrite firstn_all; exact HF | lia].
    + apply handles_suffix; [| lia]. fold n. rewrite Nat.sub_diag. exact HF.
    + intros _. split_and!; try reflexivity. exact Hn'.
    + intros HE. destruct (kept_not_gone _ _ _ HF HE).
  - destruct (Hsome HE) as (f & l & (Hfl & Hf & Hl & Hout) & Hs & He).
    exists f, (n - 1 - l)%nat.
    split; [exact Hs |]. split; [rewrite He; unfold n; lia |].
    fold n in Hfl, Hout.
    assert (HFpre : Forall (fun si => update_drops position removed si = false) (take f items_)).
    { apply Forall_lookup. intros j sj Hj.
      apply lookup_take_Some in Hj as [Hj Hjf]. apply (Hout j sj Hj). lia. }
    assert (HFsuf : Forall (fun si => update_drops position removed si = false)
                      (drop (n - (n - 1 - l)) items_)).
    { apply Forall_lookup. intros j sj Hj. rewrite lookup_drop in Hj.
      apply lookup_lt_Some in Hj as Hlt. fold n in Hlt.
      apply (Hout _ sj Hj). lia. }
    split_and!.
    + apply handles_prefix; [exact HFpre | fold n; lia].
    + apply handles_suffix; [exact HFsuf | fold n; lia].
    + intros HF. destruct (kept_not_gone _ _ _ HF HE).
    + intros _.
      assert (Hlen : (f + (n - 1 - l) <= length (omap (update_item position removed added) items_))%nat).
      { rewrite <- (take_drop f items_) at 1. rewrite omap_app, length_app.
        rewrite (omap_kept_length _ _ _ _ HFpre), length_take.
        rewrite <- (take_drop (n - (n - 1 - l) - f) (drop f items_)), omap_app, length_app.
        rewrite drop_drop.
        replace (f + (n - (n - 1 - l) - f))%nat with (n - (n - 1 - l))%nat by lia.
        rewrite (omap_kept_length _ _ _ _ HFsuf), length_drop. fold n. lia. }
      split_and!; try lia; try assumption.
      replace (n - 1 - (n - 1 - l))%nat with l by lia. exact Hl.
Qed.

(** ** Replaying notifications *)

Lemma replay_app l1 : forall l2 n,
  replay (l1 ++ l2) n
  = match replay l1 n with Some n' => replay l2 n' | None => None end.
Proof.
  induction l1 as [| c l1 IH]; intros l2 n; simpl; [reflexivity |].
  destruct (apply_signal n c); [apply IH | reflexivity].
Qed.

Lemma replay_one p r a n :
  0 <= p -> 0 <= r -> 0 <= a -> p + r <= n ->
  replay [{| ic_position := p; ic_removed := r; ic_added := a |}] n = Some (n - r + a).
Proof.
  intros. simpl. unfold apply_signal. simpl.
  destruct (Z.leb_spec 0 p), (Z.leb_spec 0 r), (Z.leb_spec 0 a), (Z.leb_spec (p + r) n);
    try lia. reflexivity.
Qed.

Lemma replay_maybe (c : bool) p k n :
  (c = true -> 0 <= p /\ 0 <= k /\ p + k <= n) ->
  replay (if c then [{| ic_position := p; ic_removed := k; ic_added := k |}] else []) n
  = Some n.
Proof.
  destruct c; intros H; [| reflexivity].
  destruct H as (? & ? & ?); [reflexivity |].
  rewrite replay_one by lia. f_equal. lia.
Qed.

Lemma maybe_items_changed_total (c : bool) p r a w :
  exists w',
    (if c then g_list_model_items_changed p r a else ret tt) w = Some (tt, w') /\
    self w' = self w /\ unreffed w' = unreffed w /\
    emitted w' = emitted w ++
      (if c then [{| ic_position := p; ic_removed := r; ic_added := a |}] else []).
Proof.
  destruct c.
  - eexists. split; [reflexivity |]. split_and!; reflexivity.
  - exists w. split; [reflexivity |]. rewrite app_nil_r. split_and!; reflexivity.
Qed.

(** ** The range reported by a sort step lies within the buffer *)

Lemma sort_step_range_bounds (size : nat) (new : list GtkTimSortRun) :
  Z.of_nat size < guint_modulus ->
  Forall (fun c => (run_base c + run_len c <= size)%nat) new ->
  let sc := fold_left widen_start new size in
  let ec := fold_left widen_end new 0%nat in
  let pos := if (sc <? ec)%nat then guint (Z.of_nat sc) else 0 in
  let n := if (sc <? ec)%nat then guint (Z.of_nat ec - Z.of_nat sc) else 0 in
  0 <= pos /\ 0 <= n /\ pos + n <= Z.of_nat size.
Proof.
  intros Hsize Hbounds sc ec.
  destruct (widen_fold new size 0%nat) as (H1 & H2 & H3 & H4 & H5).
  fold sc in H1, H3, H4, H5. fold ec in H2, H3, H4, H5.
  assert (Hall : covers 0 size new).
  { intros c Hc _. rewrite Forall_forall in Hbounds. specialize (Hbounds c Hc). lia. }
  destruct (H4 0%nat size) as [_ Hec]; [lia | lia | exact Hall |].
  simpl. destruct (Nat.ltb_spec sc ec).
  - unfold guint, guint_modulus in *. rewrite !Z.mod_small by lia. lia.
  - lia.
Qed.

Lemma finish_sorting_range w pn w' :
  engine_inv (sort (self w)) (items (self w)) ->
  compare_total (ts_compare (sort (self w))) ->
  Z.of_nat (length (items (self w))) < guint_modulus ->
  gtk_tim2_sort_model_finish_sorting w = Some (pn, w') ->
  0 <= fst pn /\ 0 <= snd pn /\
  fst pn + snd pn <= Z.of_nat (length (items (self w))) /\
  forall i : nat, Z.of_nat i < fst pn \/ fst pn + snd pn <= Z.of_nat i ->
    items (self w') !! i = items (self w) !! i.
Proof.
  intros Hinv Htot Hsize.
  unfold gtk_tim2_sort_model_finish_sorting.
  unfold bind at 1. unfold modify_self.
  set (w0 := with_self (set_sort (gtk_tim_sort_set_max_merge_size (sort (self w)) 0) (self w)) w).
  assert (Hinv0 : engine_inv (sort (self w0)) (items (self w0))) by exact Hinv.
  assert (Htot0 : compare_total (ts_compare (sort (self w0)))) by exact Htot.
  destruct (sort_step_spec true w0 Hinv0 Htot0)
    as (res & w1 & new & Hrun & _ & _ & _ & _ & _ & _ & Hb & _ & _ & Hframe & _ & _).
  cbv zeta in Hrun. unfold bind at 1. rewrite Hrun.
  unfold bind at 1.
  set (w2 := with_self (set_sort (gtk_tim_sort_finish (sort (self w1))) (self w1)) w1).
  destruct (stop_sorting_spec w2) as (runs & w3 & Hstop & _ & _ & _ & Hdata & _ & _).
  unfold bind at 1. rewrite Hstop. unfold ret.
  intros H. injection H as <- <-.
  change (items (self w0)) with (items (self w)) in *.
  destruct Hdata as (_ & _ & _ & Hd4). change (items (self w2)) with (items (self w1)) in Hd4.
  pose proof (sort_step_range_bounds _ _ Hsize Hb) as Hbounds.
  pose proof (sort_step_range _ _ Hsize Hb) as Hrange.
  cbv zeta in Hbounds, Hrange. cbn [fst snd].
  split_and!; try apply Hbounds.
  intros i Hi. rewrite Hd4. apply Hframe.
  eapply outside_range_untouched; [exact Hrange | exact Hi].
Qed.

(** ** Every operation keeps the buffer consistent and its notifications
       replayable *)

Lemma buffer_consistent_weaken s : buffer_consistent s -> buffer_empty_or_full s.
Proof.
  unfold buffer_consistent, buffer_empty_or_full.
  destruct (model s); [| auto]. intros [Hlen H]. split; [exact Hlen |].
  destruct (gtk_tim2_sort_model_should_sort s); auto.
Qed.

Lemma I1_length (a : SortArray) src : I1 a src -> length a = length src.
Proof.
  intros HI. rewrite (Permutation_length HI). unfold source_items.
  rewrite length_map, length_seq. reflexivity.
Qed.

Lemma buffer_length_le s :
  buffer_empty_or_full s ->
  Z.of_nat (length (items s)) <= gtk_tim2_sort_model_get_n_items s /\
  gtk_tim2_sort_model_get_n_items s < guint_modulus.
Proof.
  unfold buffer_empty_or_full, gtk_tim2_sort_model_get_n_items, g_list_model_get_n_items.
  destruct (model s) as [m |].
  - intros [Hlen [-> | HI]]; [simpl; lia |]. rewrite (I1_length _ _ HI). lia.
  - intros ->. simpl. unfold guint_modulus. lia.
Qed.

Lemma should_sort_fields s s' :
  model s' = model s -> sorter s' = sorter s ->
  gtk_tim2_sort_model_should_sort s' = gtk_tim2_sort_model_should_sort s.
Proof. unfold gtk_tim2_sort_model_should_sort. intros -> ->. reflexivity. Qed.

Lemma n_items_fields s s' :
  model s' = model s ->
  gtk_tim2_sort_model_get_n_items s' = gtk_tim2_sort_model_get_n_items s.
Proof. unfold gtk_tim2_sort_model_get_n_items. intros ->. reflexivity. Qed.

(** A permutation of the buffer, with the model and the sorter left alone,
    keeps the buffer consistent. *)
Lemma buffer_consistent_perm s s' :
  model s' = model s -> sorter s' = sorter s -> items s' ≡ₚ items s ->
  buffer_consistent s -> buffer_consistent s'.
Proof.
  intros Hm Hs Hp. unfold buffer_consistent.
  rewrite (should_sort_fields s s' Hm Hs), Hm.
  destruct (model s) as [m |].
  - intros [Hlen H]. split; [exact Hlen |].
    destruct (gtk_tim2_sort_model_should_sort s).
    + unfold I1 in *. rewrite Hp. exact H.
    + rewrite H in Hp. apply Permutation_nil_eq. exact Hp.
  - intros H. rewrite H in Hp. apply Permutation_nil_eq. exact Hp.
Qed.

(** ** What a listener sees *)

Lemma get_item_at s (j : nat) :
  gtk_tim2_sort_model_get_item s (Z.of_nat j)
  = match model s with
    | None => None
    | Some m =>
        if sort_array_is_empty (items s) then model_items m !! j
        else items s !! j ≫= si_item
    end.
Proof.
  unfold gtk_tim2_sort_model_get_item. destruct (model s) as [m |]; [| reflexivity].
  destruct (sort_array_is_empty (items s)).
  - unfold g_list_model_get_item.
    destruct (Z.ltb_spec (Z.of_nat j) 0); [lia |]. rewrite Nat2Z.id. reflexivity.
  - unfold sort_array_get_size. rewrite Nat2Z.id.
    destruct (Z.leb_spec (Z.of_nat (length (items s))) (Z.of_nat j)) as [Hge | Hlt].
    + rewrite lookup_ge_None_2 by lia. reflexivity.
    + destruct (items s !! j); reflexivity.
Qed.

Lemma get_all_length s :
  length (get_all s) = Z.to_nat (gtk_tim2_sort_model_get_n_items s).
Proof. unfold get_all. rewrite length_map, length_seq. reflexivity. Qed.

Lemma get_all_lookup s (j : nat) :
  (j < Z.to_nat (gtk_tim2_sort_model_get_n_items s))%nat ->
  get_all s !! j = Some (gtk_tim2_sort_model_get_item s (Z.of_nat j)).
Proof.
  intros Hj. unfold get_all.
  change (map ?f ?l) with (f <$> l). rewrite list_lookup_fmap, lookup_seq_lt by exact Hj.
  reflexivity.
Qed.

Lemma get_all_fields s s' :
  model s' = model s -> items s' = items s -> get_all s' = get_all s.
Proof.
  intros Hm Hi. unfold get_all, gtk_tim2_sort_model_get_n_items, gtk_tim2_sort_model_get_item.
  rewrite Hm, Hi. reflexivity.
Qed.

Lemma n_items_nonneg s : 0 <= gtk_tim2_sort_model_get_n_items s.
Proof.
  unfold gtk_tim2_sort_model_get_n_items, g_list_model_get_n_items.
  destruct (model s); lia.
Qed.

(** Replacing a range of the copy by the range of the new sequence gives
    the new sequence when the two agree before and behind the range. *)
Lemma apply_change_eq (old new : list gpointer) (p r a : nat) :
  (length new + r = length old + a)%nat -> (p + r <= length old)%nat ->
  (forall j, (j < p)%nat -> new !! j = old !! j) ->
  (forall j, (p + a <= j)%nat -> new !! j = old !! (j - a + r)%nat) ->
  take p old ++ take a (drop p new) ++ drop (p + r) old = new.
Proof.
  intros Hlen Hpr Hpre Hsuf. apply list_eq. intros j.
  destruct (Nat.lt_ge_cases j p) as [Hjp | Hjp].
  - rewrite lookup_app_l by (rewrite length_take; lia).
    rewrite lookup_take_lt by lia. symmetry. apply Hpre. exact Hjp.
  - rewrite lookup_app_r by (rewrite length_take; lia).
    rewrite length_take, Nat.min_l by lia.
    destruct (Nat.lt_ge_cases j (p + a)) as [Hja | Hja].
    + rewrite lookup_app_l by (rewrite length_take, length_drop; lia).
      rewrite lookup_take_lt by lia. rewrite lookup_drop. f_equal. lia.
    + rewrite lookup_app_r by (rewrite length_take, length_drop; lia).
      rewrite length_take, length_drop, Nat.min_l by lia.
      rewrite lookup_drop. rewrite Hsuf by lia. f_equal. lia.
Qed.

Lemma updates_listener_one (old new : list gpointer) pos removed added :
  0 <= pos -> 0 <= removed -> 0 <= added ->
  Z.of_nat (length new) + removed = Z.of_nat (length old) + added ->
  pos + removed <= Z.of_nat (length old) ->
  (forall j : nat, Z.of_nat j < pos -> new !! j = old !! j) ->
  (forall j : nat, pos + added <= Z.of_nat j ->
     new !! j = old !! Z.to_nat (Z.of_nat j - added + removed)) ->
  updates_listener [{| ic_position := pos; ic_removed := removed; ic_added := added |}]
    old new.
Proof.
  intros Hp Hr Ha Hlen Hpr Hpre Hsuf. unfold updates_listener, apply_change. simpl.
  replace (Z.to_nat (pos + removed)) with (Z.to_nat pos + Z.to_nat removed)%nat by lia.
  apply apply_change_eq.
  - lia.
  - lia.
  - intros j Hj. apply Hpre. lia.
  - intros j Hj. rewrite Hsuf by lia. f_equal. lia.
Qed.

(** A notification [(pos, n, n)], or none when [n = 0], for a change that
    left every position outside [[pos, pos + n)] alone. *)
Lemma updates_listener_frame s s' (c : bool) pos n :
  gtk_tim2_sort_model_get_n_items s' = gtk_tim2_sort_model_get_n_items s ->
  0 <= pos -> 0 <= n -> pos + n <= gtk_tim2_sort_model_get_n_items s ->
  (forall j : nat, Z.of_nat j < pos \/ pos + n <= Z.of_nat j ->
     gtk_tim2_sort_model_get_item s' (Z.of_nat j)
     = gtk_tim2_sort_model_get_item s (Z.of_nat j)) ->
  (c = false -> n = 0) ->
  updates_listener
    (if c then [{| ic_position := pos; ic_removed := n; ic_added := n |}] else [])
    (get_all s) (get_all s').
Proof.
  intros Hn Hp Hn0 Hpn Hframe Hc.
  assert (Hlook : forall j : nat, Z.of_nat j < pos \/ pos + n <= Z.of_nat j ->
            get_all s' !! j = get_all s !! j).
  { intros j Hj.
    destruct (Nat.lt_ge_cases j (Z.to_nat (gtk_tim2_sort_model_get_n_items s))) as [Hlt | Hge].
    - rewrite !get_all_lookup by (rewrite ?Hn; exact Hlt). f_equal. apply Hframe. exact Hj.
    - rewrite !lookup_ge_None_2; [reflexivity | |]; rewrite get_all_length, ?Hn; exact Hge. }
  destruct c.
  - apply updates_listener_one; try assumption.
    + rewrite !get_all_length, Hn. lia.
    + rewrite get_all_length. lia.
    + intros j Hj. apply Hlook. lia.
    + intros j Hj. rewrite Hlook by lia. f_equal. lia.
  - unfold updates_listener. simpl. symmetry. apply list_eq. intros j. apply Hlook.
    rewrite (Hc eq_refl). lia.
Qed.

Lemma updates_listener_nil s s' :
  model s' = model s -> items s' = items s ->
  updates_listener [] (get_all s) (get_all s').
Proof. intros Hm Hi. unfold updates_listener. simpl. symmetry. apply get_all_fields; assumption. Qed.

(** An item of a buffer that satisfies I1 holds the source element at its
    position. *)
Lemma I1_item (a : SortArray) src si :
  I1 a src -> si ∈ a -> si_item si = src !! Z.to_nat (si_position si) /\
                         0 <= si_position si < Z.of_nat (length src).
Proof.
  intros HI Hin. unfold I1 in HI. rewrite HI in Hin. unfold source_items in Hin.
  apply list_elem_of_fmap in Hin as (i & -> & Hi). simpl. rewrite Nat2Z.id.
  apply elem_of_seq in Hi. split; [reflexivity | lia].
Qed.

Lemma get_item_frame s s' (j : nat) :
  model s' = model s -> length (items s') = length (items s) ->
  items s' !! j = items s !! j ->
  gtk_tim2_sort_model_get_item s' (Z.of_nat j) = gtk_tim2_sort_model_get_item s (Z.of_nat j).
Proof.
  intros Hm Hl Hj. rewrite !get_item_at, Hm, Hj.
  destruct (model s); [| reflexivity].
  destruct (items s'), (items s); try discriminate; reflexivity.
Qed.

Lemma source_items_lookup src (j : nat) : source_items src !! j ≫= si_item = src !! j.
Proof.
  unfold source_items.
  change (map ?f ?l) with (f <$> l). rewrite list_lookup_fmap.
  destruct (Nat.lt_ge_cases j (length src)) as [Hlt | Hge].
  - rewrite lookup_seq_lt by exact Hlt. reflexivity.
  - rewrite lookup_seq_ge by exact Hge. rewrite lookup_ge_None_2 by exact Hge. reflexivity.
Qed.

Lemma sorter_changed_cb_total so w :
  sorter (self w) = Some so -> sorter_ok so ->
  buffer_empty_or_full (self w) ->
  exists w' l,
    gtk_tim2_sort_model_sorter_changed_cb so w = Some (tt, w') /\
    buffer_consistent (self w') /\
    model (self w') = model (self w) /\
    sorter (self w') = sorter (self w) /\
    incremental (self w') = incremental (self w) /\
    emitted w' = emitted w ++ l /\
    replay l (gtk_tim2_sort_model_get_n_items (self w))
      = Some (gtk_tim2_sort_model_get_n_items (self w)) /\
    updates_listener l (get_all (self w)) (get_all (self w')).
Proof.
  intros Hso Hok Hweak.
  destruct (buffer_length_le _ Hweak) as [Hle Hn].
  unfold gtk_tim2_sort_model_sorter_changed_cb.
  destruct (bool_decide (gtk_sorter_get_order so = GTK_SORTER_ORDER_NONE)) eqn:Horder.
  - (* the sorter stops ordering: the buffer is cleared *)
    destruct (clear_items_spec true w) as (w1 & Hclear & He & _ & Hm & Hs & Hi & _ & Hitems).
    unfold bind at 1. rewrite Hclear. cbv zeta.
    set (lo := clear_items_start (items (self w)) 0).
    destruct (clear_items_start_spec (items (self w)) 0%nat) as (S1 & S2 & _). fold lo in S1, S2.
    set (hi := clear_items_end (items (self w)) lo (length (items (self w)))).
    destruct (clear_items_end_spec (items (self w)) lo (length (items (self w))))
      as (E1 & E2 & _); [lia | lia |]. fold hi in E1, E2.
    assert (Hg : guint (Z.of_nat hi - Z.of_nat lo) = Z.of_nat hi - Z.of_nat lo).
    { apply guint_small. unfold is_guint. lia. }
    rewrite Hg. cbn [fst snd].
    destruct (maybe_items_changed_total (0 <? Z.of_nat hi - Z.of_nat lo)
                (if Z.of_nat hi - Z.of_nat lo =? 0 then 0 else Z.of_nat lo)
                (Z.of_nat hi - Z.of_nat lo) (Z.of_nat hi - Z.of_nat lo) w1)
      as (w2 & Hemit & Hself & _ & Hem).
    exists w2. eexists. split; [exact Hemit |]. rewrite Hself.
    split_and!.
    + unfold buffer_consistent, gtk_tim2_sort_model_should_sort.
      rewrite Hm, Hs, Hso, Horder, Hitems.
      unfold buffer_empty_or_full in Hweak.
      destruct (model (self w)); [split; [apply Hweak | reflexivity] | reflexivity].
    + exact Hm.
    + exact Hs.
    + exact Hi.
    + rewrite Hem, He. reflexivity.
    + apply replay_maybe. intros Hpos. apply Z.ltb_lt in Hpos.
      destruct (Z.eqb_spec (Z.of_nat hi - Z.of_nat lo) 0); lia.
    + apply updates_listener_frame.
      * apply n_items_fields. exact Hm.
      * destruct (Z.eqb_spec (Z.of_nat hi - Z.of_nat lo) 0); lia.
      * lia.
      * destruct (Z.eqb_spec (Z.of_nat hi - Z.of_nat lo) 0); lia.
      * intros j Hj.
        assert (Hout : (j < lo \/ hi <= j)%nat).
        { destruct (Z.eqb_spec (Z.of_nat hi - Z.of_nat lo) 0); lia. }
        rewrite !get_item_at, Hm, Hitems.
        unfold buffer_empty_or_full in Hweak.
        destruct (model (self w)) as [m |]; [| reflexivity].
        simpl sort_array_is_empty. cbv iota.
        destruct Hweak as [_ [Hempty | HI]]; [rewrite Hempty; reflexivity |].
        destruct (items (self w)) as [| x rest] eqn:Hbuf; [reflexivity |].
        simpl sort_array_is_empty. cbv iota. rewrite <- Hbuf in *.
        destruct (items (self w) !! j) as [si |] eqn:Hsi; simpl.
        -- assert (Hposj : si_position si = Z.of_nat j).
           { destruct Hout as [Hlo | Hhi].
             - apply (S2 j si); [lia | exact Hsi].
             - apply (E2 j si); [| exact Hsi]. apply lookup_lt_Some in Hsi. lia. }
           destruct (I1_item _ _ si HI) as [Hitem _].
           { apply list_elem_of_lookup. eexists. exact Hsi. }
           rewrite Hitem, Hposj, Nat2Z.id. reflexivity.
        -- apply lookup_ge_None in Hsi. rewrite (I1_length _ _ HI) in Hsi.
           apply lookup_ge_None_2. exact Hsi.
      * intros Hc. apply Z.ltb_ge in Hc. lia.
  - (* the buffer is populated if needed and sorted again *)
    apply bool_decide_eq_false in Horder.
    unfold bind at 1. rewrite bind_get_self.
    assert (Hfill : exists w1,
              (if sort_array_is_empty (items (self w))
               then gtk_tim2_sort_model_create_items else ret tt) w = Some (tt, w1) /\
              emitted w1 = emitted w /\
              model (self w1) = model (self w) /\ sorter (self w1) = sorter (self w) /\
              incremental (self w1) = incremental (self w) /\
              match model (self w) with
              | Some m => I1 (items (self w1)) (model_items m)
              | None => items (self w1) = []
              end /\
              forall j : nat,
                gtk_tim2_sort_model_get_item (self w1) (Z.of_nat j)
                = gtk_tim2_sort_model_get_item (self w) (Z.of_nat j)).
    { assert (Hss : gtk_tim2_sort_model_should_sort (self w)
                    = match model (self w) with Some _ => true | None => false end).
      { unfold gtk_tim2_sort_model_should_sort. rewrite Hso.
        destruct (model (self w)); [| reflexivity].
        rewrite bool_decide_eq_false_2 by exact Horder. reflexivity. }
      unfold buffer_empty_or_full in Hweak.
      destruct (items (self w)) as [| x rest] eqn:Hitems.
      - simpl sort_array_is_empty. cbv iota.
        destruct (create_items_spec w) as (w1 & Hrun & He1 & _ & (Hc1 & Hc2 & Hc3 & _) & _ & Hit).
        exists w1. split; [exact Hrun |].
        rewrite Hss, Hitems in Hit.
        split; [exact He1 |]. split; [exact Hc1 |]. split; [exact Hc2 |].
        split; [exact Hc3 |]. split.
        + destruct (model (self w)) as [m |].
          * rewrite Hit, create_items_loop_source. unfold I1. reflexivity.
          * exact Hit.
        + intros j. rewrite !get_item_at, Hc1, Hitems.
          destruct (model (self w)) as [m |]; [| reflexivity].
          rewrite Hit, create_items_loop_source. simpl sort_array_is_empty. cbv iota.
          destruct (source_items (model_items m)) as [| y rest] eqn:Hsrc.
          * reflexivity.
          * simpl sort_array_is_empty. cbv iota. rewrite <- Hsrc.
            apply source_items_lookup.
      - simpl sort_array_is_empty. cbv iota.
        exists w. split; [reflexivity |]. split_and!; try reflexivity.
        destruct (model (self w)) as [m |]; [| discriminate].
        destruct Hweak as [_ [H | H]]; [discriminate | rewrite Hitems; exact H]. }
    destruct Hfill as (w1 & Hfill & He1 & Hm1 & Hs1 & Hi1 & Hfull & Hview1).
    unfold bind at 1. unfold bind at 1. rewrite Hfill.
    destruct (stop_sorting_spec w1)
      as (runs & w2 & Hstop & He2 & _ & _ & (Hd1 & Hd2 & Hd3 & Hd4) & Hcb2 & _).
    unfold bind at 1. rewrite Hstop.
    assert (Hok2 : forall so', sorter (self w2) = Some so' -> sorter_ok so').
    { intros so' H. rewrite Hd2, Hs1, Hso in H. injection H as <-. exact Hok. }
    assert (Hnone2 : model (self w2) = None -> items (self w2) = []).
    { intros H. rewrite Hd1, Hm1 in H. rewrite H in Hfull. rewrite Hd4. exact Hfull. }
    assert (Hcons2 : forall s', model s' = model (self w2) -> sorter s' = sorter (self w2) ->
              items s' ≡ₚ items (self w2) -> buffer_consistent s').
    { intros s' Hm' Hs' Hp'. unfold buffer_consistent, gtk_tim2_sort_model_should_sort.
      rewrite Hm', Hs', Hd1, Hd2, Hm1, Hs1, Hso.
      unfold buffer_empty_or_full in Hweak.
      destruct (model (self w)) as [m |].
      - split; [apply Hweak |].
        rewrite bool_decide_eq_false_2 by exact Horder. simpl.
        unfold I1 in *. rewrite Hp', Hd4. exact Hfull.
      - rewrite Hd4, Hfull in Hp'. apply Permutation_nil_eq. exact Hp'. }
    assert (Hlen2 : Z.of_nat (length (items (self w2)))
                    <= gtk_tim2_sort_model_get_n_items (self w)).
    { rewrite Hd4. unfold gtk_tim2_sort_model_get_n_items, g_list_model_get_n_items.
      destruct (model (self w)) as [m |].
      - rewrite (I1_length _ _ Hfull). lia.
      - rewrite Hfull. simpl. lia. }
    destruct (start_sorting_inv None w2 Hcb2 I Hok2 Hnone2)
      as (w3 & Hstart & He3 & _ & (Hs31 & Hs32 & Hs33 & Hs34) & _ & Hsync).
    destruct (start_sorting_spec None w2 Hcb2 I)
      as (w3' & Hstart' & _ & _ & _ & _ & Heng3 & Hcmp3 & _).
    rewrite Hstart in Hstart'. injection Hstart' as <-.
    rewrite Hstart.
    assert (Hview3 : forall j : nat,
              gtk_tim2_sort_model_get_item (self w3) (Z.of_nat j)
              = gtk_tim2_sort_model_get_item (self w) (Z.of_nat j)).
    { intros j. rewrite <- Hview1. rewrite !get_item_at, Hs31, Hs34, Hd1, Hd4. reflexivity. }
    assert (Hn3 : gtk_tim2_sort_model_get_n_items (self w3)
                  = gtk_tim2_sort_model_get_n_items (self w)).
    { apply n_items_fields. congruence. }
    destruct (incremental (self w2)) eqn:Hinc.
    + (* incremental: the idle callback sorts *)
      unfold ret at 1. cbn [snd fst]. simpl Z.ltb. cbv iota.
      exists w3, []. split; [reflexivity |]. split_and!.
      * apply Hcons2; [exact Hs31 | exact Hs32 | rewrite Hs34; reflexivity].
      * congruence.
      * congruence.
      * congruence.
      * rewrite app_nil_r. congruence.
      * reflexivity.
      * apply (updates_listener_frame (self w) (self w3) false 0 0);
          [exact Hn3 | lia | lia | pose proof (n_items_nonneg (self w)); lia
          | intros j _; apply Hview3 | reflexivity].
    + destruct Hsync as (pn & w4 & Hfin & He4 & _ & Hm4 & Hs4 & Hi4 & Hp4 & _); [reflexivity |].
      rewrite Hfin.
      assert (Htot3 : compare_total (ts_compare (sort (self w3)))).
      { rewrite Hcmp3. apply sort_func_total. exact Hok2. }
      assert (Hsize3 : Z.of_nat (length (items (self w3))) < guint_modulus).
      { rewrite Hs34. lia. }
      destruct (finish_sorting_range w3 pn w4 Heng3 Htot3 Hsize3 Hfin)
        as (Hp0 & Hn0 & Hpn & Hframe).
      destruct (maybe_items_changed_total (0 <? snd pn) (fst pn) (snd pn) (snd pn) w4)
        as (w5 & Hemit & Hself & _ & Hem).
      exists w5. eexists. split; [exact Hemit |]. rewrite Hself. split_and!.
      * apply Hcons2; [exact Hm4 | exact Hs4 | exact Hp4].
      * congruence.
      * congruence.
      * congruence.
      * rewrite Hem, He4, He2, He1. reflexivity.
      * apply replay_maybe. intros _. rewrite Hs34 in Hpn. lia.
      * apply updates_listener_frame; try assumption.
        -- apply n_items_fields. congruence.
        -- rewrite Hs34 in Hpn. lia.
        -- intros j Hj. rewrite <- Hview3. apply get_item_frame.
           ++ congruence.
           ++ rewrite (Permutation_length Hp4), Hs34. reflexivity.
           ++ apply Hframe. exact Hj.
        -- intros Hc. apply Z.ltb_ge in Hc. lia.
Qed.

Lemma set_sorter_total so w :
  sorter_ok so -> buffer_consistent (self w) ->
  exists w' l,
    gtk_tim2_sort_model_set_sorter (Some so) w = Some (tt, w') /\
    buffer_consistent (self w') /\
    model (self w') = model (self w) /\ sorter (self w') = Some so /\
    incremental (self w') = incremental (self w) /\
    emitted w' = emitted w ++ l /\
    replay l (gtk_tim2_sort_model_get_n_items (self w))
      = Some (gtk_tim2_sort_model_get_n_items (self w')) /\
    updates_listener l (get_all (self w)) (get_all (self w')).
Proof.
  intros Hok Hcons. unfold gtk_tim2_sort_model_set_sorter.
  assert (Hclear : exists w1,
            gtk_tim2_sort_model_clear_sorter w = Some (tt, w1) /\
            emitted w1 = emitted w /\
            model (self w1) = model (self w) /\ items (self w1) = items (self w) /\
            incremental (self w1) = incremental (self w)).
  { unfold gtk_tim2_sort_model_clear_sorter. rewrite bind_get_self.
    destruct (sorter (self w)).
    - eexists. split; [reflexivity |]. split_and!; reflexivity.
    - exists w. split; [reflexivity |]. split_and!; reflexivity. }
  destruct Hclear as (w1 & Hc & He1 & Hm1 & Hi1 & Hinc1).
  unfold bind at 1. rewrite Hc. rewrite bind_modify_self.
  set (w2 := with_self (set_sorter_field (Some so) (self w1)) w1).
  assert (Hweak : buffer_empty_or_full (self w2)).
  { apply buffer_consistent_weaken in Hcons.
    unfold buffer_empty_or_full in *. simpl. rewrite Hm1, Hi1. exact Hcons. }
  destruct (sorter_changed_cb_total so w2 eq_refl Hok Hweak)
    as (w' & l & Hrun & Hcons' & Hm' & Hs' & Hinc' & Hem & Hreplay & Hview).
  exists w', l. split; [exact Hrun |]. split; [exact Hcons' |].
  split; [rewrite Hm'; exact Hm1 |].
  split; [rewrite Hs'; reflexivity |].
  split; [rewrite Hinc'; exact Hinc1 |].
  split; [rewrite Hem; simpl; rewrite He1; reflexivity |].
  split.
  - rewrite (n_items_fields (self w2) (self w') Hm').
    rewrite <- (n_items_fields (self w) (self w2)); [exact Hreplay | simpl; exact Hm1].
  - rewrite <- (get_all_fields (self w) (self w2)); [exact Hview | exact Hm1 | exact Hi1].
Qed.

Lemma sorter_changed_total so w :
  sorter_ok so -> buffer_consistent (self w) ->
  exists w' l,
    sorter_changed so w = Some (tt, w') /\
    buffer_consistent (self w') /\
    emitted w' = emitted w ++ l /\
    replay l (gtk_tim2_sort_model_get_n_items (self w))
      = Some (gtk_tim2_sort_model_get_n_items (self w')) /\
    updates_listener l (get_all (self w)) (get_all (self w')).
Proof.
  intros Hok Hcons. unfold sorter_changed. rewrite bind_get_self.
  destruct (sorter (self w)) eqn:Hs.
  - rewrite bind_modify_self.
    set (w2 := with_self (set_sorter_field (Some so) (self w)) w).
    assert (Hweak : buffer_empty_or_full (self w2)).
    { apply buffer_consistent_weaken in Hcons. exact Hcons. }
    destruct (sorter_changed_cb_total so w2 eq_refl Hok Hweak)
      as (w' & l & Hrun & Hcons' & Hm' & _ & _ & Hem & Hreplay & Hview).
    exists w', l. split; [exact Hrun |]. split; [exact Hcons' |].
    split; [exact Hem |]. split; [| exact Hview].
    rewrite (n_items_fields (self w2) (self w') Hm'). exact Hreplay.
  - exists w, []. split; [reflexivity |]. split; [exact Hcons |].
    split; [rewrite app_nil_r; reflexivity |]. split; reflexivity.
Qed.

Lemma set_incremental_total b w :
  model_inv (self w) -> buffer_consistent (self w) ->
  exists w' l,
    gtk_tim2_sort_model_set_incremental b w = Some (tt, w') /\
    buffer_consistent (self w') /\
    emitted w' = emitted w ++ l /\
    replay l (gtk_tim2_sort_model_get_n_items (self w))
      = Some (gtk_tim2_sort_model_get_n_items (self w')) /\
    updates_listener l (get_all (self w)) (get_all (self w')).
Proof.
  intros Hinv Hcons.
  destruct (buffer_length_le _ (buffer_consistent_weaken _ Hcons)) as [Hle Hn].
  unfold gtk_tim2_sort_model_set_incremental. rewrite bind_get_self.
  destruct (Bool.eqb (incremental (self w)) b).
  { exists w, []. split; [reflexivity |]. split; [exact Hcons |].
    split; [rewrite app_nil_r; reflexivity |]. split; reflexivity. }
  rewrite bind_modify_self, bind_get_self.
  set (w0 := with_self (set_incremental_field b (self w)) w).
  destruct (negb b && gtk_tim2_sort_model_is_sorting (self w0)) eqn:Hdrain.
  - apply andb_prop in Hdrain as [_ Hsorting].
    apply is_sorting_true in Hsorting.
    destruct (inv_run _ Hinv Hsorting) as (Heng & Htot & _).
    destruct (finish_sorting_spec w0 Heng Htot)
      as (pn & w2 & Hfin & He2 & _ & Hm2 & Hs2 & _ & _ & Hperm & _).
    assert (Hsize : Z.of_nat (length (items (self w0))) < guint_modulus) by (simpl; lia).
    destruct (finish_sorting_range w0 pn w2 Heng Htot Hsize Hfin)
      as (Hp0 & Hn0 & Hpn & Hframe).
    unfold bind at 1. rewrite Hfin.
    destruct (maybe_items_changed_total (negb (snd pn =? 0)) (fst pn) (snd pn) (snd pn) w2)
      as (w3 & Hemit & Hself & _ & Hem).
    exists w3. eexists. split.
    { destruct (snd pn =? 0); exact Hemit. }
    rewrite Hself. split_and!.
    + apply (buffer_consistent_perm (self w)); assumption.
    + rewrite Hem, He2. reflexivity.
    + rewrite (n_items_fields (self w) (self w2) Hm2).
      apply replay_maybe. intros _. simpl in Hpn. lia.
    + apply updates_listener_frame; try assumption.
      * apply n_items_fields. exact Hm2.
      * simpl in Hpn. lia.
      * intros j Hj. apply get_item_frame.
        -- exact Hm2.
        -- rewrite (Permutation_length Hperm). reflexivity.
        -- apply Hframe. exact Hj.
      * intros Hc. apply Bool.negb_false_iff in Hc. apply Z.eqb_eq in Hc. exact Hc.
  - exists w0, []. split; [reflexivity |]. split; [exact Hcons |].
    split; [rewrite app_nil_r; reflexivity |]. split; reflexivity.
Qed.

Lemma idle_dispatch_total w :
  model_inv (self w) -> buffer_consistent (self w) ->
  exists w' l,
    idle_dispatch w = Some (tt, w') /\
    buffer_consistent (self w') /\
    emitted w' = emitted w ++ l /\
    replay l (gtk_tim2_sort_model_get_n_items (self w))
      = Some (gtk_tim2_sort_model_get_n_items (self w')) /\
    updates_listener l (get_all (self w)) (get_all (self w')).
Proof.
  intros Hinv Hcons.
  destruct (buffer_length_le _ (buffer_consistent_weaken _ Hcons)) as [Hle Hn].
  unfold idle_dispatch. rewrite bind_get_self.
  destruct (Nat.eqb_spec (sort_cb (self w)) 0) as [Hcb | Hcb].
  { exists w, []. split; [reflexivity |]. split; [exact Hcons |].
    split; [rewrite app_nil_r; reflexivity |]. split; reflexivity. }
  destruct (inv_run _ Hinv Hcb) as (Heng & Htot & _).
  destruct (sort_cb_spec w Heng Htot)
    as (continue & w1 & _ & new & _ & _ & Hrun & _ & Hem & Hm & Hs & _ & Hperm & Hb & Hframe & _).
  cbv zeta in Hem.
  assert (Hsize : Z.of_nat (length (items (self w))) < guint_modulus) by lia.
  pose proof (sort_step_range_bounds _ _ Hsize Hb) as Hbounds. cbv zeta in Hbounds.
  pose proof (sort_step_range _ _ Hsize Hb) as Hrange. cbv zeta in Hrange.
  unfold bind at 1. rewrite Hrun. unfold ret.
  exists w1. eexists. split; [reflexivity |]. split_and!.
  - apply (buffer_consistent_perm (self w)); assumption.
  - exact Hem.
  - rewrite (n_items_fields (self w) (self w1) Hm).
    set (n := if (_ <? _)%nat then guint (_ - _) else 0) in *.
    replace (if n =? 0 then [] else _) with
      (if negb (n =? 0)
       then [{| ic_position := if (fold_left widen_start new (length (items (self w)))
                                   <? fold_left widen_end new 0)%nat
                               then guint (Z.of_nat (fold_left widen_start new
                                                       (length (items (self w)))))
                               else 0;
                ic_removed := n; ic_added := n |}]
       else []) by (destruct (n =? 0); reflexivity).
    apply replay_maybe. intros _. lia.
  - set (n := if (_ <? _)%nat then guint (_ - _) else 0) in *.
    replace (if n =? 0 then [] else _) with
      (if negb (n =? 0)
       then [{| ic_position := if (fold_left widen_start new (length (items (self w)))
                                   <? fold_left widen_end new 0)%nat
                               then guint (Z.of_nat (fold_left widen_start new
                                                       (length (items (self w)))))
                               else 0;
                ic_removed := n; ic_added := n |}]
       else []) by (destruct (n =? 0); reflexivity).
    apply updates_listener_frame.
    + apply n_items_fields. exact Hm.
    + lia.
    + lia.
    + lia.
    + intros j Hj. apply get_item_frame.
      * exact Hm.
      * rewrite (Permutation_length Hperm). reflexivity.
      * apply Hframe. eapply outside_range_untouched; [exact Hrange | exact Hj].
    + intros Hc. apply Bool.negb_false_iff in Hc. apply Z.eqb_eq in Hc. exact Hc.
Qed.

(** The notification [(0, n, n')] that replaces the whole sequence. *)
Lemma updates_listener_replace s s' (c : bool) n n' :
  n = gtk_tim2_sort_model_get_n_items s -> n' = gtk_tim2_sort_model_get_n_items s' ->
  (c = false -> n = 0 /\ n' = 0) ->
  updates_listener
    (if c then [{| ic_position := 0; ic_removed := n; ic_added := n' |}] else [])
    (get_all s) (get_all s').
Proof.
  intros -> -> Hc.
  pose proof (n_items_nonneg s) as Hn. pose proof (n_items_nonneg s') as Hn'.
  destruct c.
  - apply updates_listener_one; try lia.
    + rewrite !get_all_length. lia.
    + rewrite get_all_length. lia.
    + intros j Hj.
      rewrite !lookup_ge_None_2; [reflexivity | |]; rewrite get_all_length; lia.
  - destruct (Hc eq_refl) as [H0 H0'].
    unfold updates_listener. simpl.
    rewrite (nil_length_inv (get_all s)) by (rewrite get_all_length, H0; reflexivity).
    rewrite (nil_length_inv (get_all s')) by (rewrite get_all_length, H0'; reflexivity).
    reflexivity.
Qed.

Lemma set_model_total m w :
  model_inv (self w) -> buffer_consistent (self w) ->
  match m with
  | Some new => Z.of_nat (length (model_items new)) < guint_modulus
  | None => True
  end ->
  (m <> None -> model (self w) = None -> sort_cb (self w) = 0%nat) ->
  exists w' l,
    gtk_tim2_sort_model_set_model m w = Some (tt, w') /\
    buffer_consistent (self w') /\
    model (self w') = (if same_model (model (self w)) m then model (self w) else m) /\
    sorter (self w') = sorter (self w) /\
    incremental (self w') = incremental (self w) /\
    emitted w' = emitted w ++ l /\
    replay l (gtk_tim2_sort_model_get_n_items (self w))
      = Some (gtk_tim2_sort_model_get_n_items (self w')) /\
    updates_listener l (get_all (self w)) (get_all (self w')).
Proof.
  intros Hinv Hcons Hlen Hidle.
  destruct (buffer_length_le _ (buffer_consistent_weaken _ Hcons)) as [_ Hn].
  assert (Hn0 : 0 <= gtk_tim2_sort_model_get_n_items (self w)).
  { unfold gtk_tim2_sort_model_get_n_items, g_list_model_get_n_items.
    destruct (model (self w)); lia. }
  unfold gtk_tim2_sort_model_set_model. rewrite bind_get_self.
  destruct (same_model (model (self w)) m) eqn:Hsame.
  { exists w, []. split; [reflexivity |]. split; [exact Hcons |].
    split; [reflexivity |]. split; [reflexivity |]. split; [reflexivity |].
    split; [rewrite app_nil_r; reflexivity |]. split; reflexivity. }
  destruct (clear_model_spec w (inv_no_model _ Hinv))
    as (w1 & Hclear & He1 & Hm1 & Hitems1 & Hs1 & Hi1 & Hcb1).
  unfold bind at 1. rewrite Hclear.
  set (n := gtk_tim2_sort_model_get_n_items (self w)) in *.
  destruct m as [new |].
  - (* a new model is attached *)
    assert (Hcb1' : sort_cb (self w1) = 0%nat).
    { destruct (model (self w)) eqn:Hm; [exact Hcb1 |].
      subst w1. apply Hidle; [discriminate | reflexivity]. }
    unfold bind at 1. rewrite bind_modify_self.
    set (w2 := with_self (set_model_field (Some new) (self w1)) w1).
    destruct (create_items_spec w2)
      as (w3 & Hcreate & He3 & _ & (Hc1 & Hc2 & Hc3 & Hc4) & _ & Hit3).
    unfold bind at 1. rewrite Hcreate.
    change (model (self w2)) with (Some new) in *.
    change (items (self w2)) with (items (self w1)) in Hit3.
    rewrite Hitems1, create_items_loop_source in Hit3.
    assert (Hcons3 : forall s', model s' = model (self w3) -> sorter s' = sorter (self w3) ->
              items s' ≡ₚ items (self w3) -> buffer_consistent s').
    { intros s' Hm' Hs' Hp'. apply (buffer_consistent_perm (self w3)); try assumption.
      unfold buffer_consistent. rewrite Hc1. split; [exact Hlen |].
      rewrite (should_sort_fields (self w2) (self w3) Hc1 Hc2), Hit3.
      destruct (gtk_tim2_sort_model_should_sort (self w2)); [| reflexivity].
      unfold I1. reflexivity. }
    assert (Hok3 : forall so', sorter (self w3) = Some so' -> sorter_ok so').
    { intros so' H. apply (inv_sorter _ Hinv). rewrite <- Hs1. rewrite Hc2 in H. exact H. }
    assert (Hnone3 : model (self w3) = None -> items (self w3) = []).
    { rewrite Hc1. discriminate. }
    assert (Hcb3 : sort_cb (self w3) = 0%nat) by (rewrite Hc4; exact Hcb1').
    destruct (start_sorting_inv None w3 Hcb3 I Hok3 Hnone3)
      as (w4 & Hstart & He4 & _ & (Hs41 & Hs42 & Hs43 & Hs44) & _ & Hsync).
    unfold bind at 1. rewrite Hstart.
    assert (He32 : emitted w3 = emitted w).
    { rewrite He3. exact He1. }
    assert (Hi32 : incremental (self w3) = incremental (self w)).
    { rewrite Hc3. exact Hi1. }
    assert (Hend : exists w5,
              (if incremental (self w3) then ret tt
               else gtk_tim2_sort_model_finish_sorting ;;; ret tt) w4 = Some (tt, w5) /\
              emitted w5 = emitted w /\ model (self w5) = Some new /\
              sorter (self w5) = sorter (self w) /\
              incremental (self w5) = incremental (self w) /\
              buffer_consistent (self w5)).
    { assert (Hs32 : sorter (self w3) = sorter (self w)).
      { rewrite Hc2. exact Hs1. }
      destruct (incremental (self w3)) eqn:Hinc3.
      - exists w4. split; [reflexivity |]. split_and!.
        + congruence.
        + congruence.
        + congruence.
        + congruence.
        + apply Hcons3; [exact Hs41 | exact Hs42 | rewrite Hs44; reflexivity].
      - destruct Hsync as (pn & w5 & Hfin & He5 & _ & Hm5 & Hs5 & Hi5 & Hp5 & _); [reflexivity |].
        exists w5. split; [unfold bind; rewrite Hfin; reflexivity |]. split_and!.
        + congruence.
        + congruence.
        + congruence.
        + congruence.
        + apply Hcons3; assumption. }
    destruct Hend as (w5 & Hend & He5 & Hm5 & Hso5 & Hi5 & Hcons5).
    unfold bind at 1. rewrite Hend. unfold ret at 1.
    destruct (maybe_items_changed_total ((0 <? n) || (0 <? g_list_model_get_n_items new))
                0 n (g_list_model_get_n_items new) w5)
      as (w6 & Hemit & Hself & _ & Hem).
    exists w6. eexists. split; [exact Hemit |]. rewrite Hself. split_and!.
    + exact Hcons5.
    + exact Hm5.
    + exact Hso5.
    + exact Hi5.
    + rewrite Hem, He5. reflexivity.
    + unfold gtk_tim2_sort_model_get_n_items at 1. rewrite Hm5.
      unfold g_list_model_get_n_items in *.
      destruct ((0 <? n) || (0 <? Z.of_nat (length (model_items new)))) eqn:Hany.
      * rewrite replay_one by lia. f_equal. lia.
      * apply Bool.orb_false_elim in Hany as [H1 H2].
        apply Z.ltb_ge in H1. apply Z.ltb_ge in H2. simpl. f_equal. lia.
    + apply updates_listener_replace.
      * reflexivity.
      * unfold gtk_tim2_sort_model_get_n_items. rewrite Hm5. reflexivity.
      * intros Hany. apply Bool.orb_false_elim in Hany as [H1 H2].
        apply Z.ltb_ge in H1. apply Z.ltb_ge in H2.
        unfold g_list_model_get_n_items in *. lia.
  - (* the model is detached *)
    unfold ret at 1.
    destruct (maybe_items_changed_total ((0 <? n) || (0 <? 0)) 0 n 0 w1)
      as (w6 & Hemit & Hself & _ & Hem).
    exists w6. eexists. split; [exact Hemit |]. rewrite Hself. split_and!.
    + unfold buffer_consistent. rewrite Hm1. exact Hitems1.
    + exact Hm1.
    + exact Hs1.
    + exact Hi1.
    + rewrite Hem, He1. reflexivity.
    + unfold gtk_tim2_sort_model_get_n_items at 1. rewrite Hm1.
      destruct ((0 <? n) || (0 <? 0)) eqn:Hany.
      * rewrite replay_one by lia. f_equal. lia.
      * apply Bool.orb_false_elim in Hany as [H1 _].
        apply Z.ltb_ge in H1. simpl. f_equal. lia.
    + apply updates_listener_replace.
      * reflexivity.
      * unfold gtk_tim2_sort_model_get_n_items. rewrite Hm1. reflexivity.
      * intros Hany. apply Bool.orb_false_elim in Hany as [H1 _].
        apply Z.ltb_ge in H1. lia.
Qed.

(** ** The notification of a handled source edit *)

Lemma filter_kept_gone (f : SortItem -> bool) (l : SortArray) :
  (length (List.filter f l) = 0%nat -> Forall (fun x => f x = false) l) /\
  ((0 < length (List.filter f l))%nat -> Exists (fun x => f x = true) l).
Proof.
  induction l as [| x l [IH1 IH2]]; simpl.
  - split; [constructor | lia].
  - destruct (f x) eqn:E; simpl.
    + split; [lia |]. intros _. apply Exists_cons_hd. exact E.
    + split.
      * intros H. constructor; [exact E | apply IH1; exact H].
      * intros H. apply Exists_cons_tl. apply IH2. exact H.
Qed.

Lemma guint_add_l a b : guint (guint a + b) = guint (a + b).
Proof. unfold guint. apply Zplus_mod_idemp_l. Qed.

(** In sorted mode, handling a source edit returns, leaves the buffer
    consistent with the edited source, and emits one notification.  The
    notification lies within the old sequence, changes the length by
    [added - removed], and the buffer entries before and behind the range
    it names hold the same elements as before. *)
Lemma items_changed_cb_sorted w m old position removed added :
  model_inv (self w) ->
  model (self w) = Some m ->
  model_items m = splice old position removed added ->
  gtk_tim2_sort_model_should_sort (self w) = true ->
  I1 (items (self w)) old ->
  0 <= position -> 0 <= removed ->
  position + removed <= Z.of_nat (length old) ->
  Z.of_nat (length old) < guint_modulus ->
  Z.of_nat (length old) - removed + Z.of_nat (length added) < guint_modulus ->
  ~ (removed = 0 /\ added = []) ->
  exists w' c,
    gtk_tim2_sort_model_items_changed_cb position removed (Z.of_nat (length added)) w
      = Some (tt, w') /\
    model (self w') = Some m /\ sorter (self w') = sorter (self w) /\
    I1 (items (self w')) (model_items m) /\
    unreffed w' = unreffed w
                  ++ omap si_item (dropped_items position removed (items (self w))) /\
    emitted w' = emitted w ++ [c] /\
    0 <= ic_position c /\ 0 <= ic_removed c /\ 0 <= ic_added c /\
    ic_position c + ic_removed c <= Z.of_nat (length old) /\
    ic_added c - ic_removed c = Z.of_nat (length added) - removed /\
    (forall j : nat, Z.of_nat j < ic_position c ->
       si_item <$> items (self w') !! j = si_item <$> items (self w) !! j) /\
    (forall j : nat, ic_position c + ic_added c <= Z.of_nat j ->
       si_item <$> items (self w') !! j
       = si_item <$> items (self w) !! Z.to_nat (Z.of_nat j - ic_added c + ic_removed c)).
Proof.
  intros Hinv Hm Hnew Hss HI Hp Hr Hw Hold Hfit Hedit.
  unfold gtk_tim2_sort_model_items_changed_cb.
  destruct ((removed =? 0) && (Z.of_nat (length added) =? 0)) eqn:Hzero.
  { exfalso. apply Hedit. apply andb_prop in Hzero as [Hr0 Ha0].
    apply Z.eqb_eq in Hr0. apply Z.eqb_eq in Ha0.
    split; [exact Hr0 |]. destruct added; [reflexivity | simpl in Ha0; lia]. }
  rewrite bind_get_self, Hss. cbn [negb].
  pose proof Hss as Hss'. apply should_sort_true in Hss' as (so & m' & Hso & Hm' & _).
  destruct (stop_sorting_spec w)
    as (runs & w1 & Hstop & He1 & Hu1 & _ & (Hd1 & Hd2 & Hd3 & Hd4) & Hcb1 & Hidle).
  unfold bind at 1. rewrite Hstop. rewrite bind_get_self.
  set (A := Z.of_nat (length added)).
  set (p := Z.to_nat position).
  assert (Ep : position = Z.of_nat p) by (unfold p; lia).
  assert (Er : removed = Z.of_nat (Z.to_nat removed)) by lia.
  (* the translator *)
  assert (Hpos := I1_positions _ _ HI).
  assert (Hlen : length (items (self w)) = length old) by (apply I1_length; exact HI).
  assert (Hrange : edit_in_range position removed A (items (self w))).
  { unfold edit_in_range, is_guint. split_and!; try lia.
    eapply Forall_impl; [exact Hpos |]. simpl. intros si Hsi. split; [lia |]. intros _. lia. }
  destruct (update_item_in_range _ _ _ _ Hrange) as [Hk Hd].
  assert (Hrg : is_guint removed) by (unfold is_guint; lia).
  assert (Hlen' : Z.of_nat (length (items (self w))) < guint_modulus) by lia.
  assert (Hcount := I1_window_count _ _ _ _ HI Hp Hr Hw).
  destruct (update_items_machine (items (self w)) runs position removed A Hlen' Hrg)
    as [Hsome _].
  cbv zeta in Hsome. rewrite Hk, Hd in Hsome.
  destruct (Hsome Hcount) as (upd & Hupd & Hitems & Hunrefs & Hruns & _).
  destruct (update_items_range_spec _ _ _ _ _ _ Hlen' Hupd)
    as (s & e & Hs & He & Hpre & Hsuf & Hnone & Hgone).
  cbv zeta in Hpre, Hsuf, Hnone, Hgone.
  set (n' := length (ur_items upd)) in *.
  assert (Hn' : Z.of_nat n' = Z.of_nat (length old) - removed).
  { pose proof (omap_filter_length (update_item position removed A)
                  (update_drops position removed) (items (self w))
                  (update_item_drops position removed A)) as Hsum.
    rewrite Hk, Hd, <- Hitems in Hsum. fold n' in Hsum. lia. }
  destruct (filter_kept_gone (update_drops position removed) (items (self w))) as [Hf0 Hf1].
  rewrite Hd in Hf0, Hf1.
  assert (Hsn : (s <= n')%nat).
  { destruct (Z.eq_dec removed 0) as [Hr0 | Hr0].
    - destruct Hnone as (-> & _ & ->); [apply Hf0; lia | lia].
    - destruct Hgone as (_ & Hle & _); [apply Hf1; lia | lia]. }
  rewrite Hd4, Hupd.
  rewrite bind_modify_self, bind_unref_all.
  set (w2 := with_unreffed _ (with_self (set_items (ur_items upd) (self w1)) w1)).
  assert (Hm2 : model (self w2) = Some m) by (simpl; congruence).
  assert (Hs2 : sorter (self w2) = Some so) by (simpl; congruence).
  assert (He2 : emitted w2 = emitted w) by exact He1.
  assert (Hu2 : unreffed w2 = unreffed w
                ++ omap si_item (dropped_items position removed (items (self w)))).
  { unfold w2. simpl. rewrite Hu1, Hunrefs. reflexivity. }
  assert (Hrok : runs_until_zero (ur_runs upd) = []).
  { rewrite Hruns. apply runs_until_zero_reset. }
  assert (Hok : forall so', Some so = Some so' -> sorter_ok so').
  { intros so' E. apply (inv_sorter _ Hinv). congruence. }
  set (appended := map (fun i : nat => {| si_item := model_items m !! i;
                                          si_position := Z.of_nat i |})
                     (seq p (length added))).
  set (target := ur_items upd ++ appended).
  assert (Htarget : target ≡ₚ source_items (model_items m)).
  { unfold target, appended. rewrite Hitems. unfold A. rewrite Hnew, Ep, Er.
    apply I1_after_edit; [exact HI | lia]. }
  assert (Htlen : length target = (n' + length added)%nat).
  { unfold target, appended. rewrite length_app, length_map, length_seq. reflexivity. }
  (* the unmodified range after the buffer has been completed *)
  set (comp := if 0 <? A then _ else _).
  assert (Hmid : exists w6 (st en : nat),
            comp w2 = Some ((Z.of_nat st, Z.of_nat en), w6) /\
            emitted w6 = emitted w /\ unreffed w6 = unreffed w2 /\
            model (self w6) = Some m /\ sorter (self w6) = sorter (self w) /\
            items (self w6) ≡ₚ target /\
            (st + en <= n')%nat /\
            (forall j, (j < st)%nat ->
               si_item <$> items (self w6) !! j = si_item <$> items (self w) !! j) /\
            (forall i, (i < en)%nat ->
               si_item <$> items (self w6) !! (n' + length added - en + i)%nat
               = si_item <$> items (self w) !! (length old - en + i)%nat)).
  { unfold comp. clear comp.
    destruct (Z.ltb_spec 0 A) as [Hadd | Hadd].
    - (* elements were added: they are appended and the buffer is sorted *)
      rewrite bind_get_self, Hm2, bind_modify_self.
      set (w3 := with_self _ w2).
      assert (Hitems3 : items (self w3) = target).
      { unfold w3, target, appended. simpl. unfold A. rewrite append_added_items by lia.
        reflexivity. }
      assert (Hcb3 : sort_cb (self w3) = 0%nat) by exact Hcb1.
      assert (Hok3 : forall so', sorter (self w3) = Some so' -> sorter_ok so').
      { intros so' Hso'. apply Hok. simpl in Hso'. congruence. }
      assert (Hnone3 : model (self w3) = None -> items (self w3) = []).
      { simpl. rewrite Hd1, Hm. discriminate. }
      destruct (start_sorting_inv (Some (ur_runs upd)) w3 Hcb3 Hrok Hok3 Hnone3)
        as (w4 & Hstart & He4 & Hu4 & (Hs41 & Hs42 & _ & Hs44) & _ & Hsync).
      destruct (start_sorting_spec (Some (ur_runs upd)) w3 Hcb3 Hrok)
        as (w4' & Hstart' & _ & _ & _ & _ & Heng4 & Hcmp4 & _).
      rewrite Hstart in Hstart'. injection Hstart' as <-.
      unfold bind at 1. rewrite Hstart.
      assert (Hpre3 : forall j, (j < s)%nat ->
                si_item <$> target !! j = si_item <$> items (self w) !! j).
      { intros j Hj. unfold target. rewrite lookup_app_l by (fold n'; lia).
        apply Hpre. exact Hj. }
      destruct (incremental (self w3)).
      + exists w4, s, 0%nat. unfold ret. rewrite Hs. split; [reflexivity |].
        split_and!.
        * rewrite He4. exact He2.
        * exact Hu4.
        * rewrite Hs41. exact Hm2.
        * rewrite Hs42. simpl. congruence.
        * rewrite Hs44, Hitems3. reflexivity.
        * lia.
        * intros j Hj. rewrite Hs44, Hitems3. apply Hpre3. exact Hj.
        * intros i Hi. lia.
      + destruct Hsync as (pn & w5 & Hfin & He5 & Hu5 & Hm5 & Hs5 & _ & Hp5 & _);
          [reflexivity |].
        assert (Htot4 : compare_total (ts_compare (sort (self w4)))).
        { rewrite Hcmp4. apply sort_func_total. exact Hok3. }
        assert (Hsize4 : Z.of_nat (length (items (self w4))) < guint_modulus).
        { rewrite Hs44, Hitems3, Htlen. lia. }
        destruct (finish_sorting_range w4 pn w5 Heng4 Htot4 Hsize4 Hfin)
          as (Hp0 & Hn0 & Hpn & Hframe).
        unfold bind at 1. rewrite Hfin. rewrite bind_get_self. unfold ret.
        exists w5, (Z.to_nat (Z.min (Z.of_nat s) (fst pn))), 0%nat.
        split.
        { assert (Hgs : 0 <= gsize (Z.of_nat (sort_array_get_size (items (self w5)))
                                    - fst pn - snd pn)).
          { unfold gsize. apply Z.mod_pos_bound. lia. }
          rewrite Hs, (Z.min_l 0) by exact Hgs.
          rewrite Z2Nat.id by lia. reflexivity. }
        split_and!.
        * rewrite He5. exact He2.
        * exact Hu5.
        * rewrite Hm5. exact Hm2.
        * rewrite Hs5. simpl. congruence.
        * rewrite Hp5, Hitems3. reflexivity.
        * lia.
        * intros j Hj. rewrite Hframe by lia. rewrite Hs44, Hitems3.
          apply Hpre3. lia.
        * intros i Hi. lia.
    - (* a pure removal: the run in flight, if any, is started again *)
      assert (Ha : length added = 0%nat) by (unfold A in Hadd; lia).
      assert (Hr1 : 0 < removed).
      { destruct (Z.eq_dec removed 0) as [Hr0 | Hr0]; [| lia].
        exfalso. apply Hedit. split; [exact Hr0 |].
        destruct added; [reflexivity | discriminate]. }
      destruct Hgone as (_ & Hse & _); [apply Hf1; lia |].
      assert (Htarget2 : ur_items upd = target).
      { unfold target, appended. rewrite Ha. simpl. rewrite app_nil_r. reflexivity. }
      assert (Hagain : exists w4,
                (if gtk_tim2_sort_model_is_sorting (self w)
                 then gtk_tim2_sort_model_start_sorting (Some (ur_runs upd)) ;;; ret tt
                 else ret tt) w2 = Some (tt, w4) /\
                emitted w4 = emitted w /\ unreffed w4 = unreffed w2 /\
                model (self w4) = Some m /\
                sorter (self w4) = sorter (self w) /\ items (self w4) = ur_items upd).
      { destruct (gtk_tim2_sort_model_is_sorting (self w)).
        - destruct (start_sorting_spec (Some (ur_runs upd)) w2 Hcb1 Hrok)
            as (w4 & Hstart & He4 & Hu4 & _ & (Hs41 & Hs42 & _ & Hs44) & _).
          exists w4. split; [unfold bind; rewrite Hstart; reflexivity |].
          split_and!.
          + rewrite He4. exact He2.
          + exact Hu4.
          + rewrite Hs41. exact Hm2.
          + rewrite Hs42. simpl. congruence.
          + rewrite Hs44. reflexivity.
        - exists w2. split; [reflexivity |].
          split_and!; try assumption; try reflexivity; simpl; congruence. }
      destruct Hagain as (w4 & Hagain & He4 & Hu4 & Hm4 & Hs4 & Hi4).
      unfold bind at 1. rewrite Hagain. unfold ret.
      exists w4, s, e. rewrite Hs, He. split; [reflexivity |].
      split_and!; try assumption.
      + rewrite Hi4, Htarget2. reflexivity.
      + intros j Hj. rewrite Hi4. apply Hpre. exact Hj.
      + intros i Hi. rewrite Hi4, Ha, Nat.add_0_r. rewrite <- Hlen.
        apply Hsuf. exact Hi. }
  destruct Hmid as (w6 & st & en & Hmid & He6 & Hu6 & Hm6 & Hs6 & Hp6 & Hsten & Hpre6 & Hsuf6).
  unfold bind at 1. rewrite Hmid. rewrite bind_get_self. cbn [fst snd]. cbv zeta.
  assert (HF : length (items (self w6)) = (n' + length added)%nat).
  { rewrite (Permutation_length Hp6). exact Htlen. }
  unfold sort_array_get_size. rewrite HF.
  set (ni := Z.of_nat (n' + length added) - Z.of_nat st - Z.of_nat en).
  assert (Hni : guint ni = ni).
  { apply guint_small. unfold is_guint, ni. lia. }
  assert (Hre : guint (guint (guint ni - A) + removed) = ni - A + removed).
  { rewrite Hni, guint_add_l. apply guint_small. unfold is_guint, ni, A. lia. }
  rewrite Hre, Hni.
  eexists _, _. split; [reflexivity |].
  cbv beta iota delta [ic_position ic_removed ic_added].
  cbn [self emitted unreffed with_emitted].
  split_and!; try assumption.
  - unfold I1. rewrite Hp6. exact Htarget.
  - rewrite Hu6. exact Hu2.
  - rewrite He6. reflexivity.
  - lia.
  - unfold ni, A. lia.
  - unfold ni. lia.
  - unfold ni, A. lia.
  - unfold ni, A. lia.
  - intros j Hj. apply Hpre6. lia.
  - intros j Hj.
    destruct (Nat.lt_ge_cases j (n' + length added)) as [Hlt | Hge].
    + replace j with (n' + length added - en + (j - (n' + length added - en)))%nat at 1
        by (unfold ni in Hj; lia).
      rewrite Hsuf6 by (unfold ni in Hj; lia).
      f_equal. f_equal. unfold ni, A in *. lia.
    + rewrite (lookup_ge_None_2 (items (self w6))) by (rewrite HF; lia).
      rewrite (lookup_ge_None_2 (items (self w))); [reflexivity |].
      rewrite Hlen. unfold ni, A in *. lia.
Qed.

Lemma model_inv_set_model s m m' :
  model s = Some m -> model_inv s -> model_inv (set_model_field (Some m') s).
Proof.
  intros Hm [H1 H2 H3 H4 H5]. constructor; simpl; try assumption. discriminate.
Qed.

Lemma map_lookup_seq {A} (l : list A) :
  map (fun i => l !! i) (seq 0 (length l)) = Some <$> l.
Proof.
  apply list_eq. intros i. rewrite !list_lookup_fmap.
  destruct (Nat.lt_ge_cases i (length l)) as [Hlt | Hge].
  - rewrite lookup_seq_lt by exact Hlt. simpl.
    destruct (lookup_lt_is_Some_2 l i Hlt) as [x Hx]. rewrite Hx. reflexivity.
  - rewrite lookup_seq_ge by exact Hge.
    rewrite (lookup_ge_None_2 l i Hge). reflexivity.
Qed.

Lemma Permutation_of_eq_gen {A} (l l' : list A) : l = l' -> l ≡ₚ l'.
Proof. intros ->. reflexivity. Qed.

Lemma get_all_consistent s m :
  buffer_consistent s -> model s = Some m ->
  get_all s ≡ₚ Some <$> model_items m /\
  (gtk_tim2_sort_model_should_sort s = false -> get_all s = Some <$> model_items m).
Proof.
  unfold buffer_consistent. intros Hcons Hm. rewrite Hm in Hcons.
  destruct Hcons as [Hlen Hcons].
  unfold get_all, gtk_tim2_sort_model_get_n_items, gtk_tim2_sort_model_get_item.
  rewrite Hm. unfold g_list_model_get_n_items. rewrite Nat2Z.id.
  assert (Hpass : map (fun i : nat => g_list_model_get_item m (Z.of_nat i))
                    (seq 0 (length (model_items m))) = Some <$> model_items m).
  { rewrite <- map_lookup_seq. apply map_ext. intros i. unfold g_list_model_get_item.
    destruct (Z.ltb_spec (Z.of_nat i) 0); [lia |]. rewrite Nat2Z.id. reflexivity. }
  destruct (gtk_tim2_sort_model_should_sort s).
  - split; [| discriminate].
    destruct (items s) as [| x rest] eqn:Hitems.
    + simpl sort_array_is_empty. cbv iota. rewrite Hpass. reflexivity.
    + simpl sort_array_is_empty. cbv iota. rewrite <- Hitems in *.
      assert (Hl : length (items s) = length (model_items m)) by (apply I1_length; exact Hcons).
      transitivity (si_item <$> items s).
      { apply Permutation_of_eq_gen. apply list_eq. intros i. rewrite !list_lookup_fmap.
        destruct (Nat.lt_ge_cases i (length (items s))) as [Hlt | Hge].
        - rewrite lookup_seq_lt by lia. simpl. unfold sort_array_get_size.
          destruct (Z.leb_spec (Z.of_nat (length (items s))) (Z.of_nat i)); [lia |].
          rewrite Nat2Z.id.
          destruct (lookup_lt_is_Some_2 (items s) i Hlt) as [si Hsi]. rewrite Hsi.
          reflexivity.
        - rewrite lookup_seq_ge by lia.
          rewrite (lookup_ge_None_2 (items s) i Hge). reflexivity. }
      unfold I1 in Hcons. rewrite Hcons.
      unfold source_items. rewrite <- list_fmap_compose.
      rewrite <- map_lookup_seq. apply Permutation_of_eq_gen. reflexivity.
  - rewrite Hcons. simpl sort_array_is_empty. cbv iota. rewrite Hpass.
    split; reflexivity.
Qed.

(** ** The public sequence read from the buffer *)

Lemma get_all_buffer s m :
  buffer_consistent s -> model s = Some m ->
  gtk_tim2_sort_model_should_sort s = true ->
  get_all s = si_item <$> items s.
Proof.
  unfold buffer_consistent. intros Hcons Hm Hss. rewrite Hm, Hss in Hcons.
  destruct Hcons as [_ HI]. pose proof (I1_length _ _ HI) as Hl.
  unfold get_all, gtk_tim2_sort_model_get_n_items, gtk_tim2_sort_model_get_item.
  rewrite Hm. unfold g_list_model_get_n_items. rewrite Nat2Z.id, <- Hl.
  destruct (items s) as [| x rest] eqn:Hitems; [reflexivity |].
  simpl sort_array_is_empty. cbv iota. rewrite <- Hitems in HI, Hl |- *. clear Hitems x rest.
  apply list_eq. intros i. rewrite !list_lookup_fmap.
  destruct (Nat.lt_ge_cases i (length (items s))) as [Hlt | Hge].
  - rewrite lookup_seq_lt by lia. simpl. unfold sort_array_get_size.
    destruct (Z.leb_spec (Z.of_nat (length (items s))) (Z.of_nat i)); [lia |].
    rewrite Nat2Z.id.
    destruct (lookup_lt_is_Some_2 (items s) i Hlt) as [si Hsi]. rewrite Hsi.
    reflexivity.
  - rewrite lookup_seq_ge by lia.
    rewrite (lookup_ge_None_2 (items s) i Hge). reflexivity.
Qed.

Lemma get_all_same_source s s' m m' :
  model s = Some m -> model s' = Some m' -> model_items m' = model_items m ->
  items s' = items s -> get_all s' = get_all s.
Proof.
  intros Hm Hm' Hsrc Hi.
  unfold get_all, gtk_tim2_sort_model_get_n_items, gtk_tim2_sort_model_get_item,
    g_list_model_get_n_items, g_list_model_get_item.
  rewrite Hm, Hm', Hsrc, Hi. reflexivity.
Qed.

Lemma splice_lookup_before (l : list GObject) position removed added (j : nat) :
  0 <= position -> position <= Z.of_nat (length l) -> Z.of_nat j < position ->
  splice l position removed added !! j = l !! j.
Proof.
  intros Hp Hle Hj. unfold splice.
  rewrite lookup_app_l by (rewrite length_take; lia).
  apply lookup_take_lt. lia.
Qed.

Lemma splice_lookup_after (l : list GObject) position removed added (j : nat) :
  0 <= position -> 0 <= removed -> position + removed <= Z.of_nat (length l) ->
  position + Z.of_nat (length added) <= Z.of_nat j ->
  splice l position removed added !! j
  = l !! Z.to_nat (Z.of_nat j - Z.of_nat (length added) + removed).
Proof.
  intros Hp Hr Hle Hj. unfold splice.
  rewrite lookup_app_r by (rewrite length_take; lia).
  rewrite lookup_app_r by (rewrite length_take; lia).
  rewrite lookup_drop, length_take. f_equal. lia.
Qed.

Lemma source_items_changed_total position removed added w :
  model_inv (self w) -> buffer_consistent (self w) ->
  op_ok w (SourceItemsChanged position removed added) ->
  exists w' l,
    source_items_changed position removed added w = Some (tt, w') /\
    buffer_consistent (self w') /\
    emitted w' = emitted w ++ l /\
    replay l (gtk_tim2_sort_model_get_n_items (self w))
      = Some (gtk_tim2_sort_model_get_n_items (self w')) /\
    updates_listener l (get_all (self w)) (get_all (self w')).
Proof.
  intros Hinv Hcons Hop. unfold source_items_changed. rewrite bind_get_self.
  pose proof Hcons as Hcons0.
  simpl in Hop. unfold buffer_consistent in Hcons.
  destruct (model (self w)) as [m |] eqn:Hm.
  2: { exists w, []. split; [reflexivity |]. split_and!.
       - unfold buffer_consistent. rewrite Hm. exact Hcons.
       - rewrite app_nil_r. reflexivity.
       - reflexivity.
       - reflexivity. }
  destruct Hop as (Hp & Hr & Hw & Hfit). destruct Hcons as [Hold Hcons].
  rewrite bind_modify_self.
  set (m' := {| model_id := model_id m;
                model_items := splice (model_items m) position removed added |}).
  set (w0 := with_self (set_model_field (Some m') (self w)) w).
  assert (Hss0 : gtk_tim2_sort_model_should_sort (self w0)
                 = gtk_tim2_sort_model_should_sort (self w)).
  { unfold gtk_tim2_sort_model_should_sort. simpl. rewrite Hm. reflexivity. }
  assert (Hlen' : Z.of_nat (length (model_items m'))
                  = Z.of_nat (length (model_items m)) - removed + Z.of_nat (length added)).
  { simpl.
    replace position with (Z.of_nat (Z.to_nat position)) by lia.
    replace removed with (Z.of_nat (Z.to_nat removed)) at 1 by lia.
    rewrite (splice_length (model_items m) (Z.to_nat position) (Z.to_nat removed)
               (length added)) by (try reflexivity; lia).
    lia. }
  assert (Hn : gtk_tim2_sort_model_get_n_items (self w) = Z.of_nat (length (model_items m))).
  { unfold gtk_tim2_sort_model_get_n_items. rewrite Hm. reflexivity. }
  assert (Hn0 : gtk_tim2_sort_model_get_n_items (self w0)
                = Z.of_nat (length (model_items m'))) by reflexivity.
  destruct (decide (removed = 0 /\ added = [])) as [[-> ->] | Hedit].
  { exists w0, []. split; [reflexivity |]. split_and!.
    - unfold buffer_consistent. rewrite Hss0. simpl.
      rewrite splice_nothing. split; assumption.
    - rewrite app_nil_r. reflexivity.
    - rewrite Hn0, Hn, Hlen'. simpl. f_equal. lia.
    - unfold updates_listener. simpl. symmetry.
      apply (get_all_same_source (self w) (self w0) m m'); try reflexivity; try assumption.
      simpl. apply splice_nothing. }
  destruct (gtk_tim2_sort_model_should_sort (self w)) eqn:Hss.
  - (* sorted mode *)
    assert (Hinv0 : model_inv (self w0)).
    { apply (model_inv_set_model _ m); assumption. }
    destruct (items_changed_cb_sorted w0 m' (model_items m) position removed added
                Hinv0 eq_refl eq_refl Hss0 Hcons Hp Hr Hw Hold Hfit Hedit)
      as (w' & c & Hrun & Hm1 & Hs1 & HI1 & _ & Hem & Hc1 & Hc2 & Hc3 & Hc4 & Hc5 & Hpre & Hsuf).
    assert (Hss' : gtk_tim2_sort_model_should_sort (self w') = true).
    { rewrite (should_sort_fields (self w0) (self w')); [exact Hss0 | | exact Hs1].
      rewrite Hm1. reflexivity. }
    assert (Hcons' : buffer_consistent (self w')).
    { unfold buffer_consistent. rewrite Hm1, Hss'. split; [lia | exact HI1]. }
    exists w', [c]. split; [exact Hrun |]. split; [exact Hcons' |].
    split; [exact Hem |].
    destruct c as [cp cr ca]. cbn [ic_position ic_removed ic_added] in *.
    split.
    + rewrite Hn, replay_one by lia. f_equal.
      unfold gtk_tim2_sort_model_get_n_items. rewrite Hm1.
      unfold g_list_model_get_n_items. lia.
    + rewrite (get_all_buffer _ _ Hcons0 Hm Hss), (get_all_buffer _ _ Hcons' Hm1 Hss').
      apply updates_listener_one; try assumption.
      * rewrite !length_fmap, (I1_length _ _ HI1), (I1_length _ _ Hcons). lia.
      * rewrite length_fmap, (I1_length _ _ Hcons). exact Hc4.
      * intros j Hj. rewrite !list_lookup_fmap. apply Hpre. exact Hj.
      * intros j Hj. rewrite !list_lookup_fmap. apply Hsuf. exact Hj.
  - (* pass-through mode: the notification is forwarded *)
    unfold gtk_tim2_sort_model_items_changed_cb.
    assert (Hz : (removed =? 0) && (Z.of_nat (length added) =? 0) = false).
    { apply Bool.andb_false_iff.
      destruct (Z.eqb_spec removed 0) as [Hr0 | Hr0]; [| left; reflexivity].
      right. apply Z.eqb_neq. intros Ha. apply Hedit. split; [exact Hr0 |].
      destruct added; [reflexivity | simpl in Ha; lia]. }
    rewrite Hz, bind_get_self, Hss0. cbn [negb].
    assert (Hcons' : buffer_consistent (self w0)).
    { unfold buffer_consistent. cbn [self with_self model set_model_field]. rewrite Hss0.
      split; [lia | exact Hcons]. }
    eexists _, _. split; [reflexivity |]. split; [exact Hcons' |].
    split; [reflexivity |]. split.
    + rewrite Hn, replay_one by lia. f_equal.
      rewrite <- Hlen'. reflexivity.
    + change (updates_listener
                [{| ic_position := position; ic_removed := removed;
                    ic_added := Z.of_nat (length added) |}]
                (get_all (self w)) (get_all (self w0))).
      destruct (get_all_consistent _ _ Hcons0 Hm) as [_ Hold_view].
      destruct (get_all_consistent (self w0) m' Hcons' eq_refl) as [_ Hnew_view].
      rewrite (Hold_view Hss), (Hnew_view Hss0).
      apply updates_listener_one; try lia.
      * rewrite !length_fmap. lia.
      * rewrite length_fmap. lia.
      * intros j Hj. rewrite !list_lookup_fmap. f_equal.
        apply splice_lookup_before; lia.
      * intros j Hj. rewrite !list_lookup_fmap. f_equal.
        apply splice_lookup_after; lia.
Qed.

(** Attaching a model fails the assertion of
    [gtk_tim2_sort_model_start_sorting] when the idle callback is installed
    and no model is attached. *)
Lemma set_model_pending_aborts m w :
  model (self w) = None -> sort_cb (self w) <> 0%nat ->
  gtk_tim2_sort_model_set_model (Some m) w = None.
Proof.
  intros Hm Hcb. unfold gtk_tim2_sort_model_set_model.
  rewrite bind_get_self, Hm.
  change (same_model None (Some m)) with false. cbv iota.
  assert (Hclear : gtk_tim2_sort_model_clear_model w = Some (tt, w)).
  { unfold gtk_tim2_sort_model_clear_model. rewrite bind_get_self, Hm. reflexivity. }
  unfold bind at 1. rewrite Hclear.
  unfold bind at 1. rewrite bind_modify_self.
  set (w2 := with_self (set_model_field (Some m) (self w)) w).
  destruct (create_items_spec w2) as (w3 & Hcreate & _ & _ & (_ & _ & _ & Hc4) & _).
  unfold bind at 1. rewrite Hcreate.
  unfold bind at 1. unfold gtk_tim2_sort_model_start_sorting.
  rewrite bind_get_self. unfold bind at 1. unfold g_assert.
  destruct (Nat.eqb_spec (sort_cb (self w3)) 0) as [E | E]; [| reflexivity].
  exfalso. apply Hcb. rewrite <- E, Hc4. reflexivity.
Qed.

Lemma exec_total o w :
  model_inv (self w) -> buffer_consistent (self w) ->
  op_ok w o -> o <> SetSorter None ->
  ~ attaches_over_pending_callback w o ->
  exists w' l,
    exec o w = Some (tt, w') /\
    buffer_consistent (self w') /\
    emitted w' = emitted w ++ l /\
    replay l (gtk_tim2_sort_model_get_n_items (self w))
      = Some (gtk_tim2_sort_model_get_n_items (self w')) /\
    updates_listener l (get_all (self w)) (get_all (self w')).
Proof.
  intros Hinv Hcons Hop Hkeep Hsafe.
  destruct o as [m | [so |] | b | position removed added | so |]; simpl exec.
  - destruct (set_model_total m w Hinv Hcons) as (w' & l & H1 & H2 & _ & _ & _ & H3 & H4 & H5).
    + exact Hop.
    + intros Hsome Hnone.
      destruct (Nat.eq_dec (sort_cb (self w)) 0%nat) as [E | E]; [exact E |].
      exfalso. apply Hsafe. destruct m as [new |]; [| contradiction].
      exists new. split_and!; [reflexivity | exact Hnone | exact E].
    + exists w', l. split_and!; assumption.
  - destruct (set_sorter_total so w Hop Hcons) as (w' & l & H1 & H2 & _ & _ & _ & H3 & H4 & H5).
    exists w', l. split_and!; assumption.
  - contradiction.
  - apply set_incremental_total; assumption.
  - apply source_items_changed_total; assumption.
  - apply sorter_changed_total; assumption.
  - apply idle_dispatch_total; assumption.
Qed.

Lemma exec_Some_safe o w w' :
  exec o w = Some (tt, w') -> ~ attaches_over_pending_callback w o.
Proof.
  intros Hrun (m & -> & Hm & Hcb). simpl in Hrun.
  rewrite (set_model_pending_aborts m w Hm Hcb) in Hrun. discriminate.
Qed.

Lemma reachable_attached_reachable clock w :
  reachable_attached clock w -> reachable clock w.
Proof.
  induction 1 as [| w o w' _ IH Hop _ Hrun].
  - apply reachable_init.
  - eapply reachable_step; eassumption.
Qed.

Lemma reachable_attached_inv clock w :
  reachable_attached clock w ->
  buffer_consistent (self w) /\
  replay (emitted w) 0 = Some (gtk_tim2_sort_model_get_n_items (self w)).
Proof.
  induction 1 as [| w o w' Hreach [IHc IHr] Hop Hkeep Hrun].
  - split; reflexivity.
  - pose proof (reachable_inv _ _ (reachable_attached_reachable _ _ Hreach)) as Hinv.
    destruct (exec_total o w Hinv IHc Hop Hkeep (exec_Some_safe _ _ _ Hrun))
      as (w'' & l & Hrun' & Hc & Hem & Hrep & _).
    rewrite Hrun in Hrun'. injection Hrun' as <-.
    split; [exact Hc |]. rewrite Hem, replay_app, IHr. exact Hrep.
Qed.

Lemma reachable_attached_run_ops clock ops : forall w,
  reachable_attached clock w -> ops_ok w ops ->
  Forall (fun o => o <> SetSorter None) ops ->
  reachable_attached clock (run_ops ops w).
Proof.
  induction ops as [| o ops IH]; intros w Hreach Hok Hall; simpl.
  - exact Hreach.
  - destruct Hok as (Hop & [r Hrun] & Hrest).
    apply Forall_cons in Hall as [Ho Hall].
    unfold run_ops in IH. apply IH; [| exact Hrest | exact Hall].
    unfold next in *. rewrite Hrun in *. destruct r as [[] w'].
    eapply reachable_attached_step; eassumption.
Qed.

(** ** The public sequence of a consistent model *)

Lemma Sorted_handles so (l : SortArray) :
  Sorted (compare_le (sort_func (Some so))) l -> Sorted (sorter_le so) (si_item <$> l).
Proof.
  induction 1 as [| x l _ IH Hhd]; csimpl; constructor; [exact IH |].
  destruct Hhd as [| y l' Hxy]; csimpl; constructor. exact Hxy.
Qed.

(** ** Example states *)

Lemma attached_sorted_53142 : reachable_attached example_clock world_sorted_53142.
Proof.
  apply reachable_attached_run_ops.
  - apply reachable_attached_init.
  - exact example_ops_sorted_53142.
  - repeat constructor; discriminate.
Qed.

Lemma attached_in_flight : reachable_attached example_clock world_in_flight.
Proof.
  apply reachable_attached_run_ops.
  - apply reachable_attached_init.
  - exact example_ops_in_flight.
  - repeat constructor; discriminate.
Qed.

Lemma example_ops_pending_callback :
  ops_ok (initial_world example_clock)
    [SetIncremental true; SetSorter (Some ascending_numeric)].
Proof.
  eapply ops_ok_cons; [exact I | vm_compute; reflexivity |].
  eapply ops_ok_cons; [exact numeric_sorter_ok | vm_compute; reflexivity |].
  exact I.
Qed.

Lemma attached_pending_callback : reachable_attached example_clock world_pending_callback.
Proof.
  apply reachable_attached_run_ops.
  - apply reachable_attached_init.
  - exact example_ops_pending_callback.
  - repeat constructor; discriminate.
Qed.

(** ** Disposal *)

Lemma dispose_spec w :
  exists w',
    gtk_tim2_sort_model_dispose w = Some (tt, w') /\
    model (self w') = None /\ sorter (self w') = None /\
    emitted w' = emitted w /\
    match model (self w) with
    | Some _ =>
        items (self w') = [] /\ sort_cb (self w') = 0%nat /\
        unreffed w' = unreffed w ++ omap si_item (items (self w))
    | None =>
        items (self w') = items (self w) /\ sort_cb (self w') = sort_cb (self w) /\
        unreffed w' = unreffed w
    end.
Proof.
  unfold gtk_tim2_sort_model_dispose.
  assert (Hmodel : exists w1,
            gtk_tim2_sort_model_clear_model w = Some (tt, w1) /\
            model (self w1) = None /\ emitted w1 = emitted w /\
            match model (self w) with
            | Some _ =>
                items (self w1) = [] /\ sort_cb (self w1) = 0%nat /\
                unreffed w1 = unreffed w ++ omap si_item (items (self w))
            | None =>
                items (self w1) = items (self w) /\ sort_cb (self w1) = sort_cb (self w) /\
                unreffed w1 = unreffed w
            end).
  { unfold gtk_tim2_sort_model_clear_model. rewrite bind_get_self.
    destruct (model (self w)) as [m |] eqn:Hm.
    - rewrite bind_modify_self.
      destruct (clear_items_spec false (with_self (set_model_field None (self w)) w))
        as (w1 & Hclear & He & Hu & Hm1 & _ & _ & Hcb1 & Hitems1).
      unfold bind at 1. rewrite Hclear. unfold ret.
      exists w1. split; [reflexivity |]. simpl in *.
      rewrite free_elements_handles in Hu. split_and!; assumption.
    - exists w. split; [reflexivity |]. split_and!; auto. }
  destruct Hmodel as (w1 & Hclear & Hm1 & He1 & Hrest).
  unfold bind at 1. rewrite Hclear.
  unfold gtk_tim2_sort_model_clear_sorter. rewrite bind_get_self.
  destruct (sorter (self w1)) eqn:Hs1.
  - eexists. split; [reflexivity |]. simpl. split_and!; try assumption; reflexivity.
  - exists w1. split; [reflexivity |]. split_and!; assumption.
Qed.

(** ** Progress of the idle callback *)

Lemma sort_step_loop_measure fuel : forall finish end_time sc ec res w r w',
  sort_step_loop fuel finish end_time sc ec res w = Some (r, w') ->
  (tim_sort_measure (sort (self w')) <= tim_sort_measure (sort (self w)))%nat /\
  (fst (fst r) <> res ->
   (tim_sort_measure (sort (self w')) < tim_sort_measure (sort (self w)))%nat).
Proof.
  induction fuel as [| fuel IH]; intros finish end_time sc ec res w r w' Hrun.
  - injection Hrun as <- <-. simpl. split; [lia | congruence].
  - cbn [sort_step_loop] in Hrun. unfold bind at 1 in Hrun. unfold tim_sort_step_self in Hrun.
    destruct (gtk_tim_sort_step (sort (self w)) (items (self w))) as [[[ts buf] c] |] eqn:Hstep.
    + pose proof (gtk_tim_sort_step_measure _ _ _ _ _ Hstep) as Hmeas.
      unfold bind at 1 in Hrun. unfold g_get_monotonic_time in Hrun.
      match type of Hrun with
      | (if ?b then _ else _) _ = _ => destruct b
      end.
      * injection Hrun as <- <-. simpl. split; lia.
      * apply IH in Hrun as [Hle _]. simpl in Hle. split; lia.
    + injection Hrun as <- <-. simpl. split; [lia | congruence].
Qed.

Lemma sort_step_measure finish w res pos n w' :
  gtk_tim2_sort_model_sort_step finish w = Some ((res, pos, n), w') ->
  (tim_sort_measure (sort (self w')) <= tim_sort_measure (sort (self w)))%nat /\
  (res = true ->
   (tim_sort_measure (sort (self w')) < tim_sort_measure (sort (self w)))%nat).
Proof.
  unfold gtk_tim2_sort_model_sort_step. intros Hrun.
  unfold bind at 1 in Hrun. unfold g_get_monotonic_time in Hrun.
  rewrite bind_get_self in Hrun.
  apply bind_Some in Hrun as (r & w1 & Hloop & Hrun).
  apply sort_step_loop_measure in Hloop as [Hle Hlt]. simpl in Hle, Hlt.
  destruct r as [[res1 sc] ec].
  assert (E : res = res1 /\ w' = w1).
  { destruct (sc <? ec)%nat; injection Hrun as <- _ _ <-; split; reflexivity. }
  destruct E as [-> ->]. split; [exact Hle |].
  intros ->. apply Hlt. simpl. discriminate.
Qed.

Lemma maybe_items_changed_self_neg (c : bool) p r a w u w' :
  (if c then ret tt else g_list_model_items_changed p r a) w = Some (u, w') ->
  self w' = self w.
Proof. destruct c; intros H; injection H as _ <-; reflexivity. Qed.

(** One dispatch of the idle callback either ends the sort or brings the
    engine closer to its end. *)
Lemma idle_dispatch_step w :
  model_inv (self w) -> sort_cb (self w) <> 0%nat ->
  exists w',
    idle_dispatch w = Some (tt, w') /\
    model_inv (self w') /\
    model (self w') = model (self w) /\ sorter (self w') = sorter (self w) /\
    items (self w') ≡ₚ items (self w) /\
    (sort_cb (self w') = 0%nat \/
     (tim_sort_measure (sort (self w')) < tim_sort_measure (sort (self w)))%nat).
Proof.
  intros Hinv Hcb.
  destruct (inv_run _ Hinv Hcb) as (Heng & Htot & _).
  destruct (sort_cb_spec w Heng Htot)
    as (continue & w1 & w0 & new & res & Hstep & Hrun & _ & _ & Hm & Hs & _ & Hperm & _ & _ &
        _ & Hstop).
  cbv zeta in Hstep.
  assert (Hdisp : idle_dispatch w = Some (tt, w1)).
  { unfold idle_dispatch. rewrite bind_get_self.
    destruct (Nat.eqb_spec (sort_cb (self w)) 0) as [E | _]; [contradiction |].
    unfold bind. rewrite Hrun. reflexivity. }
  exists w1. split; [exact Hdisp |].
  split; [exact (idle_dispatch_inv _ _ Hinv Hdisp) |].
  split_and!; try assumption.
  destruct continue.
  - right. pose proof Hrun as Hrun'.
    unfold gtk_tim2_sort_model_sort_cb in Hrun'. unfold bind at 1 in Hrun'.
    rewrite Hstep in Hrun'.
    destruct (sort_step_measure _ _ _ _ _ _ Hstep) as [_ Hlt].
    destruct res.
    + apply bind_Some in Hrun' as (u & w2 & Hemit & Hret).
      injection Hret as <-.
      apply maybe_items_changed_self_neg in Hemit. rewrite Hemit. apply Hlt. reflexivity.
    + apply bind_Some in Hrun' as (u & w2 & _ & Hret). discriminate Hret.
  - left. apply Hstop. reflexivity.
Qed.

Lemma idle_dispatches_finish n : forall w,
  model_inv (self w) ->
  (tim_sort_measure (sort (self w)) < n)%nat ->
  exists (k : nat) w',
    (k <= n)%nat /\
    exec_all (replicate k IdleDispatch) w = Some (tt, w') /\
    model_inv (self w') /\ sort_cb (self w') = 0%nat /\
    model (self w') = model (self w) /\ sorter (self w') = sorter (self w) /\
    items (self w') ≡ₚ items (self w).
Proof.
  induction n as [| n IH]; intros w Hinv Hmeas; [lia |].
  destruct (Nat.eq_dec (sort_cb (self w)) 0%nat) as [Hcb | Hcb].
  { exists 0%nat, w. split_and!; try reflexivity; try assumption; lia. }
  destruct (idle_dispatch_step w Hinv Hcb)
    as (w1 & Hdisp & Hinv1 & Hm1 & Hs1 & Hp1 & Hprog).
  destruct Hprog as [Hdone | Hless].
  - exists 1%nat, w1. split; [lia |]. split.
    { simpl. unfold bind. rewrite Hdisp. reflexivity. }
    split_and!; assumption.
  - destruct (IH w1 Hinv1) as (k & w' & Hk & Hrun & Hinv' & Hcb' & Hm' & Hs' & Hp'); [lia |].
    exists (S k), w'. split; [lia |]. split.
    { simpl. unfold bind at 1. simpl in Hdisp. rewrite Hdisp. exact Hrun. }
    split_and!; try assumption; try congruence.
    etransitivity; eassumption.
Qed.

(** ** The handles released by a source edit *)

Section window_of_source.
Variable old : list GObject.
Variables position removed : Z.

Let g := fun i : nat => {| si_item := old !! i; si_position := Z.of_nat i |}.

Lemma window_outside k : forall s,
  (Z.of_nat (s + k) <= position \/ position + removed <= Z.of_nat s) ->
  List.filter (in_window position removed) (map g (seq s k)) = [].
Proof.
  induction k as [| k IH]; intros s Hs; simpl; [reflexivity |].
  unfold in_window at 1. simpl.
  destruct (Z.leb_spec position (Z.of_nat s)),
    (Z.ltb_spec (Z.of_nat s) (position + removed)); simpl; try lia; apply IH; lia.
Qed.

Lemma window_inside k : forall s,
  position <= Z.of_nat s -> Z.of_nat (s + k) <= position + removed ->
  List.filter (in_window position removed) (map g (seq s k)) = map g (seq s k).
Proof.
  induction k as [| k IH]; intros s Hs Hk; simpl; [reflexivity |].
  unfold in_window at 1. simpl.
  destruct (Z.leb_spec position (Z.of_nat s)),
    (Z.ltb_spec (Z.of_nat s) (position + removed)); simpl; try lia.
  f_equal. apply IH; lia.
Qed.

Lemma lookups_window k : forall s,
  (s + k <= length old)%nat ->
  omap si_item (map g (seq s k)) = take k (drop s old).
Proof.
  induction k as [| k IH]; intros s Hs; csimpl; [reflexivity |].
  destruct (lookup_lt_is_Some_2 old s) as [x Hx]; [lia |].
  rewrite Hx. csimpl. rewrite IH by lia.
  rewrite (drop_S old x s Hx). reflexivity.
Qed.

Lemma dropped_handles_window (a : SortArray) :
  I1 a old -> 0 <= position -> 0 <= removed ->
  position + removed <= Z.of_nat (length old) ->
  omap si_item (dropped_items position removed a)
  ≡ₚ take (Z.to_nat removed) (drop (Z.to_nat position) old).
Proof.
  intros HI Hp Hr Hw. unfold dropped_items.
  rewrite (filter_bool_Permutation _ _ _ HI). unfold source_items. fold g.
  set (p := Z.to_nat position). set (r := Z.to_nat removed).
  replace (length old) with (p + (r + (length old - (p + r))))%nat by (unfold p, r; lia).
  rewrite !seq_app, !map_app, !List.filter_app.
  rewrite window_outside by (unfold p; lia).
  rewrite window_inside by (unfold p, r; lia).
  rewrite window_outside by (unfold p, r; lia).
  rewrite app_nil_r. cbn [app Nat.add].
  rewrite lookups_window by (unfold p, r; lia). reflexivity.
Qed.

End window_of_source.

(** ** The properties *)

(** X1. The two counts that the translator hands back, [unmodified_start]
    and [unmodified_end], bound the part of the buffer that the edit
    changed: the first [unmodified_start] and the last [unmodified_end]
    buffer entries hold the same elements before and after the call.  When
    nothing is dropped both counts are the buffer size; when something is
    dropped, the entry right behind the unmodified prefix and the entry
    right before the unmodified suffix are dropped ones, and the two parts
    do not overlap. *)
Theorem update_items_unmodified_range (items_ : SortArray) runs position removed added r :
  Z.of_nat (length items_) < guint_modulus ->
  gtk_tim2_sort_model_update_items items_ runs position removed added = Some r ->
  let n := length items_ in
  let n' := length (ur_items r) in
  exists s e : nat,
    ur_start r = Z.of_nat s /\ ur_end r = Z.of_nat e /\
    (forall j, (j < s)%nat -> si_item <$> ur_items r !! j = si_item <$> items_ !! j) /\
    (forall j, (j < e)%nat ->
       si_item <$> ur_items r !! (n' - e + j)%nat = si_item <$> items_ !! (n - e + j)%nat) /\
    (Forall (fun si => update_drops position removed si = false) items_ ->
       s = n /\ e = n /\ n' = n) /\
    (Exists (fun si => update_drops position removed si = true) items_ ->
       (s + e < n)%nat /\ (s + e <= n')%nat /\
       (exists si, items_ !! s = Some si /\ update_drops position removed si = true) /\
       (exists si, items_ !! (n - 1 - e)%nat = Some si /\
                   update_drops position removed si = true)).
Proof. apply update_items_range_spec. Qed.

Lemma update_items_unmodified_range_witness :
  exists r s e,
    gtk_tim2_sort_model_update_items buffer_53142 [5%nat; 0%nat] 1 2 0 = Some r /\
    ur_start r = Z.of_nat s /\ ur_end r = Z.of_nat e /\
    (forall j, (j < s)%nat -> si_item <$> ur_items r !! j = si_item <$> buffer_53142 !! j) /\
    (forall j, (j < e)%nat ->
       si_item <$> ur_items r !! (length (ur_items r) - e + j)%nat
       = si_item <$> buffer_53142 !! (5 - e + j)%nat).
Proof.
  eexists.
  assert (Hrun : gtk_tim2_sort_model_update_items buffer_53142 [5%nat; 0%nat] 1 2 0 = Some _)
    by (vm_compute; reflexivity).
  destruct (update_items_unmodified_range buffer_53142 [5%nat; 0%nat] 1 2 0 _
              ltac:(vm_compute; reflexivity) Hrun)
    as (s & e & Hs & He & Hpre & Hsuf & _).
  exists s, e. split; [exact Hrun |]. split_and!; assumption.
Defined.

(** X2. As long as the sorter is never detached through
    [gtk_tim2_sort_model_set_sorter] with NULL, the buffer is in one of its
    two legal states after every operation: when sorting applies it holds
    exactly one item per source element, so its length is the length that
    [get_n_items] reports; otherwise, and without a model, it is empty. *)
Theorem attached_buffer_matches_source clock w :
  reachable_attached clock w ->
  match model (self w) with
  | Some m =>
      if gtk_tim2_sort_model_should_sort (self w)
      then I1 (items (self w)) (model_items m) /\
           Z.of_nat (length (items (self w))) = gtk_tim2_sort_model_get_n_items (self w)
      else items (self w) = []
  | None => items (self w) = []
  end.
Proof.
  intros Hreach. destruct (reachable_attached_inv _ _ Hreach) as [Hcons _].
  unfold buffer_consistent in Hcons.
  unfold gtk_tim2_sort_model_get_n_items, g_list_model_get_n_items.
  destruct (model (self w)) as [m |]; [| exact Hcons].
  destruct Hcons as [_ Hcons].
  destruct (gtk_tim2_sort_model_should_sort (self w)); [| exact Hcons].
  split; [exact Hcons |]. rewrite (I1_length _ _ Hcons). reflexivity.
Qed.

Lemma attached_buffer_matches_source_witness :
  match model (self world_in_flight) with
  | Some m =>
      if gtk_tim2_sort_model_should_sort (self world_in_flight)
      then I1 (items (self world_in_flight)) (model_items m) /\
           Z.of_nat (length (items (self world_in_flight)))
           = gtk_tim2_sort_model_get_n_items (self world_in_flight)
      else items (self world_in_flight) = []
  | None => items (self world_in_flight) = []
  end.
Proof.
  apply (attached_buffer_matches_source example_clock world_in_flight).
  apply reachable_attached_run_ops.
  - apply reachable_attached_init.
  - exact example_ops_in_flight.
  - repeat constructor; discriminate.
Defined.

(** X3. As long as the sorter is never detached with NULL, the public
    sequence read through [get_item] over [0 .. get_n_items) is a
    permutation of the source at every moment, also while an incremental
    sort is in flight; and once no sort callback is pending and the sorter
    orders, it is sorted: no element compares greater than its successor. *)
Theorem view_is_sorted_permutation_of_source clock w m :
  reachable_attached clock w ->
  model (self w) = Some m ->
  get_all (self w) ≡ₚ Some <$> model_items m /\
  forall so, sorter (self w) = Some so ->
    gtk_sorter_get_order so <> GTK_SORTER_ORDER_NONE ->
    sort_cb (self w) = 0%nat ->
    Sorted (sorter_le so) (get_all (self w)).
Proof.
  intros Hreach Hm.
  destruct (reachable_attached_inv _ _ Hreach) as [Hcons _].
  pose proof (reachable_inv _ _ (reachable_attached_reachable _ _ Hreach)) as Hinv.
  split; [apply (get_all_consistent _ _ Hcons Hm) |].
  intros so Hso Horder Hcb.
  assert (Hss : gtk_tim2_sort_model_should_sort (self w) = true).
  { unfold gtk_tim2_sort_model_should_sort. rewrite Hso, Hm.
    rewrite bool_decide_eq_false_2 by exact Horder. reflexivity. }
  rewrite (get_all_buffer _ _ Hcons Hm Hss).
  apply Sorted_handles. apply (inv_sorted _ Hinv Hcb so Hso).
Qed.

Lemma view_is_sorted_permutation_of_source_witness :
  get_all (self world_sorted_53142) ≡ₚ Some <$> model_items source_53142 /\
  forall so, sorter (self world_sorted_53142) = Some so ->
    gtk_sorter_get_order so <> GTK_SORTER_ORDER_NONE ->
    sort_cb (self world_sorted_53142) = 0%nat ->
    Sorted (sorter_le so) (get_all (self world_sorted_53142)).
Proof.
  apply (view_is_sorted_permutation_of_source example_clock world_sorted_53142 source_53142).
  - apply reachable_attached_run_ops.
    + apply reachable_attached_init.
    + exact example_ops_sorted_53142.
    + repeat constructor; discriminate.
  - vm_compute. reflexivity.
Defined.

(** X4. As long as the sorter is never detached with NULL, a model to
    which sorting does not apply (no sorter, or a sorter whose order is
    NONE) is transparent: [get_item] returns what the source returns at
    every index, and the public sequence is the source sequence. *)
Theorem pass_through_view_is_source clock w m :
  reachable_attached clock w ->
  model (self w) = Some m ->
  gtk_tim2_sort_model_should_sort (self w) = false ->
  get_all (self w) = Some <$> model_items m /\
  forall position,
    gtk_tim2_sort_model_get_item (self w) position = g_list_model_get_item m position.
Proof.
  intros Hreach Hm Hss.
  destruct (reachable_attached_inv _ _ Hreach) as [Hcons _].
  split; [apply (get_all_consistent _ _ Hcons Hm); exact Hss |].
  intros position. unfold buffer_consistent in Hcons. rewrite Hm, Hss in Hcons.
  destruct Hcons as [_ Hempty].
  unfold gtk_tim2_sort_model_get_item. rewrite Hm, Hempty. reflexivity.
Qed.

Lemma pass_through_view_is_source_witness :
  get_all (self (run_ops [SetModel (Some source_53142)] (initial_world example_clock)))
  = Some <$> model_items source_53142 /\
  forall position,
    gtk_tim2_sort_model_get_item
      (self (run_ops [SetModel (Some source_53142)] (initial_world example_clock))) position
    = g_list_model_get_item source_53142 position.
Proof.
  apply (pass_through_view_is_source example_clock
           (run_ops [SetModel (Some source_53142)] (initial_world example_clock))
           source_53142).
  - apply reachable_attached_run_ops.
    + apply reachable_attached_init.
    + eapply ops_ok_cons; [vm_compute; reflexivity | vm_compute; reflexivity | exact I].
    + repeat constructor; discriminate.
  - vm_compute. reflexivity.
  - vm_compute. reflexivity.
Defined.

(** X5. As long as the sorter is never detached with NULL, a listener
    that starts from the empty sequence and applies every "items-changed"
    notification in the order emitted can apply each one (position,
    removed and added are not negative and the removed range lies within
    the length the listener holds), and ends with the length that
    [get_n_items] reports. *)
Theorem notifications_replay_to_length clock w :
  reachable_attached clock w ->
  replay (emitted w) 0 = Some (gtk_tim2_sort_model_get_n_items (self w)).
Proof. intros Hreach. apply (reachable_attached_inv _ _ Hreach). Qed.

Lemma notifications_replay_to_length_witness :
  replay (emitted (run_ops [SourceItemsChanged 0 2 [7]] world_in_flight)) 0
  = Some (gtk_tim2_sort_model_get_n_items
            (self (run_ops [SourceItemsChanged 0 2 [7]] world_in_flight))).
Proof.
  apply (notifications_replay_to_length example_clock).
  apply reachable_attached_run_ops.
  - exact attached_in_flight.
  - eapply ops_ok_cons;
      [vm_compute; split_and!; try reflexivity; intros H; discriminate H
      | vm_compute; reflexivity | exact I].
  - repeat constructor; discriminate.
Defined.

(** X6. As long as the sorter is never detached with NULL, every allowed
    operation returns: no assertion of the model fails, in particular not
    [valid == n_items - removed] of the translator nor [sort_cb == 0] of
    [gtk_tim2_sort_model_start_sorting].  The one exception is attaching a
    model while the idle callback is installed and no model is attached. *)
Theorem allowed_operations_complete clock w o :
  reachable_attached clock w ->
  op_ok w o -> o <> SetSorter None ->
  ~ attaches_over_pending_callback w o ->
  exists w', exec o w = Some (tt, w') /\ reachable_attached clock w'.
Proof.
  intros Hreach Hop Hkeep Hsafe.
  destruct (reachable_attached_inv _ _ Hreach) as [Hcons _].
  pose proof (reachable_inv _ _ (reachable_attached_reachable _ _ Hreach)) as Hinv.
  destruct (exec_total o w Hinv Hcons Hop Hkeep Hsafe) as (w' & _ & Hrun & _).
  exists w'. split; [exact Hrun |].
  eapply reachable_attached_step; eassumption.
Qed.

Lemma allowed_operations_complete_witness :
  exists w', exec (SourceItemsChanged 1 3 [8; 9]) world_in_flight = Some (tt, w') /\
             reachable_attached example_clock w'.
Proof.
  apply (allowed_operations_complete example_clock world_in_flight
           (SourceItemsChanged 1 3 [8; 9])).
  - apply reachable_attached_run_ops.
    + apply reachable_attached_init.
    + exact example_ops_in_flight.
    + repeat constructor; discriminate.
  - vm_compute. split_and!; try reflexivity; intros H; discriminate H.
  - discriminate.
  - intros (m & H & _). discriminate H.
Defined.

(** X7. Attaching a model while the idle callback is installed and no
    model is attached aborts: [gtk_tim2_sort_model_clear_model] returns
    early without stopping the sort, and the assertion [sort_cb == 0] of
    [gtk_tim2_sort_model_start_sorting] fails.  The state is reached in
    incremental mode by attaching a sorter before any model. *)
Theorem attach_over_pending_callback_aborts w o :
  attaches_over_pending_callback w o -> exec o w = None.
Proof.
  intros (m & -> & Hm & Hcb). simpl. apply set_model_pending_aborts; assumption.
Qed.

Lemma attach_over_pending_callback_aborts_witness :
  reachable example_clock world_pending_callback /\
  exec (SetModel (Some source_53142)) world_pending_callback = None.
Proof.
  split.
  - apply reachable_run_ops; [apply reachable_init |].
    eapply ops_ok_cons; [exact I | vm_compute; reflexivity |].
    eapply ops_ok_cons; [exact numeric_sorter_ok | vm_compute; reflexivity |].
    exact I.
  - apply (attach_over_pending_callback_aborts world_pending_callback
             (SetModel (Some source_53142))).
    exists source_53142. split_and!.
    + reflexivity.
    + vm_compute. reflexivity.
    + vm_compute. discriminate.
Defined.

(** X8. As long as the sorter is never detached with NULL, in sorted mode
    a source edit that lies within the source and removes or adds
    something produces exactly one notification, and the notification
    covers the change: it lies within the old sequence, it changes the
    length by [added - removed], and the buffer entries before its
    position and behind its range hold the same elements before and
    after. *)
Theorem edit_notification_covers_change clock w m position removed added :
  reachable_attached clock w ->
  model (self w) = Some m ->
  gtk_tim2_sort_model_should_sort (self w) = true ->
  op_ok w (SourceItemsChanged position removed added) ->
  ~ (removed = 0 /\ added = []) ->
  exists w' c,
    source_items_changed position removed added w = Some (tt, w') /\
    emitted w' = emitted w ++ [c] /\
    0 <= ic_position c /\ 0 <= ic_removed c /\ 0 <= ic_added c /\
    ic_position c + ic_removed c <= Z.of_nat (length (model_items m)) /\
    ic_added c - ic_removed c = Z.of_nat (length added) - removed /\
    (forall j : nat, Z.of_nat j < ic_position c ->
       si_item <$> items (self w') !! j = si_item <$> items (self w) !! j) /\
    (forall j : nat, ic_position c + ic_added c <= Z.of_nat j ->
       si_item <$> items (self w') !! j
       = si_item <$> items (self w) !! Z.to_nat (Z.of_nat j - ic_added c + ic_removed c)).
Proof.
  intros Hreach Hm Hss Hop Hedit.
  destruct (reachable_attached_inv _ _ Hreach) as [Hcons _].
  pose proof (reachable_inv _ _ (reachable_attached_reachable _ _ Hreach)) as Hinv.
  unfold buffer_consistent in Hcons. rewrite Hm, Hss in Hcons. destruct Hcons as [Hold HI].
  simpl in Hop. rewrite Hm in Hop. destruct Hop as (Hp & Hr & Hw & Hfit).
  unfold source_items_changed. rewrite bind_get_self, Hm, bind_modify_self.
  set (m' := {| model_id := model_id m;
                model_items := splice (model_items m) position removed added |}).
  set (w0 := with_self (set_model_field (Some m') (self w)) w).
  assert (Hinv0 : model_inv (self w0)).
  { apply (model_inv_set_model _ m); assumption. }
  assert (Hss0 : gtk_tim2_sort_model_should_sort (self w0) = true).
  { rewrite <- Hss. unfold gtk_tim2_sort_model_should_sort. simpl. rewrite Hm. reflexivity. }
  destruct (items_changed_cb_sorted w0 m' (model_items m) position removed added
              Hinv0 eq_refl eq_refl Hss0 HI Hp Hr Hw Hold Hfit Hedit)
    as (w' & c & Hrun & _ & _ & _ & _ & Hem & Hc1 & Hc2 & Hc3 & Hc4 & Hc5 & Hpre & Hsuf).
  exists w', c. split_and!; assumption.
Qed.

Lemma edit_notification_covers_change_witness :
  exists w' c,
    source_items_changed 2 1 [] world_sorted_53142 = Some (tt, w') /\
    emitted w' = emitted world_sorted_53142 ++ [c] /\
    0 <= ic_position c /\ 0 <= ic_removed c /\ 0 <= ic_added c /\
    ic_position c + ic_removed c <= Z.of_nat (length (model_items source_53142)) /\
    ic_added c - ic_removed c = Z.of_nat (length (@nil GObject)) - 1 /\
    (forall j : nat, Z.of_nat j < ic_position c ->
       si_item <$> items (self w') !! j = si_item <$> items (self world_sorted_53142) !! j) /\
    (forall j : nat, ic_position c + ic_added c <= Z.of_nat j ->
       si_item <$> items (self w') !! j
       = si_item <$> items (self world_sorted_53142)
                       !! Z.to_nat (Z.of_nat j - ic_added c + ic_removed c)).
Proof.
  apply (edit_notification_covers_change example_clock world_sorted_53142 source_53142 2 1 []).
  - apply reachable_attached_run_ops.
    + apply reachable_attached_init.
    + exact example_ops_sorted_53142.
    + repeat constructor; discriminate.
  - vm_compute. reflexivity.
  - vm_compute. reflexivity.
  - vm_compute. split_and!; try reflexivity; intros H; discriminate H.
  - intros [H _]. discriminate H.
Defined.

(** X9. Disposing of a model that has a source attached removes the idle
    callback, empties the buffer, releases the element reference of every
    buffered item exactly once, detaches model and sorter, and emits no
    notification. *)
Theorem dispose_releases_buffer w m :
  model (self w) = Some m ->
  exists w',
    gtk_tim2_sort_model_dispose w = Some (tt, w') /\
    model (self w') = None /\ sorter (self w') = None /\
    items (self w') = [] /\ sort_cb (self w') = 0%nat /\
    unreffed w' = unreffed w ++ omap si_item (items (self w)) /\
    emitted w' = emitted w.
Proof.
  intros Hm. destruct (dispose_spec w) as (w' & Hrun & Hm' & Hs' & He & Hrest).
  rewrite Hm in Hrest. destruct Hrest as (Hi & Hcb & Hu).
  exists w'. split_and!; assumption.
Qed.

Lemma dispose_releases_buffer_witness :
  exists w',
    gtk_tim2_sort_model_dispose world_in_flight = Some (tt, w') /\
    model (self w') = None /\ sorter (self w') = None /\
    items (self w') = [] /\ sort_cb (self w') = 0%nat /\
    unreffed w' = unreffed world_in_flight ++ omap si_item (items (self world_in_flight)) /\
    emitted w' = emitted world_in_flight.
Proof.
  apply (dispose_releases_buffer world_in_flight source_53142).
  vm_compute. reflexivity.
Defined.

(** X10. Disposing of a model that has no source attached leaves an
    installed idle callback in place: [gtk_tim2_sort_model_clear_model]
    returns early, so the sort is not stopped.  The state with a callback
    and no source is reached in incremental mode by attaching a sorter
    before any model. *)
Theorem dispose_without_model_keeps_callback w :
  model (self w) = None -> sort_cb (self w) <> 0%nat ->
  exists w',
    gtk_tim2_sort_model_dispose w = Some (tt, w') /\
    sort_cb (self w') = sort_cb (self w) /\
    gtk_tim2_sort_model_is_sorting (self w') = true.
Proof.
  intros Hm Hcb. destruct (dispose_spec w) as (w' & Hrun & _ & _ & _ & Hrest).
  rewrite Hm in Hrest. destruct Hrest as (_ & Hcb' & _).
  exists w'. split_and!; [exact Hrun | exact Hcb' |].
  apply is_sorting_true. rewrite Hcb'. exact Hcb.
Qed.

Lemma dispose_without_model_keeps_callback_witness :
  reachable example_clock world_pending_callback /\
  exists w',
    gtk_tim2_sort_model_dispose world_pending_callback = Some (tt, w') /\
    sort_cb (self w') = sort_cb (self world_pending_callback) /\
    gtk_tim2_sort_model_is_sorting (self w') = true.
Proof.
  split.
  - apply reachable_run_ops; [apply reachable_init |].
    eapply ops_ok_cons; [exact I | vm_compute; reflexivity |].
    eapply ops_ok_cons; [exact numeric_sorter_ok | vm_compute; reflexivity |].
    exact I.
  - apply (dispose_without_model_keeps_callback world_pending_callback).
    + vm_compute. reflexivity.
    + vm_compute. discriminate.
Defined.

(** X11. [gtk_tim2_sort_model_new] with a model and a well-behaved sorter
    returns a model at rest whose public sequence is a permutation of the
    source, sorted when the sorter orders and equal to the source when its
    order is NONE, and whose notifications replay to the source length. *)
Theorem new_model_presents_sorted_source clock m so :
  Z.of_nat (length (model_items m)) < guint_modulus ->
  sorter_ok so ->
  exists w,
    gtk_tim2_sort_model_new (Some m) (Some so) (initial_world clock) = Some (tt, w) /\
    model (self w) = Some m /\ sorter (self w) = Some so /\
    sort_cb (self w) = 0%nat /\
    get_all (self w) ≡ₚ Some <$> model_items m /\
    (gtk_sorter_get_order so <> GTK_SORTER_ORDER_NONE ->
       Sorted (sorter_le so) (get_all (self w))) /\
    (gtk_sorter_get_order so = GTK_SORTER_ORDER_NONE ->
       get_all (self w) = Some <$> model_items m) /\
    replay (emitted w) 0 = Some (Z.of_nat (length (model_items m))).
Proof.
  intros Hlen Hok. unfold gtk_tim2_sort_model_new.
  set (w0 := initial_world clock).
  destruct (set_model_total (Some m) w0 (initial_world_inv clock) eq_refl Hlen)
    as (w1 & l1 & Hrun1 & Hcons1 & Hm1 & Hs1 & Hi1 & Hem1 & Hrep1 & _).
  { intros _ _. reflexivity. }
  pose proof (set_model_inv _ _ _ (initial_world_inv clock) Hrun1) as Hinv1.
  destruct (set_sorter_total so w1 Hok Hcons1)
    as (w2 & l2 & Hrun2 & Hcons2 & Hm2 & Hs2 & Hi2 & Hem2 & Hrep2 & _).
  pose proof (set_sorter_inv (Some so) _ _ Hinv1 Hok Hrun2) as Hinv2.
  unfold bind. rewrite Hrun1, Hrun2.
  simpl in Hm1. rewrite Hm1 in Hm2.
  assert (Hcb2 : sort_cb (self w2) = 0%nat).
  { apply (inv_sync _ Hinv2). rewrite Hi2, Hi1. reflexivity. }
  exists w2. split; [reflexivity |]. split_and!; try assumption.
  - apply (get_all_consistent _ _ Hcons2 Hm2).
  - intros Horder.
    assert (Hss : gtk_tim2_sort_model_should_sort (self w2) = true).
    { unfold gtk_tim2_sort_model_should_sort. rewrite Hs2, Hm2.
      rewrite bool_decide_eq_false_2 by exact Horder. reflexivity. }
    rewrite (get_all_buffer _ _ Hcons2 Hm2 Hss).
    apply Sorted_handles. apply (inv_sorted _ Hinv2 Hcb2 so Hs2).
  - intros Horder. apply (get_all_consistent _ _ Hcons2 Hm2).
    unfold gtk_tim2_sort_model_should_sort. rewrite Hs2, Hm2.
    rewrite bool_decide_eq_true_2 by exact Horder. reflexivity.
  - rewrite Hem2, Hem1. simpl emitted. rewrite app_nil_l, replay_app.
    change (gtk_tim2_sort_model_get_n_items (self w0)) with 0 in Hrep1.
    rewrite Hrep1, Hrep2.
    unfold gtk_tim2_sort_model_get_n_items. rewrite Hm2. reflexivity.
Qed.

Lemma new_model_presents_sorted_source_witness :
  exists w,
    gtk_tim2_sort_model_new (Some source_53142) (Some ascending_numeric)
      (initial_world example_clock) = Some (tt, w) /\
    model (self w) = Some source_53142 /\ sorter (self w) = Some ascending_numeric /\
    sort_cb (self w) = 0%nat /\
    get_all (self w) ≡ₚ Some <$> model_items source_53142 /\
    (gtk_sorter_get_order ascending_numeric <> GTK_SORTER_ORDER_NONE ->
       Sorted (sorter_le ascending_numeric) (get_all (self w))) /\
    (gtk_sorter_get_order ascending_numeric = GTK_SORTER_ORDER_NONE ->
       get_all (self w) = Some <$> model_items source_53142) /\
    replay (emitted w) 0 = Some (Z.of_nat (length (model_items source_53142))).
Proof.
  apply (new_model_presents_sorted_source example_clock source_53142 ascending_numeric).
  - vm_compute. reflexivity.
  - exact numeric_sorter_ok.
Defined.

(** X15. As long as the sorter is never detached with NULL, in sorted
    mode handling a source edit that lies within the source and removes or
    adds something releases one element reference for each removed source
    element and no other: the handles released are, up to order, the
    elements that stood in the removed range of the source. *)
Theorem edit_releases_removed_elements clock w m position removed added :
  reachable_attached clock w ->
  model (self w) = Some m ->
  gtk_tim2_sort_model_should_sort (self w) = true ->
  op_ok w (SourceItemsChanged position removed added) ->
  ~ (removed = 0 /\ added = []) ->
  exists w' released,
    source_items_changed position removed added w = Some (tt, w') /\
    unreffed w' = unreffed w ++ released /\
    released ≡ₚ take (Z.to_nat removed) (drop (Z.to_nat position) (model_items m)).
Proof.
  intros Hreach Hm Hss Hop Hedit.
  destruct (reachable_attached_inv _ _ Hreach) as [Hcons _].
  pose proof (reachable_inv _ _ (reachable_attached_reachable _ _ Hreach)) as Hinv.
  unfold buffer_consistent in Hcons. rewrite Hm, Hss in Hcons. destruct Hcons as [Hold HI].
  simpl in Hop. rewrite Hm in Hop. destruct Hop as (Hp & Hr & Hw & Hfit).
  unfold source_items_changed. rewrite bind_get_self, Hm, bind_modify_self.
  set (m' := {| model_id := model_id m;
                model_items := splice (model_items m) position removed added |}).
  set (w0 := with_self (set_model_field (Some m') (self w)) w).
  assert (Hinv0 : model_inv (self w0)).
  { apply (model_inv_set_model _ m); assumption. }
  assert (Hss0 : gtk_tim2_sort_model_should_sort (self w0) = true).
  { rewrite <- Hss. unfold gtk_tim2_sort_model_should_sort. simpl. rewrite Hm. reflexivity. }
  destruct (items_changed_cb_sorted w0 m' (model_items m) position removed added
              Hinv0 eq_refl eq_refl Hss0 HI Hp Hr Hw Hold Hfit Hedit)
    as (w' & c & Hrun & _ & _ & _ & Hu & _).
  exists w'. eexists. split; [exact Hrun |]. split; [exact Hu |].
  apply dropped_handles_window; assumption.
Qed.

Lemma edit_releases_removed_elements_witness :
  exists w' released,
    source_items_changed 1 2 [6] world_sorted_53142 = Some (tt, w') /\
    unreffed w' = unreffed world_sorted_53142 ++ released /\
    released ≡ₚ take (Z.to_nat 2) (drop (Z.to_nat 1) (model_items source_53142)).
Proof.
  apply (edit_releases_removed_elements example_clock world_sorted_53142 source_53142 1 2 [6]).
  - apply reachable_attached_run_ops.
    + apply reachable_attached_init.
    + exact example_ops_sorted_53142.
    + repeat constructor; discriminate.
  - vm_compute. reflexivity.
  - vm_compute. reflexivity.
  - vm_compute. split_and!; try reflexivity; intros H; discriminate H.
  - intros [H _]. discriminate H.
Defined.

(** X12. An incremental sort comes to its end whatever the clock reads:
    every dispatch of the idle callback runs at least one step of the
    engine before it looks at the time, so after a number of dispatches
    bounded by the work the engine has left, the callback has removed
    itself, and the buffer holds the same items, sorted by the attached
    sorter, with the model and the sorter as they were.  (The engine is
    the stepped merge sort as the specification describes it.) *)
Theorem incremental_sort_completes clock w :
  reachable clock w ->
  exists (k : nat) w',
    (k <= S (tim_sort_measure (sort (self w))))%nat /\
    exec_all (replicate k IdleDispatch) w = Some (tt, w') /\
    sort_cb (self w') = 0%nat /\
    model (self w') = model (self w) /\ sorter (self w') = sorter (self w) /\
    items (self w') ≡ₚ items (self w) /\
    forall so, sorter (self w') = Some so -> buffer_sorted so (items (self w')).
Proof.
  intros Hreach. pose proof (reachable_inv _ _ Hreach) as Hinv.
  destruct (idle_dispatches_finish (S (tim_sort_measure (sort (self w)))) w Hinv)
    as (k & w' & Hk & Hrun & Hinv' & Hcb & Hm & Hs & Hp); [lia |].
  exists k, w'. split_and!; try assumption.
  intros so Hso. apply Sorted_buffer_sorted. apply (inv_sorted _ Hinv' Hcb so Hso).
Qed.

Lemma incremental_sort_completes_witness :
  exists (k : nat) w',
    (k <= S (tim_sort_measure (sort (self world_in_flight))))%nat /\
    exec_all (replicate k IdleDispatch) world_in_flight = Some (tt, w') /\
    sort_cb (self w') = 0%nat /\
    model (self w') = model (self world_in_flight) /\
    sorter (self w') = sorter (self world_in_flight) /\
    items (self w') ≡ₚ items (self world_in_flight) /\
    forall so, sorter (self w') = Some so -> buffer_sorted so (items (self w')).
Proof.
  apply (incremental_sort_completes example_clock world_in_flight).
  apply reachable_run_ops; [apply reachable_init | exact example_ops_in_flight].
Defined.

(* ===================================================================== *)
(** X16. A listener that keeps a copy of the public sequence stays in step
    with the model: for every allowed operation on a model whose sorter
    was never removed, applying the emitted notifications to the public
    sequence from before the operation, each one replacing its removed
    range by the entries that the model shows at its added range once the
    operation has returned, gives the public sequence after it. *)
Theorem operation_notifications_update_listener clock w o :
  reachable_attached clock w ->
  op_ok w o -> o <> SetSorter None ->
  ~ attaches_over_pending_callback w o ->
  exists w' l,
    exec o w = Some (tt, w') /\
    emitted w' = emitted w ++ l /\
    updates_listener l (get_all (self w)) (get_all (self w')).
Proof.
  intros Hreach Hop Hkeep Hsafe.
  destruct (reachable_attached_inv _ _ Hreach) as [Hcons _].
  pose proof (reachable_inv _ _ (reachable_attached_reachable _ _ Hreach)) as Hinv.
  destruct (exec_total o w Hinv Hcons Hop Hkeep Hsafe)
    as (w' & l & Hrun & _ & Hem & _ & Hup).
  exists w', l. split_and!; assumption.
Qed.

Lemma operation_notifications_update_listener_witness :
  exists w' l,
    exec (SourceItemsChanged 0 1 [7]) world_sorted_53142 = Some (tt, w') /\
    emitted w' = emitted world_sorted_53142 ++ l /\
    updates_listener l (get_all (self world_sorted_53142)) (get_all (self w')).
Proof.
  apply (operation_notifications_update_listener example_clock world_sorted_53142
           (SourceItemsChanged 0 1 [7])).
  - apply reachable_attached_run_ops.
    + apply reachable_attached_init.
    + exact example_ops_sorted_53142.
    + repeat constructor; discriminate.
  - vm_compute. split_and!; try reflexivity; intros H; discriminate H.
  - discriminate.
  - intros (m & H & _). discriminate H.
Defined.

(** * The column view *)

(** A loop over the indices of a list that reads the item at each index
    is a fold over the list. *)
Lemma fold_indices {A B} (g : B -> A -> B) (l : list A) : forall (before : list A) (b : B),
  fold_left (fun acc i => match (before ++ l) !! i with
                          | Some x => g acc x
                          | None => acc
                          end)
    (seq (length before) (length l)) b
  = fold_left g l b.
Proof.
  induction l as [| x l IH]; intros before b; simpl; [reflexivity |].
  rewrite lookup_app_r by lia. rewrite Nat.sub_diag. simpl.
  specialize (IH (before ++ [x]) (g b x)).
  rewrite length_app in IH. simpl in IH. rewrite Nat.add_1_r in IH.
  rewrite <- app_assoc in IH. exact IH.
Qed.

Lemma int_wrap_small z : in_int z -> int_wrap z = z.
Proof.
  unfold in_int, int_wrap, int_min, int_max, int_modulus. intros Hz.
  rewrite Z.mod_small by lia. lia.
Qed.

Lemma total_width_snoc f l c : total_width f (l ++ [c]) = total_width f l + f c.
Proof. induction l as [| x l IH]; simpl; [lia |]. rewrite IH. lia. Qed.

Lemma sums_in_int_take f columns i :
  sums_in_int f columns -> in_int (total_width f (take i columns)).
Proof.
  unfold sums_in_int. rewrite Forall_forall. intros H.
  destruct (Nat.le_gt_cases i (length columns)) as [Hle | Hgt].
  - apply H. apply elem_of_seq. lia.
  - rewrite take_ge by lia. rewrite <- (firstn_all columns) at 1.
    apply H. apply elem_of_seq. lia.
Qed.

Lemma fold_pair {A B C} (g : B -> A -> B) (h : C -> A -> C) (l : list A) : forall b c,
  fold_left (fun (acc : B * C) x => (g (fst acc) x, h (snd acc) x)) l (b, c)
  = (fold_left g l b, fold_left h l c).
Proof. induction l as [| x l IH]; intros b c; simpl; [reflexivity | apply IH]. Qed.

(** A wrapping sum whose partial sums are all [int]s is the sum. *)
Lemma fold_int_sum f (l : list GtkColumnViewColumn) : forall before,
  (forall i, in_int (total_width f (before ++ take i l))) ->
  fold_left (fun acc column => int_wrap (acc + f column)) l (total_width f before)
  = total_width f (before ++ l).
Proof.
  induction l as [| c l IH]; intros before Hsums; simpl.
  - rewrite app_nil_r. reflexivity.
  - rewrite <- total_width_snoc.
    rewrite int_wrap_small.
    + rewrite IH.
      * rewrite <- app_assoc. reflexivity.
      * intros i. rewrite <- app_assoc. exact (Hsums (S i)).
    + specialize (Hsums 1%nat). simpl in Hsums. rewrite take_0 in Hsums. exact Hsums.
Qed.

Lemma measure_across_total columns :
  sums_in_int column_min columns -> sums_in_int column_nat columns ->
  gtk_column_view_measure_across columns
  = (total_width column_min columns, total_width column_nat columns).
Proof.
  intros Hmin Hnat. unfold gtk_column_view_measure_across.
  etransitivity.
  { apply (fold_indices
             (fun (acc : Z * Z) column => (int_wrap (fst acc + column_min column),
                                           int_wrap (snd acc + column_nat column)))
             columns [] (0, 0)). }
  rewrite (fold_pair (fun a column => int_wrap (a + column_min column))
                     (fun a column => int_wrap (a + column_nat column))).
  f_equal.
  - apply (fold_int_sum column_min columns []).
    intros i. apply sums_in_int_take. exact Hmin.
  - apply (fold_int_sum column_nat columns []).
    intros i. apply sums_in_int_take. exact Hnat.
Qed.

Lemma fold_allocations policy (l : list GtkColumnViewColumn) :
  forall (before : list GtkColumnViewColumn) (allocations : list ColumnAllocation),
    (forall i, in_int (total_width (column_size policy) (before ++ take i l))) ->
    fold_left
      (fun (acc : Z * list ColumnAllocation) column =>
         (int_wrap (fst acc + column_size policy column),
          snd acc ++ [{| alloc_column := column_id column;
                         alloc_x := fst acc;
                         alloc_size := column_size policy column |}]))
      l (total_width (column_size policy) before, allocations)
    = (total_width (column_size policy) (before ++ l),
       allocations ++
       imap (fun i column =>
               {| alloc_column := column_id column;
                  alloc_x := total_width (column_size policy) (before ++ take i l);
                  alloc_size := column_size policy column |}) l).
Proof.
  induction l as [| c l IH]; intros before allocations Hsums; simpl.
  - rewrite !app_nil_r. reflexivity.
  - rewrite <- total_width_snoc.
    rewrite int_wrap_small.
    + rewrite IH.
      * rewrite <- !app_assoc. simpl. f_equal. f_equal. f_equal.
        -- rewrite app_nil_r. reflexivity.
        -- apply imap_ext. intros i x _. simpl. rewrite <- app_assoc. reflexivity.
      * intros i. rewrite <- app_assoc. exact (Hsums (S i)).
    + specialize (Hsums 1%nat). simpl in Hsums. rewrite take_0 in Hsums. exact Hsums.
Qed.

Lemma allocations_spec policy (columns : list GtkColumnViewColumn) :
  sums_in_int (column_size policy) columns ->
  fold_left
    (fun (acc : Z * list ColumnAllocation) (i : nat) =>
       match columns !! i with
       | Some column =>
           let col_size := column_size policy column in
           (int_wrap (fst acc + col_size),
            snd acc ++ [{| alloc_column := column_id column;
                           alloc_x := fst acc;
                           alloc_size := col_size |}])
       | None => acc
       end)
    (seq 0 (length columns)) (0, [])
  = (total_width (column_size policy) columns,
     imap (fun i column =>
             {| alloc_column := column_id column;
                alloc_x := total_width (column_size policy) (take i columns);
                alloc_size := column_size policy column |}) columns).
Proof.
  intros Hsums. etransitivity.
  { apply (fold_indices
             (fun (acc : Z * list ColumnAllocation) column =>
                (int_wrap (fst acc + column_size policy column),
                 snd acc ++ [{| alloc_column := column_id column;
                                alloc_x := fst acc;
                                alloc_size := column_size policy column |}]))
             columns [] (0, [])). }
  apply (fold_allocations policy columns [] []).
  intros i. apply sums_in_int_take. exact Hsums.
Qed.

Lemma remove_column_index_spec column (columns : list GtkColumnViewColumn) : forall k,
  let i := remove_column_index columns column k in
  (k <= i <= k + length columns)%nat /\
  (forall j item, columns !! j = Some item -> (k + j < i)%nat -> column_id item <> column) /\
  ((i < k + length columns)%nat ->
     exists item, columns !! (i - k)%nat = Some item /\ column_id item = column).
Proof.
  induction columns as [| x l IH]; intros k; simpl.
  - split_and!; try lia.
  - destruct (Nat.eqb_spec (column_id x) column) as [E | E].
    + split_and!; try lia.
      intros _. exists x. rewrite Nat.sub_diag. split; [reflexivity | exact E].
    + destruct (IH (S k)) as (H1 & H2 & H3). split_and!; try lia.
      * intros [| j] item Hj Hlt; simpl in Hj.
        -- injection Hj as <-. exact E.
        -- apply (H2 j item Hj). lia.
      * intros Hlt. destruct H3 as (item & Hitem & Hid); [lia |].
        exists item. split; [| exact Hid].
        replace (remove_column_index l column (S k) - k)%nat
          with (S (remove_column_index l column (S k) - S k)) by lia.
        exact Hitem.
Qed.

(** Past the range the sums wrap: two columns of widths [INT_MAX] and 1
    measure as [INT_MIN]. *)
Example measure_across_wraps :
  gtk_column_view_measure_across
    [ {| column_id := 1; column_min := int_max; column_nat := int_max |};
      {| column_id := 2; column_min := 1; column_nat := 1 |} ]
  = (int_min, int_min).
Proof. vm_compute. reflexivity. Qed.

(** X13. As long as the widths offered and measured for the view are
    [int]s and no partial sum of the column widths and none of the
    differences taken leaves the range of [int],
    [gtk_column_view_measure_across] reports the sums of the minimum and of
    the natural widths of the columns; and
    [gtk_column_view_allocate_columns] places the columns side by side in
    list order from [x = 0], each with its minimum or its natural width as
    the scroll policy says, so that together they cover the width that
    [gtk_column_view_measure_across] reports; the width it returns is the
    larger of the width offered and the width measured for the view
    itself. *)
Theorem columns_allocated_side_by_side columns policy widget_min widget_nat width :
  sums_in_int column_min columns -> sums_in_int column_nat columns ->
  in_int width -> in_int (widget_size policy widget_min widget_nat) ->
  in_int (widget_size policy widget_min widget_nat
          - total_width (column_size policy) columns) ->
  in_int (width - (widget_size policy widget_min widget_nat
                   - total_width (column_size policy) columns)) ->
  let r := gtk_column_view_allocate_columns columns policy widget_min widget_nat width in
  let measured := gtk_column_view_measure_across columns in
  measured = (total_width column_min columns, total_width column_nat columns) /\
  fst r = Z.max width (widget_size policy widget_min widget_nat) /\
  length (snd r) = length columns /\
  (forall i column, columns !! i = Some column ->
     snd r !! i = Some {| alloc_column := column_id column;
                          alloc_x := total_width (column_size policy) (take i columns);
                          alloc_size := column_size policy column |}) /\
  total_width (column_size policy) columns
  = match policy with
    | GTK_SCROLL_MINIMUM => fst measured
    | GTK_SCROLL_NATURAL => snd measured
    end.
Proof.
  intros Hmin Hnat Hwidth Hwidget Hextra Hrest. cbv zeta.
  assert (Hsize : sums_in_int (column_size policy) columns).
  { destruct policy; assumption. }
  unfold gtk_column_view_allocate_columns.
  pose proof (allocations_spec policy columns Hsize) as Hallocations.
  cbv zeta in Hallocations.
  rewrite (measure_across_total columns Hmin Hnat), Hallocations.
  split; [reflexivity |].
  split.
  - assert (Hsum : total_width (column_size policy) columns
                   = match policy with
                     | GTK_SCROLL_MINIMUM => total_width column_min columns
                     | GTK_SCROLL_NATURAL => total_width column_nat columns
                     end).
    { destruct policy; reflexivity. }
    rewrite Hsum in Hextra, Hrest.
    destruct policy; cbn [widget_size fst] in *;
      rewrite (int_wrap_small _ Hextra), (int_wrap_small _ Hrest);
      (rewrite int_wrap_small; [lia |]); unfold in_int in *; lia.
  - split; [destruct policy; simpl; rewrite length_imap; reflexivity |].
    split.
    + intros i column Hi.
      destruct policy; simpl; rewrite list_lookup_imap, Hi; reflexivity.
    + destruct policy; reflexivity.
Qed.

Lemma columns_allocated_side_by_side_witness :
  let r := gtk_column_view_allocate_columns example_columns GTK_SCROLL_MINIMUM 60 150 100 in
  let measured := gtk_column_view_measure_across example_columns in
  measured = (total_width column_min example_columns,
              total_width column_nat example_columns) /\
  fst r = Z.max 100 (widget_size GTK_SCROLL_MINIMUM 60 150) /\
  length (snd r) = length example_columns /\
  (forall i column, example_columns !! i = Some column ->
     snd r !! i = Some {| alloc_column := column_id column;
                          alloc_x := total_width (column_size GTK_SCROLL_MINIMUM)
                                       (take i example_columns);
                          alloc_size := column_size GTK_SCROLL_MINIMUM column |}) /\
  total_width (column_size GTK_SCROLL_MINIMUM) example_columns
  = match GTK_SCROLL_MINIMUM with
    | GTK_SCROLL_MINIMUM => fst measured
    | GTK_SCROLL_NATURAL => snd measured
    end.
Proof.
  apply (columns_allocated_side_by_side example_columns GTK_SCROLL_MINIMUM 60 150 100).
  - repeat constructor; vm_compute; intros H; discriminate H.
  - repeat constructor; vm_compute; intros H; discriminate H.
  - vm_compute. split; intros H; discriminate H.
  - vm_compute. split; intros H; discriminate H.
  - vm_compute. split; intros H; discriminate H.
  - vm_compute. split; intros H; discriminate H.
Defined.

(** X14. Past its guards, [gtk_column_view_remove_column] removes the
    first list entry that is the column and nothing else: the entries
    before it are other columns, and the remaining entries keep their
    order.  For a column that is not in the list, the position handed to
    [g_list_store_remove] is the list length and the list stays as it
    is. *)
Theorem remove_column_removes_first_occurrence columns column :
  ((exists item, item ∈ columns /\ column_id item = column) ->
   exists i item,
     columns !! i = Some item /\ column_id item = column /\
     (forall j other, columns !! j = Some other -> (j < i)%nat ->
        column_id other <> column) /\
     gtk_column_view_remove_column columns column true
     = take i columns ++ drop (S i) columns) /\
  ((forall item, item ∈ columns -> column_id item <> column) ->
   remove_column_index columns column 0 = length columns /\
   gtk_column_view_remove_column columns column true = columns).
Proof.
  destruct (remove_column_index_spec column columns 0%nat) as (H1 & H2 & H3).
  cbv zeta in H1, H2, H3. unfold gtk_column_view_remove_column.
  set (i := remove_column_index columns column 0) in *.
  split.
  - intros (item & Hin & Hid).
    assert (Hlt : (i < length columns)%nat).
    { apply list_elem_of_lookup in Hin as [j Hj].
      destruct (Nat.lt_ge_cases i (length columns)) as [Hlt | Hge]; [exact Hlt |].
      exfalso. apply (H2 j item Hj); [| exact Hid].
      apply lookup_lt_Some in Hj. lia. }
    destruct H3 as (found & Hfound & Hfid); [lia |].
    rewrite Nat.sub_0_r in Hfound.
    exists i, found. split; [exact Hfound |]. split; [exact Hfid |]. split.
    + intros j other Hj Hji. apply (H2 j other Hj). lia.
    + apply delete_take_drop.
  - intros Habsent.
    assert (Hge : (length columns <= i)%nat).
    { destruct (Nat.lt_ge_cases i (length columns)) as [Hlt | Hge]; [| exact Hge].
      destruct H3 as (found & Hfound & Hfid); [lia |].
      exfalso. apply (Habsent found); [| exact Hfid].
      apply list_elem_of_lookup. eexists. exact Hfound. }
    split; [lia |].
    rewrite delete_take_drop, take_ge, drop_ge by lia. apply app_nil_r.
Qed.

Lemma remove_column_removes_first_occurrence_witness :
  exists i item,
    example_columns !! i = Some item /\ column_id item = 2%nat /\
    (forall j other, example_columns !! j = Some other -> (j < i)%nat ->
       column_id other <> 2%nat) /\
    gtk_column_view_remove_column example_columns 2 true
    = take i example_columns ++ drop (S i) example_columns.
Proof.
  apply (proj1 (remove_column_removes_first_occurrence example_columns 2)).
  exists {| column_id := 2; column_min := 25; column_nat := 30 |}. split; [| reflexivity].
  unfold example_columns. apply list_elem_of_lookup. exists 1%nat. reflexivity.
Defined.
